(** * The fallback orchestrator and the response normaliser of [llm.service.py]

    A shallow embedding of [LLMService] (validation and normalisation of a
    model's reply, one model invocation, the ordered fallback chain) and of
    the parts of the Python runtime it leans on: [json.loads], [json.dumps],
    [repr] and [str.strip].

    Text is a [string] of bytes holding the UTF-8 encoding of the Python
    [str]; every character the code inspects is ASCII, so byte-wise and
    character-wise processing agree except where noted. *)

From Stdlib Require Import String Ascii List ZArith NArith Bool Arith Lia.
From Stdlib Require Decimal DecimalString DecimalPos DecimalZ DecimalFacts.
Import ListNotations.
Local Open Scope list_scope.
Local Open Scope string_scope.

(** ** Exceptions and results *)

(** The exception classes that occur; all of them derive from [Exception].
    [ProviderError] stands for whatever the HTTP client raises.  What does
    not derive from [Exception] (a cancellation, an interrupt) is not part
    of the model. *)
Inductive exn : Type :=
| JSONDecodeError (msg : string)
| AttributeError (msg : string)
| ValueError (msg : string)
| IndexError (msg : string)
| KeyError (msg : string)
| TypeError (msg : string)
| RuntimeError (msg : string)
| RecursionError (msg : string)
| ProviderError (msg : string).

(** [str(e)] *)
Definition exn_str (e : exn) : string :=
  match e with
  | JSONDecodeError m | AttributeError m | ValueError m | IndexError m
  | TypeError m | RuntimeError m | RecursionError m | ProviderError m => m
  | KeyError m => m
  end.

Inductive outcome (A : Type) : Type :=
| Returns (a : A)
| Raises (e : exn).
Arguments Returns {A} a.
Arguments Raises {A} e.

(** ** Characters *)

Definition dquote : ascii := "034"%char.
Definition backslash : ascii := "092"%char.
Definition code (c : ascii) : N := N_of_ascii c.
Definition chr (n : N) : ascii := ascii_of_N n.
Definition str1 (c : ascii) : string := String c EmptyString.

Definition is_digit (c : ascii) : bool :=
  ((48 <=? code c) && (code c <=? 57))%N.

(** [IS_WHITESPACE] of the JSON scanner: space, tab, line feed, return. *)
Definition is_json_ws (c : ascii) : bool :=
  (c =? " ")%char || (c =? "009")%char || (c =? "010")%char || (c =? "013")%char.

Fixpoint skip_ws (s : string) : string :=
  match s with
  | String c s' => if is_json_ws c then skip_ws s' else s
  | EmptyString => EmptyString
  end.

Definition hex_val (c : ascii) : option N :=
  let n := code c in
  if ((48 <=? n) && (n <=? 57))%N then Some (n - 48)%N
  else if ((97 <=? n) && (n <=? 102))%N then Some (n - 87)%N
  else if ((65 <=? n) && (n <=? 70))%N then Some (n - 55)%N
  else None.

Definition hex4 (a b c d : ascii) : option N :=
  match hex_val a, hex_val b, hex_val c, hex_val d with
  | Some x, Some y, Some z, Some t => Some (((x * 16 + y) * 16 + z) * 16 + t)%N
  | _, _, _, _ => None
  end.

Definition hex_digit (n : N) : ascii :=
  if (n <? 10)%N then chr (48 + n) else chr (87 + n).

(** The UTF-8 encoding of one code point (a lone surrogate is encoded like
    any other three-byte code point). *)
Definition utf8_encode (cp : N) : string :=
  if (cp <? 128)%N then str1 (chr cp)
  else if (cp <? 2048)%N then
    String (chr (192 + cp / 64)) (str1 (chr (128 + cp mod 64)))
  else if (cp <? 65536)%N then
    String (chr (224 + cp / 4096))
      (String (chr (128 + (cp / 64) mod 64)) (str1 (chr (128 + cp mod 64))))
  else
    String (chr (240 + cp / 262144))
      (String (chr (128 + (cp / 4096) mod 64))
         (String (chr (128 + (cp / 64) mod 64)) (str1 (chr (128 + cp mod 64))))).

(** ** The interpreter

    What the program depends on in the Python process that runs it.
    [spare_depth]: how many nested calls the C code of [json.loads] may
    still make, beyond three, when it is called (it makes one for each
    list and each dict it enters); the process is taken not to be within
    three calls of its recursion limit, so the dicts the code itself
    builds can always be read back.  [int_max_str_digits]: the limit of
    [sys.set_int_max_str_digits], 4300 by default, 0 for no limit.
    [isprintable]: [str.isprintable] of the Unicode database, for a code
    point above 127. *)
Class Interpreter : Type := mkInterpreter {
  spare_depth : nat;
  int_max_str_digits : nat;
  isprintable : N -> bool
}.

(** ** JSON values

    What [json.loads] builds: [None], [bool], [int], [float], [str], [list]
    and [dict].  A [dict] keeps its keys in insertion order.  A [float] is
    kept as the literal that denotes it: IEEE rounding is outside the model,
    so two literals of one double are distinct values here. *)
#[local] Unset Elimination Schemes.
Inductive json : Type :=
| JNull
| JBool (b : bool)
| JInt (z : Z)
| JFloat (lexeme : string)
| JStr (s : string)
| JList (l : list json)
| JDict (d : list (string * json)).
#[local] Set Elimination Schemes.

Definition dict : Type := list (string * json).

(** [d.get(k)] as an option, [d.get(k, default)], and [d[k] = v]. *)
Fixpoint dict_find (k : string) (d : dict) : option json :=
  match d with
  | [] => None
  | (k', v) :: d' => if (k' =? k)%string then Some v else dict_find k d'
  end.

Definition dict_get (k : string) (d : dict) (default : json) : json :=
  match dict_find k d with Some v => v | None => default end.

Fixpoint dict_set (k : string) (v : json) (d : dict) : dict :=
  match d with
  | [] => [(k, v)]
  | (k', v') :: d' =>
      if (k' =? k)%string then (k, v) :: d' else (k', v') :: dict_set k v d'
  end.

(** ** The decoder: [json.loads]

    After CPython's [_json] accelerator ([scan_once_unicode],
    [scanstring_unicode], [_parse_object_unicode], [_parse_array_unicode],
    [_match_number_unicode]), with the messages of CPython 3.8 to 3.12.  A
    scan works on the text still to be read; a failure carries the text at
    the place of the error, from which the position in the message is
    computed.  A scan is aborted by an exception that is no decoding
    error: the [RecursionError] of a nesting deeper than the interpreter has
    room for, the [ValueError] of an integer with more digits than it
    converts. *)
Inductive scan (A : Type) : Type :=
| Scanned (a : A) (rest : string)
| Failed (msg : string) (at_ : string)
| Aborted (e : exn)
| OutOfFuel.
Arguments Scanned {A} a rest.
Arguments Failed {A} msg at_.
Arguments Aborted {A} e.
Arguments OutOfFuel {A}.

Definition unescape (c : ascii) : option ascii :=
  if (c =? dquote)%char then Some dquote
  else if (c =? backslash)%char then Some backslash
  else if (c =? "/")%char then Some "/"%char
  else if (c =? "b")%char then Some "008"%char
  else if (c =? "f")%char then Some "012"%char
  else if (c =? "n")%char then Some "010"%char
  else if (c =? "r")%char then Some "013"%char
  else if (c =? "t")%char then Some "009"%char
  else None.

Definition is_high_surrogate (n : N) : bool := ((55296 <=? n) && (n <=? 56319))%N.
Definition is_low_surrogate (n : N) : bool := ((56320 <=? n) && (n <=? 57343))%N.
Definition join_surrogates (hi lo : N) : N :=
  (65536 + ((hi - 55296) * 1024 + (lo - 56320)))%N.

Definition scan_map {A B : Type} (f : A -> B) (r : scan A) : scan B :=
  match r with
  | Scanned a rest => Scanned (f a) rest
  | Failed m p => Failed m p
  | Aborted e => Aborted e
  | OutOfFuel => OutOfFuel
  end.

Definition invalid_u : string := "Invalid \uXXXX escape".

(** [scanstring_unicode], strict mode; [s] starts after the opening quote and
    [begin] at it. *)
Fixpoint scanstring (begin s : string) : scan string :=
  match s with
  | EmptyString => Failed "Unterminated string starting at" begin
  | String c s1 =>
    if (c =? dquote)%char then Scanned EmptyString s1
    else if (c =? backslash)%char then
      match s1 with
      | EmptyString => Failed "Unterminated string starting at" begin
      | String e s2 =>
        if (e =? "u")%char then
          match s2 with
          | String h1 (String h2 (String h3 (String h4 ((String n1 s3) as after)))) =>
            match hex4 h1 h2 h3 h4 with
            | None => Failed invalid_u s1
            | Some hi =>
              let single := scan_map (append (utf8_encode hi)) (scanstring begin after) in
              if is_high_surrogate hi then
                match s3 with
                | String n2 (String l1 (String l2 (String l3 (String l4 ((String _ _) as after2))))) =>
                  if ((n1 =? backslash) && (n2 =? "u"))%char then
                    match hex4 l1 l2 l3 l4 with
                    | None => Failed invalid_u (String n2 (String l1 (String l2 (String l3 (String l4 after2)))))
                    | Some lo =>
                      if is_low_surrogate lo then
                        scan_map (append (utf8_encode (join_surrogates hi lo)))
                                 (scanstring begin after2)
                      else single
                    end
                  else single
                | _ => single
                end
              else single
            end
          | _ => Failed invalid_u s1
          end
        else
          match unescape e with
          | Some c' => scan_map (String c') (scanstring begin s2)
          | None => Failed "Invalid \escape" s
          end
      end
    else if (code c <=? 31)%N then Failed "Invalid control character at" s
    else scan_map (String c) (scanstring begin s1)
  end.

(** *** Numbers

    An optional minus sign; a zero, or a non-zero digit and more digits; an
    optional fraction (a dot and digits); an optional exponent (e or E, an
    optional sign and digits). *)

Fixpoint span_digits (s : string) : string * string :=
  match s with
  | String c s' =>
      if is_digit c then let (ds, r) := span_digits s' in (String c ds, r)
      else (EmptyString, s)
  | EmptyString => (EmptyString, EmptyString)
  end.

Definition scan_sign (s : string) : string * string :=
  match s with
  | String c r => if (c =? "-")%char then ("-", r) else (EmptyString, s)
  | EmptyString => (EmptyString, s)
  end.

Definition scan_int (s : string) : option (string * string) :=
  match s with
  | String c r =>
      if (c =? "0")%char then Some ("0", r)
      else if is_digit c then let (ds, r') := span_digits r in Some (String c ds, r')
      else None
  | EmptyString => None
  end.

Definition scan_frac (s : string) : string * string :=
  match s with
  | String c (String d r) =>
      if ((c =? ".")%char && is_digit d)%bool
      then let (ds, r') := span_digits r in (String c (String d ds), r')
      else (EmptyString, s)
  | _ => (EmptyString, s)
  end.

Definition scan_exp (s : string) : string * string :=
  match s with
  | String e r =>
      if ((e =? "e") || (e =? "E"))%char then
        let (sg, r1) :=
          match r with
          | String c r' =>
              if ((c =? "+") || (c =? "-"))%char then (str1 c, r') else (EmptyString, r)
          | EmptyString => (EmptyString, r)
          end in
        match span_digits r1 with
        | (EmptyString, _) => (EmptyString, s)
        | (ds, r2) => (String e (sg ++ ds), r2)
        end
      else (EmptyString, s)
  | EmptyString => (EmptyString, s)
  end.

(** [int(lexeme)] for a lexeme of the integer grammar. *)
Definition py_int (lexeme : string) : Z :=
  match DecimalString.NilZero.int_of_string lexeme with
  | Some d => Z.of_int d
  | None => 0%Z
  end.

(** [repr] of an [int]. *)
Definition int_repr (z : Z) : string := DecimalString.NilZero.string_of_int (Z.to_int z).

Definition nat_str (n : nat) : string := DecimalString.NilZero.string_of_uint (Nat.to_uint n).

Definition is_empty (s : string) : bool :=
  match s with EmptyString => true | _ => false end.

Definition scan_number (s : string) : option (json * string) :=
  let (sg, s1) := scan_sign s in
  match scan_int s1 with
  | None => None
  | Some (ip, s2) =>
      let (fr, s3) := scan_frac s2 in
      let (ex, s4) := scan_exp s3 in
      if (is_empty fr && is_empty ex)%bool
      then Some (JInt (py_int (sg ++ ip)), s4)
      else Some (JFloat (sg ++ ip ++ fr ++ ex), s4)
  end.

(** [s] without the literal [lit] it starts with. *)
Fixpoint strip_prefix (lit s : string) : option string :=
  match lit, s with
  | EmptyString, _ => Some s
  | String a lit', String b s' => if (a =? b)%char then strip_prefix lit' s' else None
  | String _ _, EmptyString => None
  end.

Definition expecting_value : string := "Expecting value".
Definition expecting_comma : string := "Expecting ',' delimiter".
Definition expecting_colon : string := "Expecting ':' delimiter".
Definition expecting_name : string :=
  "Expecting property name enclosed in double quotes".

Definition scan_constant (s : string) : option (json * string) :=
  match strip_prefix "null" s with Some r => Some (JNull, r) | None =>
  match strip_prefix "true" s with Some r => Some (JBool true, r) | None =>
  match strip_prefix "false" s with Some r => Some (JBool false, r) | None =>
  match strip_prefix "NaN" s with Some r => Some (JFloat "NaN", r) | None =>
  match strip_prefix "Infinity" s with Some r => Some (JFloat "Infinity", r) | None =>
  match strip_prefix "-Infinity" s with Some r => Some (JFloat "-Infinity", r) | None =>
  scan_number s
  end end end end end end.

(** [Py_EnterRecursiveCall] failed while entering a list or a dict. *)
Definition recursion_error (what : string) : exn :=
  RecursionError ("maximum recursion depth exceeded while decoding a JSON "
                  ++ what ++ " from a unicode string").

(** The digits [PyLong_FromString] counts in the literal of an integer: a
    literal of the JSON grammar has no leading zero, so they are the digits
    of the absolute value. *)
Definition int_digits (z : Z) : nat := String.length (int_repr (Z.abs z)).

(** The conversion of the literal is refused: more than 640 digits, a
    limit is set, and the digits are more than the limit. *)
Definition exceeds_int_limit {L : Interpreter} (v : json) : bool :=
  match v with
  | JInt z =>
      ((640 <? int_digits z) && (0 <? int_max_str_digits)
       && (int_max_str_digits <? int_digits z))%nat%bool
  | _ => false
  end.

Definition int_limit_error {L : Interpreter} (v : json) : exn :=
  ValueError
    ("Exceeds the limit (" ++ nat_str int_max_str_digits
     ++ " digits) for integer string conversion: value has "
     ++ nat_str (match v with JInt z => int_digits z | _ => 0 end)
     ++ " digits; use sys.set_int_max_str_digits() to increase the limit").

(** [scan_once] with the loops of [_parse_array_unicode] ([parse_items]) and
    [_parse_object_unicode] ([parse_members]).  [parse_items] starts at an
    element, [parse_members] at a key.  [depth] is the number of lists and
    dicts that may still be entered, one inside the other.  The fuel bounds
    the number of calls; [json_loads] gives enough of it for every text. *)
Fixpoint scan_once {L : Interpreter} (fuel depth : nat) (s : string) {struct fuel}
  : scan json :=
  match fuel with
  | O => OutOfFuel
  | S fuel' =>
    match s with
    | EmptyString => Failed expecting_value s
    | String c s1 =>
      if (c =? dquote)%char then scan_map JStr (scanstring s s1)
      else if (c =? "{")%char then
        match depth with
        | O => Aborted (recursion_error "object")
        | S depth' =>
          match skip_ws s1 with
          | String c2 r as s2 =>
              if (c2 =? "}")%char then Scanned (JDict []) r
              else scan_map JDict (parse_members fuel' depth' [] s2)
          | EmptyString => Failed expecting_name EmptyString
          end
        end
      else if (c =? "[")%char then
        match depth with
        | O => Aborted (recursion_error "array")
        | S depth' =>
          match skip_ws s1 with
          | String c2 r as s2 =>
              if (c2 =? "]")%char then Scanned (JList []) r
              else scan_map JList (parse_items fuel' depth' s2)
          | EmptyString => Failed expecting_value EmptyString
          end
        end
      else
        match scan_constant s with
        | Some (v, r) =>
            if exceeds_int_limit v then Aborted (int_limit_error v) else Scanned v r
        | None => Failed expecting_value s
        end
    end
  end
with parse_items {L : Interpreter} (fuel depth : nat) (s : string) {struct fuel}
  : scan (list json) :=
  match fuel with
  | O => OutOfFuel
  | S fuel' =>
    match scan_once fuel' depth s with
    | Scanned v r =>
        match skip_ws r with
        | String c r2 as r1 =>
            if (c =? "]")%char then Scanned [v] r2
            else if (c =? ",")%char
            then scan_map (cons v) (parse_items fuel' depth (skip_ws r2))
            else Failed expecting_comma r1
        | EmptyString => Failed expecting_comma EmptyString
        end
    | Failed m p => Failed m p
    | Aborted e => Aborted e
    | OutOfFuel => OutOfFuel
    end
  end
with parse_members {L : Interpreter} (fuel depth : nat) (acc : dict) (s : string)
    {struct fuel} : scan dict :=
  match fuel with
  | O => OutOfFuel
  | S fuel' =>
    match s with
    | EmptyString => Failed expecting_name s
    | String c s1 =>
      if (c =? dquote)%char then
        match scanstring s s1 with
        | Scanned key r =>
          match skip_ws r with
          | EmptyString => Failed expecting_colon EmptyString
          | String c2 r2 as r1 =>
            if (c2 =? ":")%char then
              match scan_once fuel' depth (skip_ws r2) with
              | Scanned v r3 =>
                let acc' := dict_set key v acc in
                match skip_ws r3 with
                | EmptyString => Failed expecting_comma EmptyString
                | String c4 r5 as r4 =>
                  if (c4 =? "}")%char then Scanned acc' r5
                  else if (c4 =? ",")%char
                  then parse_members fuel' depth acc' (skip_ws r5)
                  else Failed expecting_comma r4
                end
              | Failed m p => Failed m p
              | Aborted e => Aborted e
              | OutOfFuel => OutOfFuel
              end
            else Failed expecting_colon r1
          end
        | Failed m p => Failed m p
        | Aborted e => Aborted e
        | OutOfFuel => OutOfFuel
        end
      else Failed expecting_name s
    end
  end.

(** *** The message of a [JSONDecodeError] *)

(** The number of characters of a text: its bytes that do not continue a
    UTF-8 sequence. *)
Fixpoint py_len (s : string) : nat :=
  match s with
  | EmptyString => 0
  | String c s' =>
      if ((128 <=? code c) && (code c <? 192))%N then py_len s' else S (py_len s')
  end.

Fixpoint take (n : nat) (s : string) : string :=
  match n, s with
  | S n', String c s' => String c (take n' s')
  | _, _ => EmptyString
  end.

Fixpoint count_newlines (s : string) : nat :=
  match s with
  | EmptyString => 0
  | String c s' => if (c =? "010")%char then S (count_newlines s') else count_newlines s'
  end.

(** The part of [s] after its last line feed. *)
Fixpoint last_line (s : string) : string :=
  match s with
  | EmptyString => EmptyString
  | String c s' =>
      if (0 <? count_newlines s)%nat then last_line s' else s
  end.

(** [str(JSONDecodeError(msg, doc, pos))], [pos] being where [at_] starts
    in [doc]. *)
Definition decode_error (msg doc at_ : string) : exn :=
  let before := take (String.length doc - String.length at_) doc in
  JSONDecodeError
    (msg ++ ": line " ++ nat_str (S (count_newlines before))
         ++ " column " ++ nat_str (S (py_len (last_line before)))
         ++ " (char " ++ nat_str (py_len before) ++ ")").

Definition utf8_bom : string :=
  String "239" (String "187" (String "191" EmptyString)).

(** [json.loads(s)] for a [str].  The last case does not occur: the fuel
    suffices. *)
Definition json_loads {L : Interpreter} (s : string) : outcome json :=
  match strip_prefix utf8_bom s with
  | Some _ =>
      Raises (decode_error "Unexpected UTF-8 BOM (decode using utf-8-sig)" s s)
  | None =>
      match scan_once (S (2 * String.length s)) (3 + spare_depth) (skip_ws s) with
      | Scanned v r =>
          match skip_ws r with
          | EmptyString => Returns v
          | r' => Raises (decode_error "Extra data" s r')
          end
      | Failed m p => Raises (decode_error m s p)
      | Aborted e => Raises e
      | OutOfFuel => Raises (RuntimeError "out of fuel")
      end
  end.

(** ** The encoder: [json.dumps(obj, ensure_ascii=False)]

    The serialised form of a value: items separated by a comma and a space,
    keys from values by a colon and a space, strings with the quote, the
    backslash and the control characters escaped and every other character
    written as it is.  A float is written as its literal. *)

Definition escape_char (c : ascii) : string :=
  if (c =? dquote)%char then String backslash (str1 dquote)
  else if (c =? backslash)%char then String backslash (str1 backslash)
  else if (c =? "010")%char then "\n"
  else if (c =? "013")%char then "\r"
  else if (c =? "009")%char then "\t"
  else if (c =? "008")%char then "\b"
  else if (c =? "012")%char then "\f"
  else if (code c <? 32)%N then
    "\u00" ++ String (hex_digit (code c / 16)) (str1 (hex_digit (code c mod 16)))
  else str1 c.

Fixpoint escape (s : string) : string :=
  match s with
  | EmptyString => EmptyString
  | String c s' => escape_char c ++ escape s'
  end.

Definition encode_str (s : string) : string :=
  String dquote (escape s ++ str1 dquote).

Fixpoint json_dumps (v : json) : string :=
  match v with
  | JNull => "null"
  | JBool true => "true"
  | JBool false => "false"
  | JInt z => int_repr z
  | JFloat lexeme => lexeme
  | JStr s => encode_str s
  | JList [] => "[]"
  | JList (x :: l) =>
      "[" ++ json_dumps x ++
      (fix more (l : list json) : string :=
         match l with
         | [] => "]"
         | y :: l' => ", " ++ json_dumps y ++ more l'
         end) l
  | JDict [] => "{}"
  | JDict ((k, x) :: d) =>
      "{" ++ encode_str k ++ ": " ++ json_dumps x ++
      (fix more (d : dict) : string :=
         match d with
         | [] => "}"
         | (k', y) :: d' => ", " ++ encode_str k' ++ ": " ++ json_dumps y ++ more d'
         end) d
  end.

(** ** Python's view of a value *)

(** The digits of the mantissa of a float literal, as an integer, and the
    power of ten it is multiplied by: the exponent less the number of digits
    of the fraction. *)
Definition float_parts (lexeme : string) : Z * Z :=
  let (_, s1) := scan_sign lexeme in
  let (ip, s2) := span_digits s1 in
  let (fr, s3) :=
    match s2 with
    | String c r => if (c =? ".")%char then span_digits r else (EmptyString, s2)
    | EmptyString => (EmptyString, s2)
    end in
  let ex :=
    match s3 with
    | String _ (String c r) =>
        if (c =? "+")%char then py_int r else py_int (String c r)
    | _ => 0%Z
    end in
  (py_int (ip ++ fr), (ex - Z.of_nat (String.length fr))%Z).

(** The double a float literal denotes is zero: its mantissa is zero, or
    the number is at most 2^-1075, half of the least positive double, and
    the correctly rounded conversion of [float] gives 0.0.  [NaN] and the
    infinities are not zero. *)
Definition float_is_zero (lexeme : string) : bool :=
  match lexeme with
  | String c _ =>
      if ((c =? "N") || (c =? "I"))%char then false
      else
        match lexeme with
        | String _ (String c2 _) =>
            if (c2 =? "I")%char then false
            else
              let (m, e) := float_parts lexeme in
              ((m =? 0) || ((e <? 0) && (m * 2 ^ 1075 <=? 10 ^ (- e))))%Z
        | _ =>
            let (m, e) := float_parts lexeme in
            ((m =? 0) || ((e <? 0) && (m * 2 ^ 1075 <=? 10 ^ (- e))))%Z
        end
  | EmptyString => true
  end.

(** [bool(v)]: what [not v] and [v or default] test. *)
Definition truthy (v : json) : bool :=
  match v with
  | JNull => false
  | JBool b => b
  | JInt z => negb (z =? 0)%Z
  | JFloat lexeme => negb (float_is_zero lexeme)
  | JStr s => negb (is_empty s)
  | JList l => match l with [] => false | _ => true end
  | JDict d => match d with [] => false | _ => true end
  end.

(** [type(v).__name__] *)
Definition type_name (v : json) : string :=
  match v with
  | JNull => "NoneType"
  | JBool _ => "bool"
  | JInt _ => "int"
  | JFloat _ => "float"
  | JStr _ => "str"
  | JList _ => "list"
  | JDict _ => "dict"
  end.

(** [v.get(k, default)]: only a dict has the method. *)
Definition py_get (v : json) (k : string) (default : json) : outcome json :=
  match v with
  | JDict d => Returns (dict_get k d default)
  | _ => Raises (AttributeError
                   ("'" ++ type_name v ++ "' object has no attribute 'get'"))
  end.

Definition bind {A B : Type} (m : outcome A) (k : A -> outcome B) : outcome B :=
  match m with
  | Returns a => k a
  | Raises e => Raises e
  end.

Notation "x <- m ;; k" := (bind m (fun x => k))
  (at level 61, m at next level, right associativity).

(** ** The response normaliser *)

Definition _validate_json_response {L : Interpreter} (response : string) : bool :=
  match json_loads response with
  | Returns (JDict _) => true
  | Returns _ => false
  | Raises _ => false
  end.

(** One entry of [suggested_fixes]: the dict with the keys [fix], [priority]
    and [impact]. *)
Record SuggestedFix : Type := mkFix {
  fix_ : json;
  priority : json;
  impact : json
}.

(** The dict [parse_ai_response] returns. *)
Record NormalizedResult : Type := mkResult {
  transformation_rules : list json;
  error_analysis : string;
  suggested_fixes : list SuggestedFix
}.

Definition default_fix : SuggestedFix :=
  mkFix (JStr "No specific fixes suggested") (JStr "medium") (JStr "Unknown").

(** The loop over [suggested_fixes]: a dict is projected, a string wrapped,
    anything else dropped. *)
Fixpoint validated_fixes (fixes : list json) : list SuggestedFix :=
  match fixes with
  | [] => []
  | JDict d :: rest =>
      mkFix (dict_get "fix" d (JStr "Unknown fix"))
            (dict_get "priority" d (JStr "medium"))
            (dict_get "impact" d (JStr "Unknown impact"))
      :: validated_fixes rest
  | JStr s :: rest =>
      mkFix (JStr s) (JStr "medium") (JStr "General improvement")
      :: validated_fixes rest
  | _ :: rest => validated_fixes rest
  end.

Definition parse_failure (message : string) : NormalizedResult :=
  mkResult
    [JStr "JSON parsing error in AI response"]
    ("Failed to parse AI response as JSON: " ++ message)
    [mkFix (JStr "Check AI response format and prompt engineering")
           (JStr "high")
           (JStr "Ensure consistent JSON output from AI model")].

Definition isinstance_str (v : json) : bool :=
  match v with JStr _ => true | _ => false end.
Definition isinstance_list (v : json) : bool :=
  match v with JList _ => true | _ => false end.
Definition as_str (v : json) : string :=
  match v with JStr s => s | _ => EmptyString end.
Definition as_list (v : json) : list json :=
  match v with JList l => l | _ => [] end.

(** The body of the [try] block, after [json.loads]. *)
Definition normalize_parsed (structured_response : json) : outcome NormalizedResult :=
  transformation_rules <- py_get structured_response "transformation_rules" JNull ;;
  let transformation_rules :=
    if isinstance_str transformation_rules then [transformation_rules]
    else if (negb (truthy transformation_rules)
             || negb (isinstance_list transformation_rules))%bool
    then [JStr "No transformation rules generated"]
    else as_list transformation_rules in
  error_analysis <- py_get structured_response "error_analysis" JNull ;;
  let error_analysis :=
    if (negb (truthy error_analysis) || negb (isinstance_str error_analysis))%bool
    then "No error analysis provided"
    else as_str error_analysis in
  suggested_fixes <- py_get structured_response "suggested_fixes" JNull ;;
  let suggested_fixes :=
    if (negb (truthy suggested_fixes) || negb (isinstance_list suggested_fixes))%bool
    then [default_fix]
    else validated_fixes (as_list suggested_fixes) in
  Returns (mkResult transformation_rules error_analysis suggested_fixes).

Definition parse_ai_response {L : Interpreter} (answer : string)
  : outcome NormalizedResult :=
  match (structured_response <- json_loads answer ;;
         normalize_parsed structured_response) with
  | Raises (JSONDecodeError message) => Returns (parse_failure message)
  | r => r
  end.

(** The dict a result is, as a JSON value. *)
Definition fix_json (f : SuggestedFix) : json :=
  JDict [("fix", fix_ f); ("priority", priority f); ("impact", impact f)].

Definition result_json (r : NormalizedResult) : json :=
  JDict [("transformation_rules", JList (transformation_rules r));
         ("error_analysis", JStr (error_analysis r));
         ("suggested_fixes", JList (map fix_json (suggested_fixes r)))].

Definition serialize (r : NormalizedResult) : string := json_dumps (result_json r).

(** ** The service *)

(** [MODEL_CONFIGS]: per model, [max_tokens] and [temperature] (a float,
    kept as its literal). *)
Record ModelConfig : Type := mkConfig {
  max_tokens : Z;
  temperature : string
}.

Definition MODEL_CONFIGS : list (string * ModelConfig) :=
  [("sonar-large-online", mkConfig 4096 "0.1");
   ("sonar-small-online", mkConfig 4096 "0.1");
   ("sonar-large-chat", mkConfig 4096 "0.1");
   ("llama-3.1-70b-versatile", mkConfig 4096 "0.1")].

Definition MODEL_FALLBACK_CHAIN : list string :=
  ["sonar-large-chat"; "sonar-large-online"; "llama-3.1-70b-versatile";
   "sonar-small-online"].

Fixpoint config_get (model_name : string) (table : list (string * ModelConfig))
    (default : ModelConfig) : ModelConfig :=
  match table with
  | [] => default
  | (k, c) :: table' =>
      if (k =? model_name)%string then c else config_get model_name table' default
  end.

(** What one call of [client.chat.completions.create] sends. *)
Record ChatRequest : Type := mkRequest {
  req_model : string;
  req_system : string;
  req_user : string;
  req_temperature : string;
  req_max_tokens : Z
}.

(** A row of the table [error_logs]. *)
Record ErrorRecord : Type := mkError {
  workflow_id : Z;
  error_type : string;
  log_message : string;
  timestamp : Z
}.

(** The world around the service.  [provider] is the remote API: for a
    request it raises, or answers with the [message.content] of each of its
    choices ([None] when a message has no content).  [requests] are the
    requests made so far, oldest first.  [logged] are the calls of
    [ErrorHandler.log_error] so far, [error_logs] the table they write to
    ([None]: the application runs without a connection pool).  [inserts]
    tells what becomes of the INSERT of each call of [log_error], the first
    call being call 0: it fails ([None]: the connection cannot be acquired,
    the statement is refused), or it stores its row with the time
    [datetime.now()] gave. *)
Record World : Type := mkWorld {
  provider : ChatRequest -> outcome (list (option string));
  requests : list ChatRequest;
  logged : list (Z * string * string);
  error_logs : option (list ErrorRecord);
  inserts : nat -> option Z
}.

(** A computation in the world: a result or an exception, and the world
    after it. *)
Definition M (A : Type) : Type := World -> outcome A * World.

Definition ret {A : Type} (a : A) : M A := fun w => (Returns a, w).

Definition bindM {A B : Type} (m : M A) (k : A -> M B) : M B :=
  fun w =>
    match m w with
    | (Returns a, w') => k a w'
    | (Raises e, w') => (Raises e, w')
    end.

(** [try: m except Exception as e: handler e] *)
Definition try_except {A : Type} (m : M A) (handler : exn -> M A) : M A :=
  fun w =>
    match m w with
    | (Returns a, w') => (Returns a, w')
    | (Raises e, w') => handler e w'
    end.

Definition lift {A : Type} (r : outcome A) : M A := fun w => (r, w).

Notation "x <~ m ;; k" := (bindM m (fun x => k))
  (at level 61, m at next level, right associativity).
Notation "m ;;; k" := (bindM m (fun _ => k))
  (at level 61, right associativity).

(** [ErrorHandler.log_error]: inserts a row; whatever goes wrong (no pool,
    a failing INSERT) is logged and swallowed. *)
Definition log_error (workflow_id : Z) (error_type log_message : string) : M unit :=
  fun w =>
    (Returns tt,
     mkWorld (provider w) (requests w)
             (logged w ++ [(workflow_id, error_type, log_message)])%list
             (match error_logs w, inserts w (length (logged w)) with
              | Some rows, Some time =>
                  Some (rows ++ [mkError workflow_id error_type log_message time])%list
              | Some rows, None => Some rows
              | None, _ => None
              end)
             (inserts w)).

(** [await client.chat.completions.create(...)] *)
Definition chat_completions_create (request : ChatRequest)
  : M (list (option string)) :=
  fun w =>
    (provider w request,
     mkWorld (provider w) (requests w ++ [request])%list (logged w) (error_logs w)
             (inserts w)).

(** *** [str.strip], [startswith], [endswith] and slices *)

(** The characters [str.isspace] accepts, in UTF-8: the ASCII ones (9 to 13,
    28 to 32), U+0085, U+00A0, U+1680, U+2000 to U+200A, U+2028, U+2029,
    U+202F, U+205F and U+3000. *)
Definition is_space (c : ascii) : bool :=
  (((9 <=? code c) && (code c <=? 13)) || ((28 <=? code c) && (code c <=? 32)))%N.

Definition wide_space (a b c : ascii) : bool :=
  let x := code a in let y := code b in let z := code c in
  (((x =? 225) && (y =? 154) && (z =? 128))
   || ((x =? 226) && (y =? 128)
       && (((128 <=? z) && (z <=? 138)) || (z =? 168) || (z =? 169) || (z =? 175)))
   || ((x =? 226) && (y =? 129) && (z =? 159))
   || ((x =? 227) && (y =? 128) && (z =? 128)))%N.

Definition mid_space (a b : ascii) : bool :=
  ((code a =? 194) && ((code b =? 133) || (code b =? 160)))%N.

Fixpoint lstrip (s : string) : string :=
  match s with
  | String a s1 =>
      if is_space a then lstrip s1
      else
        match s1 with
        | String b s2 =>
            if mid_space a b then lstrip s2
            else
              match s2 with
              | String c s3 => if wide_space a b c then lstrip s3 else s
              | EmptyString => s
              end
        | EmptyString => s
        end
  | EmptyString => s
  end.

(** [lstrip] on the reversed text: the bytes of a character come last
    first. *)
Fixpoint lstrip_rev (s : string) : string :=
  match s with
  | String a s1 =>
      if is_space a then lstrip_rev s1
      else
        match s1 with
        | String b s2 =>
            if mid_space b a then lstrip_rev s2
            else
              match s2 with
              | String c s3 => if wide_space c b a then lstrip_rev s3 else s
              | EmptyString => s
              end
        | EmptyString => s
        end
  | EmptyString => s
  end.

Fixpoint rev_onto (s acc : string) : string :=
  match s with
  | EmptyString => acc
  | String c s' => rev_onto s' (String c acc)
  end.

Definition reverse (s : string) : string := rev_onto s EmptyString.

Definition rstrip (s : string) : string := reverse (lstrip_rev (reverse s)).

Definition strip (s : string) : string := rstrip (lstrip s).

Definition startswith (s lit : string) : bool :=
  match strip_prefix lit s with Some _ => true | None => false end.

Definition endswith (s lit : string) : bool :=
  startswith (reverse s) (reverse lit).

(** [s[n:]] and [s[:-n]], used after an ASCII prefix or suffix was found. *)
Fixpoint drop (n : nat) (s : string) : string :=
  match n, s with
  | S n', String _ s' => drop n' s'
  | _, _ => s
  end.

Definition drop_last (n : nat) (s : string) : string :=
  reverse (drop n (reverse s)).

(** The code-fence cleaning of a reply. *)
Definition clean_response (response_content : string) : string :=
  let response_content := strip response_content in
  let response_content :=
    if startswith response_content "```json"
    then strip (drop 7 response_content) else response_content in
  let response_content :=
    if endswith response_content "```"
    then strip (drop_last 3 response_content) else response_content in
  if startswith response_content "```"
  then strip (drop 3 response_content) else response_content.

Definition system_prompt : string :=
  "You are a technical analyst specializing in workflow optimization and error resolution. 
You provide clear, actionable recommendations in structured JSON format.
You always respond with valid JSON only - no additional text, no explanations, no markdown formatting.".

(** The service object: the attributes [__init__] sets ([error_handler] is
    the world's). *)
Record LLMService : Type := mkService {
  api_key : string;
  primary_model : string
}.

(** [LLMService.__init__]; the key may be [None]. *)
Definition __init__ (api_key : option string) (primary_model : string)
  : outcome LLMService :=
  match api_key with
  | None => Raises (ValueError "Perplexity API key is required")
  | Some key =>
      if is_empty key then Raises (ValueError "Perplexity API key is required")
      else Returns (mkService key primary_model)
  end.

(** [create_llm_service], [getenv] being [os.getenv]. *)
Definition create_llm_service (getenv : string -> option string)
  : outcome LLMService :=
  let api_key := getenv "PERPLEXITY_API_KEY" in
  let primary_model :=
    match getenv "PERPLEXITY_MODEL" with
    | Some m => m
    | None => "sonar-large-chat"
    end in
  match api_key with
  | None => Raises (ValueError "PERPLEXITY_API_KEY environment variable is required")
  | Some key =>
      if is_empty key
      then Raises (ValueError "PERPLEXITY_API_KEY environment variable is required")
      else __init__ api_key primary_model
  end.

(** [if workflow_id:] for an [Optional[int]] *)
Definition workflow_truthy (workflow_id : option Z) : bool :=
  match workflow_id with
  | Some z => negb (z =? 0)%Z
  | None => false
  end.

Definition chat_request (prompt model_name : string) : ChatRequest :=
  let model_config := config_get model_name MODEL_CONFIGS (mkConfig 2048 "0.1") in
  mkRequest model_name system_prompt prompt
            (temperature model_config) (max_tokens model_config).

(** [chat_completion.choices[0].message.content], cleaned. *)
Definition first_content (choices : list (option string)) : outcome string :=
  match choices with
  | [] => Raises (IndexError "list index out of range")
  | None :: _ => Raises (AttributeError "'NoneType' object has no attribute 'strip'")
  | Some response_content :: _ => Returns (clean_response response_content)
  end.

(** The [try] block of [query_perplexity_model]. *)
Definition request_model (prompt model_name : string) : M string :=
  choices <~ chat_completions_create (chat_request prompt model_name) ;;
  lift (first_content choices).

Definition query_perplexity_model (self : LLMService) (prompt model_name : string)
    (workflow_id : option Z) : M (option string * option string * string) :=
  try_except
    (response_content <~ request_model prompt model_name ;;
     ret (Some response_content, None, model_name))
    (fun e =>
       let error_message :=
         "Perplexity API error with model " ++ model_name ++ ": " ++ exn_str e in
       (if workflow_truthy workflow_id
        then log_error (match workflow_id with Some z => z | None => 0%Z end)
                       "API_Error" error_message
        else ret tt) ;;;
       ret (None, Some error_message, model_name)).

(** *** [repr], as the f-string of the aggregated message needs it *)

Fixpoint contains_char (c : ascii) (s : string) : bool :=
  match s with
  | EmptyString => false
  | String c' s' => ((c' =? c)%char || contains_char c s')%bool
  end.

Definition hex2 (c : ascii) : string :=
  String (hex_digit (code c / 16)) (str1 (hex_digit (code c mod 16))).

(** One ASCII character inside [repr] of a [str] quoted with [quote]. *)
Definition repr_char (quote c : ascii) : string :=
  if ((c =? quote) || (c =? backslash))%char then String backslash (str1 c)
  else if (c =? "009")%char then "\t"
  else if (c =? "010")%char then "\n"
  else if (c =? "013")%char then "\r"
  else if ((code c <? 32) || (code c =? 127))%N then "\x" ++ hex2 c
  else str1 c.

(** The bytes at the head of [s] that continue a UTF-8 sequence. *)
Fixpoint continuations (s : string) : string :=
  match s with
  | String c s' =>
      if ((128 <=? code c) && (code c <? 192))%N then String c (continuations s')
      else EmptyString
  | EmptyString => EmptyString
  end.

(** The code point of a character of more than one byte. *)
Definition decode_wide (lead : ascii) (more : string) : N :=
  (fix go (acc : N) (s : string) : N :=
     match s with
     | String c s' => go (acc * 64 + (code c - 128))%N s'
     | EmptyString => acc
     end)
    (if (code lead <? 224)%N then (code lead - 192)%N
     else if (code lead <? 240)%N then (code lead - 224)%N
     else (code lead - 240)%N)
    more.

Fixpoint hex_digits (n : nat) (x : N) : string :=
  match n with
  | O => EmptyString
  | S n' => hex_digits n' (x / 16) ++ str1 (hex_digit (x mod 16))
  end.

(** A character above 127 inside [repr]: as it is when the interpreter
    holds it printable, else escaped with two, four or eight hexadecimal
    digits. *)
Definition repr_wide {L : Interpreter} (lead : ascii) (more : string) : string :=
  let cp := decode_wide lead more in
  if isprintable cp then String lead more
  else if (cp <? 256)%N then "\x" ++ hex_digits 2 cp
  else if (cp <? 65536)%N then "\u" ++ hex_digits 4 cp
  else "\U" ++ hex_digits 8 cp.

(** The characters of [s] inside [repr]; the bytes that continue a
    character are written with its first byte. *)
Fixpoint repr_chars {L : Interpreter} (quote : ascii) (s : string) : string :=
  match s with
  | EmptyString => EmptyString
  | String c s' =>
      if (code c <? 128)%N then repr_char quote c ++ repr_chars quote s'
      else if (code c <? 192)%N then repr_chars quote s'
      else repr_wide c (continuations s') ++ repr_chars quote s'
  end.

Definition repr_quote (s : string) : ascii :=
  if (contains_char "'" s && negb (contains_char dquote s))%bool
  then dquote else "'"%char.

Definition repr_str {L : Interpreter} (s : string) : string :=
  String (repr_quote s) (repr_chars (repr_quote s) s ++ str1 (repr_quote s)).

Definition repr_bool (b : bool) : string := if b then "True" else "False".

Definition repr_optional {L : Interpreter} (o : option string) : string :=
  match o with Some s => repr_str s | None => "None" end.

(** [str(o)], as [{o}] in an f-string formats it. *)
Definition str_optional (o : option string) : string :=
  match o with Some s => s | None => "None" end.

(** ** The fallback orchestrator *)

(** One entry of [attempts]: the dict with the keys [model], [success] and
    [error]. *)
Record Attempt : Type := mkAttempt {
  model : string;
  success : bool;
  error : option string
}.

Definition repr_attempt {L : Interpreter} (a : Attempt) : string :=
  "{'model': " ++ repr_str (model a) ++ ", 'success': " ++ repr_bool (success a)
  ++ ", 'error': " ++ repr_optional (error a) ++ "}".

Fixpoint repr_more {L : Interpreter} (l : list Attempt) : string :=
  match l with
  | [] => "]"
  | a :: l' => ", " ++ repr_attempt a ++ repr_more l'
  end.

Definition repr_attempts {L : Interpreter} (l : list Attempt) : string :=
  match l with
  | [] => "[]"
  | a :: l' => "[" ++ repr_attempt a ++ repr_more l'
  end.

Definition model_chain (self : LLMService) : list string :=
  primary_model self
  :: filter (fun model => negb (model =? primary_model self)%string) MODEL_FALLBACK_CHAIN.

Definition is_not_none {A : Type} (o : option A) : bool :=
  match o with Some _ => true | None => false end.

(** [bool(x)] for an [Optional[str]]: the answer of a model, an API key. *)
Definition optional_truthy (answer : option string) : bool :=
  match answer with Some s => negb (is_empty s) | None => false end.

Definition answer_valid {L : Interpreter} (answer : option string) : bool :=
  match answer with Some s => _validate_json_response s | None => false end.

Definition Result : Type :=
  (option string * option string * option string * list Attempt)%type.

(** The [for] loop of [query_with_fallback] over what is left of the chain,
    and the statements after it. *)
Fixpoint fallback_loop {L : Interpreter} (self : LLMService) (prompt : string)
    (workflow_id : option Z) (model_chain : list string) (attempts : list Attempt)
    (last_error : option string) : M Result :=
  match model_chain with
  | [] =>
      let error_msg :=
        "All models failed. Attempts: " ++ repr_attempts attempts
        ++ ". Last error: " ++ str_optional last_error in
      ret (None, Some error_msg, None, attempts)
  | model_name :: rest =>
      fun w =>
        match query_perplexity_model self prompt model_name workflow_id w with
        | (Returns (answer, error, used_model), w') =>
            let attempts :=
              (attempts ++ [mkAttempt used_model (is_not_none answer) error])%list in
            if (optional_truthy answer && answer_valid answer)%bool
            then (Returns (answer, None, Some used_model, attempts), w')
            else if optional_truthy answer
            then fallback_loop self prompt workflow_id rest attempts
                   (Some ("Model " ++ used_model ++ " returned invalid JSON format")) w'
            else fallback_loop self prompt workflow_id rest attempts last_error w'
        | (Raises e, w') =>
            fallback_loop self prompt workflow_id rest
              (attempts ++ [mkAttempt model_name false (Some (exn_str e))])%list
              (Some (exn_str e)) w'
        end
  end.

Definition query_with_fallback {L : Interpreter} (self : LLMService) (prompt : string)
    (workflow_id : option Z) : M Result :=
  fallback_loop self prompt workflow_id (model_chain self) [] None.

(** ** The stand-alone invoker of [main.py] *)

Module Main.

(** What [client.post] answers: the status, the body as text, and what
    [resp.json()] makes of it. *)
Record Response : Type := mkResponse {
  status_code : Z;
  text : string;
  body : outcome json
}.

Definition is_continuation (c : ascii) : bool :=
  ((128 <=? code c) && (code c <? 192))%N.

Fixpoint continuation_bytes (s : string) : string :=
  match s with
  | String c s' => if is_continuation c then String c (continuation_bytes s') else EmptyString
  | EmptyString => EmptyString
  end.

(** [v[0]] *)
Definition subscript0 (v : json) : outcome json :=
  match v with
  | JList (x :: _) => Returns x
  | JList [] => Raises (IndexError "list index out of range")
  | JStr (String c s) => Returns (JStr (String c (continuation_bytes s)))
  | JStr EmptyString => Raises (IndexError "string index out of range")
  | JDict _ => Raises (KeyError "0")
  | _ => Raises (TypeError ("'" ++ type_name v ++ "' object is not subscriptable"))
  end.

(** [v or default] *)
Definition or_else (v default : json) : json := if truthy v then v else default.

(** The [try] block; [post] is the endpoint behind [client.post]. *)
Definition request_content (post : ChatRequest -> outcome Response)
    (prompt : string) (api_key : option string) (model_name : string)
  : outcome json :=
  _ <- (if optional_truthy api_key then Returns tt
        else Raises (ValueError "Perplexity API key not provided.")) ;;
  resp <- post (mkRequest model_name "You are a helpful assistant. Respond concisely."
                          prompt "0.1" 4096) ;;
  _ <- (if (status_code resp =? 200)%Z then Returns tt
        else Raises (RuntimeError ("Perplexity API HTTP " ++ int_repr (status_code resp)
                                   ++ ": " ++ text resp))) ;;
  data <- body resp ;;
  choices <- py_get data "choices" JNull ;;
  let choices := or_else choices (JList []) in
  _ <- (if truthy choices then Returns tt
        else Raises (RuntimeError "Perplexity API returned no choices")) ;;
  first <- subscript0 choices ;;
  message <- py_get first "message" JNull ;;
  let message := or_else message (JDict []) in
  content <- py_get message "content" JNull ;;
  Returns (or_else content (JStr EmptyString)).

Definition query_perplexity_model (post : ChatRequest -> outcome Response)
    (prompt : string) (api_key : option string) (model_name : string)
    (workflow_id : option Z) : M (option json * option string) :=
  try_except
    (content <~ lift (request_content post prompt api_key model_name) ;;
     ret (Some content, None))
    (fun e =>
       let error_message := "Perplexity API error: " ++ exn_str e in
       (if workflow_truthy workflow_id
        then log_error (match workflow_id with Some z => z | None => 0%Z end)
                       "API_Error" error_message
        else ret tt) ;;;
       ret (None, Some error_message)).

End Main.


(** ** Notions the statements use *)

(** [needle] occurs in [hay]. *)
Definition occurs_in (needle hay : string) : Prop :=
  exists before after, hay = before ++ needle ++ after.

(** What the [try] block of the invoker comes to in a world: it depends on
    the provider only. *)
Definition reply (w : World) (prompt model_name : string) : outcome string :=
  bind (provider w (chat_request prompt model_name)) first_content.

(** The orchestrator accepts the reply of a model: an answer, not empty,
    that passes the validation. *)
Definition accepted {L : Interpreter} (w : World) (prompt model_name : string) : bool :=
  match reply w prompt model_name with
  | Returns answer => (negb (is_empty answer) && _validate_json_response answer)%bool
  | Raises _ => false
  end.

Definition returned {A : Type} (r : outcome A) : bool :=
  match r with Returns _ => true | Raises _ => false end.


(** The error string the invoker returns for a model whose request fails. *)
Definition invoker_error (w : World) (prompt model_name : string) : string :=
  match reply w prompt model_name with
  | Raises e => "Perplexity API error with model " ++ model_name ++ ": " ++ exn_str e
  | Returns _ => EmptyString
  end.

(** The models asked for by the requests a call made: those of [after]
    that come after the requests of [before]. *)
Definition models_requested (before after : World) : list string :=
  map req_model (skipn (length (requests before)) (requests after)).

(** The entry of [attempts] the loop records for a model. *)
Definition attempt_of (w : World) (prompt model_name : string) : Attempt :=
  match reply w prompt model_name with
  | Returns _ => mkAttempt model_name true None
  | Raises _ => mkAttempt model_name false (Some (invoker_error w prompt model_name))
  end.

(** [last_error] after the loop went through [models] without accepting
    one: only a reply in the wrong format sets it. *)
Fixpoint last_error_after (w : World) (prompt : string) (models : list string)
    (last_error : option string) : option string :=
  match models with
  | [] => last_error
  | m :: models' =>
      last_error_after w prompt models'
        (match reply w prompt m with
         | Returns a =>
             if is_empty a then last_error
             else Some ("Model " ++ m ++ " returned invalid JSON format")
         | Raises _ => last_error
         end)
  end.

(** [l] is [l'] with some of its elements left out, the order kept. *)
Inductive Subsequence {A : Type} : list A -> list A -> Prop :=
| Subsequence_nil : Subsequence [] []
| Subsequence_skip (x : A) (l l' : list A) :
    Subsequence l l' -> Subsequence l (x :: l')
| Subsequence_keep (x : A) (l l' : list A) :
    Subsequence l l' -> Subsequence (x :: l) (x :: l').

Fixpoint contains_str (needle hay : string) : bool :=
  (startswith hay needle
   || match hay with
      | EmptyString => false
      | String _ hay' => contains_str needle hay'
      end)%bool.

Fixpoint all_chars (p : ascii -> bool) (s : string) : bool :=
  match s with
  | EmptyString => true
  | String c s' => (p c && all_chars p s')%bool
  end.

(** A text [repr] writes between its quotes as it is: printable ASCII
    without a backslash, and not both kinds of quote. *)
Definition repr_verbatim (s : string) : bool :=
  (all_chars (fun c => (32 <=? code c)%N && (code c <? 127)%N
                       && negb (c =? backslash)%char) s
   && negb (contains_char "'" s && contains_char dquote s))%bool.

(** ** Interpreters, worlds and services of the examples *)

(** An interpreter with the default limits of CPython: room for 993 nested
    lists and dicts, 4300 digits.  Of the Unicode database it knows the
    Latin-1 controls, the no-break space, the soft hyphen, the spaces and
    separators of the general punctuation, the ideographic space and the
    surrogates as not printable. *)
Definition default_interpreter : Interpreter :=
  mkInterpreter 990 4300
    (fun cp => negb ((cp <=? 160) || (cp =? 173) || (cp =? 5760)
                     || ((8192 <=? cp) && (cp <=? 8207))
                     || ((8232 <=? cp) && (cp <=? 8239))
                     || ((8287 <=? cp) && (cp <=? 8303))
                     || (cp =? 12288)
                     || ((55296 <=? cp) && (cp <=? 57343))
                     || (cp =? 65279))%N).

(** [n] times the text [s]. *)
Fixpoint repeat_text (n : nat) (s : string) : string :=
  match n with
  | O => EmptyString
  | S n' => s ++ repeat_text n' s
  end.

(** A world whose provider behaves as [f] tells for each model; nothing was
    requested or logged yet, and the table of errors is empty. *)
Definition world_of (f : string -> outcome (list (option string))) : World :=
  mkWorld (fun request => f (req_model request)) [] [] (Some []) (fun _ => Some 0%Z).

Definition refusing : World :=
  world_of (fun _ => Raises (ProviderError "connection refused")).

(** The primary model is down, every other model answers an empty object. *)
Definition primary_down : World :=
  world_of (fun m => if (m =? "sonar-large-chat")%string
                     then Raises (ProviderError "connection refused")
                     else Returns [Some "{}"]).



(** An error text with both kinds of quote. *)
Definition quoting_error : string :=
  "can't reach " ++ String dquote ("api.perplexity.ai" ++ str1 dquote).

(** Every request fails with that text. *)
Definition quoting : World := world_of (fun _ => Raises (ProviderError quoting_error)).

Definition default_service : LLMService := mkService "pplx-key" "sonar-large-chat".

(** ** Notions for the decoder and the encoder *)

(** The text is empty or its first character is not a [p]. *)
Definition head_not (p : ascii -> bool) (s : string) : bool :=
  match s with
  | String c _ => negb (p c)
  | EmptyString => true
  end.

(** A character that may continue a number. *)
Definition continues_number (c : ascii) : bool :=
  (is_digit c || (c =? ".")%char || (c =? "e")%char || (c =? "E")%char)%bool.

(** What follows the first item of a list, and of a dict, in [json_dumps]. *)
Fixpoint dumps_items (l : list json) : string :=
  match l with
  | [] => "]"
  | y :: l' => ", " ++ json_dumps y ++ dumps_items l'
  end.

Fixpoint dumps_members (d : dict) : string :=
  match d with
  | [] => "}"
  | (k, y) :: d' => ", " ++ encode_str k ++ ": " ++ json_dumps y ++ dumps_members d'
  end.

(** The first character of the text of a value is no white space, no
    closing bracket and does not start a byte order mark; that of a number is
    no quote and no opening bracket or brace either. *)
Definition value_head (c : ascii) : bool :=
  (negb (c =? "]")%char && negb (is_json_ws c) && negb (c =? "239")%char)%bool.

Definition scalar_head (c : ascii) : bool :=
  (negb (c =? dquote)%char && negb (c =? "{")%char && negb (c =? "[")%char
   && value_head c)%bool.

(** A float's literal scans back to the float, whatever follows it that
    does not continue a number. *)
Definition float_lexeme (lexeme : string) : Prop :=
  (exists c t, lexeme = String c t /\ scalar_head c = true)
  /\ forall rest, head_not continues_number rest = true ->
                  scan_constant (lexeme ++ rest) = Some (JFloat lexeme, rest).

(** The values [json.loads] builds: a float is a literal of the grammar and
    the keys of a dict are distinct. *)
#[local] Unset Elimination Schemes.
Inductive wf : json -> Prop :=
| wf_null : wf JNull
| wf_bool (b : bool) : wf (JBool b)
| wf_int (z : Z) : wf (JInt z)
| wf_float (lexeme : string) : float_lexeme lexeme -> wf (JFloat lexeme)
| wf_str (s : string) : wf (JStr s)
| wf_list (l : list json) : Forall wf l -> wf (JList l)
| wf_dict (d : dict) :
    NoDup (map fst d) -> Forall (fun kv => wf (snd kv)) d -> wf (JDict d).
#[local] Set Elimination Schemes.

Definition wf_fix (f : SuggestedFix) : Prop :=
  wf (fix_ f) /\ wf (priority f) /\ wf (impact f).

Definition wf_result (r : NormalizedResult) : Prop :=
  Forall wf (transformation_rules r) /\ Forall wf_fix (suggested_fixes r).

(** The result of a scan is [a] with [rest] left, if the fuel sufficed. *)
Definition scans_to {A : Type} (r : scan A) (a : A) (rest : string) : Prop :=
  r = OutOfFuel \/ r = Scanned a rest.

(** A scan of [s] did not run out of fuel and, when it succeeded, read
    something. *)
Definition progresses {A : Type} (r : scan A) (s : string) : Prop :=
  r <> OutOfFuel
  /\ forall a rest, r = Scanned a rest -> String.length rest < String.length s.

(** Induction on a value, with the items of a list and the values of a dict
    as smaller values. *)
Section json_induction.
Variable P : json -> Prop.
Hypothesis HNull : P JNull.
Hypothesis HBool : forall b, P (JBool b).
Hypothesis HInt : forall z, P (JInt z).
Hypothesis HFloat : forall lexeme, P (JFloat lexeme).
Hypothesis HStr : forall s, P (JStr s).
Hypothesis HList : forall l, Forall P l -> P (JList l).
Hypothesis HDict : forall d, Forall (fun kv => P (snd kv)) d -> P (JDict d).

Fixpoint json_induction (v : json) : P v :=
  match v with
  | JNull => HNull
  | JBool b => HBool b
  | JInt z => HInt z
  | JFloat lexeme => HFloat lexeme
  | JStr s => HStr s
  | JList l =>
      HList l ((fix items (l : list json) : Forall P l :=
                  match l with
                  | [] => Forall_nil P
                  | x :: l' => Forall_cons x (json_induction x) (items l')
                  end) l)
  | JDict d =>
      HDict d ((fix members (d : dict) : Forall (fun kv => P (snd kv)) d :=
                  match d with
                  | [] => Forall_nil _
                  | (k, x) :: d' =>
                      Forall_cons (k, x) (json_induction x) (members d')
                  end) d)
  end.
End json_induction.

(** The decoder can build the value with [depth] lists and dicts still to
    enter: it is nested no deeper, and its integers are within the limit
    of the interpreter. *)
#[local] Unset Elimination Schemes.
Inductive within {L : Interpreter} : nat -> json -> Prop :=
| within_null (depth : nat) : within depth JNull
| within_bool (depth : nat) (b : bool) : within depth (JBool b)
| within_int (depth : nat) (z : Z) :
    exceeds_int_limit (JInt z) = false -> within depth (JInt z)
| within_float (depth : nat) (lexeme : string) : within depth (JFloat lexeme)
| within_str (depth : nat) (s : string) : within depth (JStr s)
| within_list (depth : nat) (l : list json) :
    Forall (within depth) l -> within (S depth) (JList l)
| within_dict (depth : nat) (d : dict) :
    Forall (fun kv => within depth (snd kv)) d -> within (S depth) (JDict d).
#[local] Set Elimination Schemes.

(** The rules of a result were items of a list inside the object of a
    reply, the values of a fix the values of a dict inside a list inside
    it. *)
Definition within_result {L : Interpreter} (r : NormalizedResult) : Prop :=
  Forall (within (1 + spare_depth)) (transformation_rules r)
  /\ Forall (fun f => within spare_depth (fix_ f) /\ within spare_depth (priority f)
                      /\ within spare_depth (impact f))
            (suggested_fixes r).

(** The text of [v] scans back to [v], with [depth] lists and dicts still
    to enter. *)
Definition roundtrips {L : Interpreter} (depth : nat) (v : json) : Prop :=
  (exists c t, json_dumps v = String c t /\ value_head c = true)
  /\ forall fuel rest,
       head_not continues_number rest = true ->
       scans_to (scan_once fuel depth (json_dumps v ++ rest)) v rest.

(** ** Texts of the examples *)

(** [s] between double quotes. *)
Definition quoted (s : string) : string := String dquote (s ++ str1 dquote).

(** The reply of the scenario of the spec: an object whose
    [transformation_rules] is the string [fix X], whose [error_analysis] is
    the empty string and whose [suggested_fixes] is the empty list, with no
    space in it. *)
Definition scenario_reply : string :=
  "{" ++ quoted "transformation_rules" ++ ":" ++ quoted "fix X" ++ ","
  ++ quoted "error_analysis" ++ ":" ++ quoted "" ++ ","
  ++ quoted "suggested_fixes" ++ ":[]}".

(** An object whose [suggested_fixes] holds one number. *)
Definition number_fix_reply : string :=
  "{" ++ quoted "suggested_fixes" ++ ":[1]}".

Definition isinstance_dict (v : json) : bool :=
  match v with JDict _ => true | _ => false end.

(** ** Notions for the whole run of the orchestrator *)

(** The rows the error sink receives for the attempts of a call made under
    the workflow identifier [z]: one for each attempt that holds an error. *)
Definition sink_rows (z : Z) (attempts : list Attempt) : list (Z * string * string) :=
  flat_map (fun a => match error a with
                     | Some e => [(z, "API_Error", e)]
                     | None => []
                     end) attempts.

(** What [if workflow_id:] lets through to the sink. *)
Definition forwarded_rows (workflow_id : option Z) (attempts : list Attempt)
  : list (Z * string * string) :=
  match workflow_id with
  | Some z => if (z =? 0)%Z then [] else sink_rows z attempts
  | None => []
  end.

(** The rows the table gains when [rows] are sent to the sink, the first of
    them by call [n] of [log_error]: those whose INSERT does not fail, each
    with the time of its own call. *)
Fixpoint stored_rows (inserts : nat -> option Z) (n : nat)
    (rows : list (Z * string * string)) : list ErrorRecord :=
  match rows with
  | [] => []
  | (z, t, m) :: rest =>
      (match inserts n with
       | Some time => [mkError z t m time]
       | None => []
       end ++ stored_rows inserts (S n) rest)%list
  end.

(** Every model answers with blanks only. *)
Definition blank_replies : World := world_of (fun _ => Returns [Some "  "]).

(** The provider of [refusing], in an application that runs without a
    connection pool and made requests before. *)
Definition refusing_no_pool : World :=
  mkWorld (provider refusing) [chat_request "earlier" "sonar-large-chat"] [] None
          (fun _ => None).

(** ** Notions for the normaliser *)

(** What the loop over [suggested_fixes] keeps: a dict or a string. *)
Definition kept_fix (fix_ : json) : bool :=
  (isinstance_dict fix_ || isinstance_str fix_)%bool.

(** ** Notions for the cleaning of a reply *)

(** Every character of [s] is ASCII white space. *)
Fixpoint all_spaces (s : string) : bool :=
  match s with
  | String c s' => (is_space c && all_spaces s')%bool
  | EmptyString => true
  end.

(** An ASCII character that is not white space. *)
Definition solid (c : ascii) : bool := (negb (is_space c) && (code c <? 128)%N)%bool.

(** An ASCII character that is neither white space nor the backtick of a
    code fence. *)
Definition plain (c : ascii) : bool := (solid c && negb (c =? "`")%char)%bool.

Definition first_is (p : ascii -> bool) (s : string) : bool :=
  match s with
  | String c _ => p c
  | EmptyString => false
  end.

Definition last_is (p : ascii -> bool) (s : string) : bool := first_is p (reverse s).

(** [lstrip] has nothing to remove from [s]. *)
Definition lstripped (s : string) : bool :=
  match s with
  | String a s1 =>
      (negb (is_space a)
       && match s1 with
          | String b s2 =>
              (negb (mid_space a b)
               && match s2 with
                  | String c _ => negb (wide_space a b c)
                  | EmptyString => true
                  end)%bool
          | EmptyString => true
          end)%bool
  | EmptyString => true
  end.

(** The same for [lstrip_rev], on a reversed text. *)
Definition lstripped_rev (s : string) : bool :=
  match s with
  | String a s1 =>
      (negb (is_space a)
       && match s1 with
          | String b s2 =>
              (negb (mid_space b a)
               && match s2 with
                  | String c _ => negb (wide_space c b a)
                  | EmptyString => true
                  end)%bool
          | EmptyString => true
          end)%bool
  | EmptyString => true
  end.

(** ** Example endpoints, probes and environments *)

(** The endpoint answers 429 with a body. *)
Definition rate_limited (request : ChatRequest) : outcome Main.Response :=
  Returns (Main.mkResponse 429 "slow down" (Raises (ValueError "no json"))).

(** Every probe is answered by one choice without a content. *)
Definition no_content_probe (model_name : string) : outcome (list (option string)) :=
  Returns [None].

(** An environment with a key and the default model of the service. *)
Definition service_env (name : string) : option string :=
  if (name =? "PERPLEXITY_API_KEY")%string then Some "pplx-key"
  else if (name =? "PERPLEXITY_MODEL")%string then Some "sonar-large-chat"
  else None.

(** ** The health check of the service *)

(** [d[k] = v] for a dict with values of any type. *)
Fixpoint setitem {V : Type} (k : string) (v : V) (d : list (string * V))
  : list (string * V) :=
  match d with
  | [] => [(k, v)]
  | (k', v') :: d' =>
      if (k' =? k)%string then (k, v) :: d' else (k', v') :: setitem k v d'
  end.

(** [d[k]] *)
Fixpoint getitem {L : Interpreter} {V : Type} (k : string) (d : list (string * V))
  : outcome V :=
  match d with
  | [] => Raises (KeyError (repr_str k))
  | (k', v) :: d' => if (k' =? k)%string then Returns v else getitem k d'
  end.

(** [x == lit] for a JSON value and a string. *)
Definition eq_str (x : json) (lit : string) : bool :=
  match x with
  | JStr s => (s =? lit)%string
  | _ => false
  end.

Definition content_json (content : option string) : json :=
  match content with
  | Some s => JStr s
  | None => JNull
  end.

(** [choices[0]] *)
Definition first_choice (choices : list (option string)) : outcome (option string) :=
  match choices with
  | [] => Raises (IndexError "list index out of range")
  | content :: _ => Returns content
  end.

(** The body of the loop of [health_check] for one model.  [probe] is the
    client the method builds from the key of the service, asked for the
    test request (the user message [Say 'OK'], ten tokens at most): as
    [provider], it raises or answers with the content of each choice. *)
Definition probe_model (probe : string -> outcome (list (option string)))
    (model_name : string) : dict :=
  match (test_completion <- probe model_name ;; first_choice test_completion) with
  | Returns content => [("status", JStr "healthy"); ("response", content_json content)]
  | Raises e => [("status", JStr "unhealthy"); ("error", JStr (exn_str e))]
  end.

Fixpoint probe_loop (probe : string -> outcome (list (option string)))
    (models : list string) (results : list (string * dict)) : list (string * dict) :=
  match models with
  | [] => results
  | model_name :: rest =>
      probe_loop probe rest (setitem model_name (probe_model probe model_name) results)
  end.

(** The comprehension over [results.items()]. *)
Fixpoint healthy_of {L : Interpreter} (items : list (string * dict))
  : outcome (list string) :=
  match items with
  | [] => Returns []
  | (model, result) :: rest =>
      status <- getitem "status" result ;;
      healthy <- healthy_of rest ;;
      Returns (if eq_str status "healthy" then model :: healthy else healthy)
  end.

(** The dict [health_check] returns. *)
Record HealthReport : Type := mkReport {
  overall_status : string;
  available_models : list string;
  model_details : list (string * dict)
}.

Definition health_check {L : Interpreter}
    (probe : string -> outcome (list (option string))) : outcome HealthReport :=
  let results := probe_loop probe (firstn 2 MODEL_FALLBACK_CHAIN) [] in
  healthy_models <- healthy_of results ;;
  Returns (mkReport (match healthy_models with [] => "unhealthy" | _ => "healthy" end)
                    healthy_models results).

(** The probe answers: a choice, with or without a content. *)
Definition answers (r : outcome (list (option string))) : bool :=
  match r with
  | Returns (_ :: _) => true
  | _ => false
  end.

(** ** The application of [main.py] *)

Module App.

Definition PERPLEXITY_ALLOWED_MODELS : list string :=
  ["sonar"; "sonar-mini"; "sonar-small"; "sonar-medium"; "sonar-pro";
   "sonar-reasoning"; "sonar-reasoning-pro"].

(** [x in s] *)
Definition mem (x : string) (s : list string) : bool := existsb (String.eqb x) s.

Definition PERPLEXITY_MODEL (getenv : string -> option string) : string :=
  let _env_model :=
    match getenv "PERPLEXITY_MODEL" with
    | Some m => m
    | None => "sonar-pro"
    end in
  if mem _env_model PERPLEXITY_ALLOWED_MODELS then _env_model else "sonar-pro".

Definition PERPLEXITY_API_KEY (getenv : string -> option string) : option string :=
  getenv "PERPLEXITY_API_KEY".

(** What a route comes to: the response it returns, the [HTTPException] it
    raises, with the detail the exception carries, or an exception nothing
    in the route catches. *)
Inductive result (A : Type) : Type :=
| Respond (a : A)
| HTTPException (status_code : Z) (detail : string)
| Unhandled (e : exn).

Arguments Respond {A} a.
Arguments HTTPException {A} status_code detail.
Arguments Unhandled {A} e.

(** [http.HTTPStatus(status_code).phrase], for the statuses of the routes. *)
Definition phrase (status_code : Z) : string :=
  if (status_code =? 404)%Z then "Not Found"
  else if (status_code =? 503)%Z then "Service Unavailable"
  else "Internal Server Error".

(** [raise HTTPException(status_code=..., detail=...)]: the constructor
    puts the phrase of the status in the place of a detail that is [None]. *)
Definition raise_http {A : Type} (status_code : Z) (detail : option string) : result A :=
  HTTPException status_code
    (match detail with
     | Some text => text
     | None => phrase status_code
     end).

(** The body of a request to [/query]. *)
Record UserQuery : Type := mkUserQuery {
  workflow_id : Z;
  query_text : string
}.

(** A row of the logs query; a column may be null. *)
Record LogRow : Type := mkLogRow {
  log_id : Z;
  log_message : option string;
  error_type : option string;
  timestamp : Z
}.

(** The two queries of the route: the name of the workflow (no row, or a
    row whose name may be null) and its five latest log rows.  A query may
    fail. *)
Record Database : Type := mkDatabase {
  fetch_workflow : Z -> outcome (option (option string));
  fetch_logs : Z -> outcome (list LogRow)
}.

(** The dict the route returns; the last two keys are absent ([None],
    [false]) unless the route sets them. *)
Record QueryResponse : Type := mkQueryResponse {
  transformation_rules : json;
  error_analysis : json;
  suggested_fixes : json;
  logs : list LogRow;
  error_info : option string;
  has_error : bool
}.

Definition newline : string := String "010" EmptyString.

(** The messages of the rows, as [str.join] goes through them: an item
    that is not a string is a [TypeError]. *)
Fixpoint messages (i : nat) (logs : list LogRow) : outcome (list string) :=
  match logs with
  | [] => Returns []
  | log :: rest =>
      match log_message log with
      | Some message =>
          later <- messages (S i) rest ;;
          Returns (message :: later)
      | None =>
          Raises (TypeError ("sequence item " ++ nat_str i
                             ++ ": expected str instance, NoneType found"))
      end
  end.

Definition logs_text (logs : list LogRow) : outcome string :=
  match logs with
  | [] => Returns "No recent logs available."
  | _ => joined <- messages 0 logs ;; Returns (String.concat newline joined)
  end.

Definition prompt (workflow_name : option string) (logs_text query_text : string) : string :=
  "Workflow Name: " ++ str_optional workflow_name ++ newline
  ++ "Recent Logs:" ++ newline ++ logs_text ++ newline ++ newline
  ++ "User Query: " ++ query_text ++ newline ++ newline
  ++ "Analyze the user query based on the provided logs. "
  ++ "IMPORTANT: You must respond ONLY with a raw JSON object. "
  ++ "Do not include json code blocks, introductory text, or any explanations. "
  ++ "Your entire response must start with a curly brace '{' and end with one '}'. "
  ++ "The JSON object must have these exact keys: 'transformation_rules', 'error_analysis', and 'suggested_fixes'.".

(** [json.loads(answer)] for an answer that need not be a string. *)
Definition loads {L : Interpreter} (answer : json) : outcome json :=
  match answer with
  | JStr s => json_loads s
  | _ => Raises (TypeError ("the JSON object must be str, bytes or bytearray, not "
                            ++ type_name answer))
  end.

(** [bool(answer)] for the content the invoker returns. *)
Definition answer_truthy (answer : option json) : bool :=
  match answer with
  | Some v => truthy v
  | None => false
  end.

(** The route after the call of the invoker. *)
Definition respond {L : Interpreter} (logs_list : list LogRow) (answer : option json)
    (error_info : option string) : result QueryResponse :=
  match answer with
  | Some content =>
      if truthy content
      then
        match (structured_response <- loads content ;;
               transformation_rules <-
                 py_get structured_response "transformation_rules" (JStr "No rules generated") ;;
               error_analysis <-
                 py_get structured_response "error_analysis" (JStr "No analysis available") ;;
               suggested_fixes <- py_get structured_response "suggested_fixes" (JList []) ;;
               Returns (mkQueryResponse transformation_rules error_analysis suggested_fixes
                                        logs_list None false)) with
        | Returns response =>
            Respond (if optional_truthy error_info
                     then mkQueryResponse (transformation_rules response)
                                          (error_analysis response)
                                          (suggested_fixes response)
                                          (logs response) error_info true
                     else response)
        | Raises (JSONDecodeError _) =>
            let response :=
              mkQueryResponse (JStr "No rules generated") (JStr "Parsing error") (JList [])
                              logs_list None false in
            Respond (if optional_truthy error_info
                     then mkQueryResponse (transformation_rules response)
                                          (error_analysis response)
                                          (suggested_fixes response)
                                          (logs response) error_info true
                     else response)
        | Raises e => Unhandled e
        end
      else raise_http 500 error_info
  | None => raise_http 500 error_info
  end.

(** The route [POST /query].  The pool is the one of the error handler:
    there is none when the world has no table. *)
Definition query_llm_with_workflow {L : Interpreter} (getenv : string -> option string)
    (post : ChatRequest -> outcome Main.Response) (db : Database)
    (user_query : UserQuery) : World -> result QueryResponse * World :=
  fun w =>
    match error_logs w with
    | None => (raise_http 503 (Some "Database not configured"), w)
    | Some _ =>
        match fetch_workflow db (workflow_id user_query) with
        | Raises e => (Unhandled e, w)
        | Returns None => (raise_http 404 (Some "Workflow not found"), w)
        | Returns (Some workflow_name) =>
            match (logs <- fetch_logs db (workflow_id user_query) ;;
                   logs_text <- logs_text logs ;;
                   Returns (logs, logs_text)) with
            | Raises e => (Unhandled e, w)
            | Returns (logs, logs_text) =>
                match Main.query_perplexity_model post
                        (prompt workflow_name logs_text (query_text user_query))
                        (PERPLEXITY_API_KEY getenv) (PERPLEXITY_MODEL getenv)
                        (Some (workflow_id user_query)) w with
                | (Returns (answer, error_info), w') => (respond logs answer error_info, w')
                | (Raises e, w') => (Unhandled e, w')
                end
            end
        end
    end.

End App.

(** ** Example databases and endpoints for the routes *)

(** One workflow, with two log rows. *)
Definition one_workflow : App.Database :=
  App.mkDatabase
    (fun z => Returns (if (z =? 7)%Z then Some (Some "nightly-import") else None))
    (fun _ => Returns [App.mkLogRow 2 (Some "timeout") (Some "API_Error") 20;
                       App.mkLogRow 1 (Some "bad row") (Some "Data_Error") 10]).

(** The endpoint answers 200 with one choice whose content is [content]. *)
Definition replying (content : json) (request : ChatRequest) : outcome Main.Response :=
  Returns (Main.mkResponse 200 "body"
             (Returns (JDict [("choices",
                               JList [JDict [("message",
                                              JDict [("content", content)])]])]))).

(** The workflow of [one_workflow], with a log row that has no message. *)
Definition null_message : App.Database :=
  App.mkDatabase
    (fun z => Returns (Some (Some "nightly-import")))
    (fun _ => Returns [App.mkLogRow 2 (Some "timeout") (Some "API_Error") 20;
                       App.mkLogRow 1 None (Some "Data_Error") 10]).

(** * Properties

    They hold for every interpreter. *)

Section Properties.
Context {L : Interpreter}.

(** ** Strings *)

Lemma append_nil_r (s : string) : s ++ EmptyString = s.
Proof. induction s; simpl; congruence. Qed.

Lemma append_assoc (a b c : string) : (a ++ b) ++ c = a ++ (b ++ c).
Proof. induction a; simpl; congruence. Qed.

Lemma occurs_in_app_l (n a b : string) : occurs_in n a -> occurs_in n (a ++ b).
Proof.
  intros (x & y & ->). exists x, (y ++ b). now rewrite !append_assoc.
Qed.

Lemma occurs_in_app_r (n a b : string) : occurs_in n b -> occurs_in n (a ++ b).
Proof.
  intros (x & y & ->). exists (a ++ x), y. now rewrite !append_assoc.
Qed.

(** ** The model invoker *)

Lemma invoker_step (self : LLMService) (prompt m : string) (wid : option Z) (w : World) :
  exists w',
    query_perplexity_model self prompt m wid w
    = (Returns (match reply w prompt m with
                | Returns a => (Some a, None, m)
                | Raises _ => (None, Some (invoker_error w prompt m), m)
                end), w')
    /\ provider w' = provider w
    /\ requests w' = (requests w ++ [chat_request prompt m])%list
    /\ inserts w' = inserts w
    /\ logged w' =
         match reply w prompt m, wid with
         | Raises _, Some z =>
             if (z =? 0)%Z then logged w
             else (logged w ++ [(z, "API_Error", invoker_error w prompt m)])%list
         | _, _ => logged w
         end
    /\ error_logs w' =
         match reply w prompt m, wid, error_logs w with
         | Raises _, Some z, Some rows =>
             if (z =? 0)%Z then Some rows
             else
               match inserts w (length (logged w)) with
               | Some time =>
                   Some (rows ++ [mkError z "API_Error" (invoker_error w prompt m) time])%list
               | None => Some rows
               end
         | _, _, _ => error_logs w
         end.
Proof.
  unfold query_perplexity_model, try_except, request_model, bindM,
    chat_completions_create, lift, ret, invoker_error, reply, bind.
  cbn [provider requests logged error_logs inserts].
  destruct (provider w (chat_request prompt m)) as [choices|e]; cbn;
    [destruct (first_content choices) as [a|e]; cbn|];
    (destruct wid as [z|]; cbn; [destruct (z =? 0)%Z; cbn|]);
    eexists; (repeat split); cbn; try reflexivity;
    destruct (error_logs w); try reflexivity;
    destruct (inserts w (length (logged w))); reflexivity.
Qed.

Lemma reply_provider (w w' : World) (prompt m : string) :
  provider w' = provider w -> reply w' prompt m = reply w prompt m.
Proof. unfold reply. now intros ->. Qed.

Lemma accepted_provider (w w' : World) (prompt m : string) :
  provider w' = provider w -> accepted w' prompt m = accepted w prompt m.
Proof. intros H. unfold accepted. now rewrite (reply_provider _ _ _ _ H). Qed.

Lemma invoker_error_provider (w w' : World) (prompt m : string) :
  provider w' = provider w -> invoker_error w' prompt m = invoker_error w prompt m.
Proof. intros H. unfold invoker_error. now rewrite (reply_provider _ _ _ _ H). Qed.

Lemma attempt_of_provider (w w' : World) (prompt m : string) :
  provider w' = provider w -> attempt_of w' prompt m = attempt_of w prompt m.
Proof.
  intros H. unfold attempt_of.
  now rewrite (reply_provider _ _ _ _ H), (invoker_error_provider _ _ _ _ H).
Qed.

Lemma last_error_after_provider (w w' : World) (prompt : string) (ms : list string) :
  provider w' = provider w ->
  forall last, last_error_after w' prompt ms last = last_error_after w prompt ms last.
Proof.
  intros H. induction ms as [|m ms IH]; intros last; cbn; [reflexivity|].
  now rewrite (reply_provider _ _ _ _ H), IH.
Qed.

(** The invoker catches whatever its request raises: it always returns. *)
Lemma query_perplexity_model_returns
    (self : LLMService) (prompt m : string) (wid : option Z) (w : World) :
  exists answer err w',
    query_perplexity_model self prompt m wid w = (Returns (answer, err, m), w').
Proof.
  destruct (invoker_step self prompt m wid w) as (w' & E & _).
  rewrite E. destruct (reply w prompt m); eauto.
Qed.

(** ** The fallback loop *)

Lemma fallback_loop_cons (self : LLMService) (prompt : string) (wid : option Z)
    (m : string) (rest : list string) (attempts : list Attempt)
    (last : option string) (w : World) :
  fallback_loop self prompt wid (m :: rest) attempts last w =
  match query_perplexity_model self prompt m wid w with
  | (Returns (answer, error, used_model), w') =>
      let attempts :=
        (attempts ++ [mkAttempt used_model (is_not_none answer) error])%list in
      if (optional_truthy answer && answer_valid answer)%bool
      then (Returns (answer, None, Some used_model, attempts), w')
      else if optional_truthy answer
      then fallback_loop self prompt wid rest attempts
             (Some ("Model " ++ used_model ++ " returned invalid JSON format")) w'
      else fallback_loop self prompt wid rest attempts last w'
  | (Raises e, w') =>
      fallback_loop self prompt wid rest
        (attempts ++ [mkAttempt m false (Some (exn_str e))])%list
        (Some (exn_str e)) w'
  end.
Proof. reflexivity. Qed.

(** One turn of the loop on a model whose reply is not accepted. *)
Lemma fallback_loop_next (self : LLMService) (prompt : string) (wid : option Z)
    (m : string) (rest : list string) (attempts : list Attempt)
    (last : option string) (w : World) :
  accepted w prompt m = false ->
  exists w',
    fallback_loop self prompt wid (m :: rest) attempts last w
    = fallback_loop self prompt wid rest
        (attempts ++ [attempt_of w prompt m])%list
        (last_error_after w prompt [m] last) w'
    /\ provider w' = provider w
    /\ requests w' = (requests w ++ [chat_request prompt m])%list.
Proof.
  intros Hacc.
  destruct (invoker_step self prompt m wid w) as (w' & E & Hp & Hr & _).
  exists w'. split; [|now split].
  rewrite fallback_loop_cons, E.
  unfold accepted in Hacc. unfold attempt_of. cbn [last_error_after].
  destruct (reply w prompt m) as [a|e]; cbn.
  - rewrite Hacc. destruct (is_empty a); reflexivity.
  - reflexivity.
Qed.

(** The loop goes through a run of models none of which is accepted. *)
Lemma fallback_loop_skips (self : LLMService) (prompt : string) (wid : option Z)
    (rest : list string) :
  forall (pre : list string) (attempts : list Attempt) (last : option string) (w : World),
    (forall m, In m pre -> accepted w prompt m = false) ->
    exists w',
      fallback_loop self prompt wid (pre ++ rest)%list attempts last w
      = fallback_loop self prompt wid rest
          (attempts ++ map (attempt_of w prompt) pre)%list
          (last_error_after w prompt pre last) w'
      /\ provider w' = provider w
      /\ requests w' = (requests w ++ map (chat_request prompt) pre)%list.
Proof.
  induction pre as [|m pre IH]; intros attempts last w Hpre.
  - exists w. cbn. now rewrite !List.app_nil_r.
  - destruct (fallback_loop_next self prompt wid m (pre ++ rest)%list attempts last w)
      as (w1 & E1 & Hp1 & Hr1); [apply Hpre; now left|].
    destruct (IH (attempts ++ [attempt_of w prompt m])%list
                 (last_error_after w prompt [m] last) w1)
      as (w2 & E2 & Hp2 & Hr2).
    { intros m' Hm'. rewrite (accepted_provider _ _ _ _ Hp1). apply Hpre. now right. }
    exists w2. split; [|split].
    + cbn [app]. rewrite E1, E2. cbn [map last_error_after].
      rewrite <- List.app_assoc. cbn [app].
      rewrite (last_error_after_provider _ _ _ _ Hp1).
      f_equal. f_equal. f_equal.
      apply map_ext. intros x. now apply attempt_of_provider.
    + congruence.
    + rewrite Hr2, Hr1. cbn [map]. now rewrite <- List.app_assoc.
Qed.

(** The loop always comes to a result: it took some first models of the
    chain, each asked once, and recorded one attempt for each. *)
Lemma fallback_loop_result (self : LLMService) (prompt : string) (wid : option Z) :
  forall (chain : list string) (attempts : list Attempt) (last : option string) (w : World),
  exists k answer err used w',
    fallback_loop self prompt wid chain attempts last w
    = (Returns (answer, err, used,
                (attempts ++ map (attempt_of w prompt) (firstn k chain))%list), w')
    /\ provider w' = provider w
    /\ requests w' = (requests w ++ map (chat_request prompt) (firstn k chain))%list
    /\ (chain <> [] -> 0 < k).
Proof.
  induction chain as [|m chain IH]; intros attempts last w.
  - exists 0. cbn. do 4 eexists. rewrite !List.app_nil_r.
    repeat split; try reflexivity. congruence.
  - destruct (accepted w prompt m) eqn:Hacc.
    + destruct (invoker_step self prompt m wid w) as (w' & E & Hp & Hr & _).
      exists 1. rewrite fallback_loop_cons, E. cbn [firstn map].
      unfold accepted in Hacc. unfold attempt_of.
      destruct (reply w prompt m) as [a|e]; [|discriminate].
      cbn. rewrite Hacc. exists (Some a), None, (Some m), w'.
      repeat split; auto; lia.
    + destruct (fallback_loop_next self prompt wid m chain attempts last w Hacc)
        as (w1 & E1 & Hp1 & Hr1).
      destruct (IH (attempts ++ [attempt_of w prompt m])%list
                   (last_error_after w prompt [m] last) w1)
        as (k & answer & err & used & w2 & E2 & Hp2 & Hr2 & _).
      exists (S k), answer, err, used, w2. rewrite E1, E2. cbn [firstn map].
      rewrite <- List.app_assoc. cbn [app].
      repeat split.
      * do 4 f_equal. f_equal. apply map_ext. intros x. now apply attempt_of_provider.
      * congruence.
      * rewrite Hr2, Hr1, <- List.app_assoc. reflexivity.
      * lia.
Qed.

Lemma skipn_length_app {A : Type} (l l' : list A) : skipn (length l) (l ++ l')%list = l'.
Proof. induction l; cbn; auto. Qed.

Lemma req_model_chat_request (prompt : string) (l : list string) :
  map req_model (map (chat_request prompt) l) = l.
Proof. induction l; cbn; congruence. Qed.

Lemma models_requested_app (prompt : string) (w w' : World) (l : list string) :
  requests w' = (requests w ++ map (chat_request prompt) l)%list ->
  models_requested w w' = l.
Proof.
  intros H. unfold models_requested.
  now rewrite H, skipn_length_app, req_model_chat_request.
Qed.

(** ** The model chain *)

Lemma MODEL_FALLBACK_CHAIN_NoDup : NoDup MODEL_FALLBACK_CHAIN.
Proof.
  unfold MODEL_FALLBACK_CHAIN.
  repeat constructor; cbn; intuition discriminate.
Qed.

Lemma filter_Subsequence {A : Type} (f : A -> bool) (l : list A) :
  Subsequence (filter f l) l.
Proof.
  induction l as [|x l IH]; cbn; [constructor|].
  destruct (f x); now constructor.
Qed.

Lemma model_chain_NoDup (self : LLMService) : NoDup (model_chain self).
Proof.
  unfold model_chain. constructor.
  - rewrite filter_In. intros [_ H]. now rewrite String.eqb_refl in H.
  - apply NoDup_filter, MODEL_FALLBACK_CHAIN_NoDup.
Qed.

Lemma NoDup_later_not_earlier {A : Type} (pre : list A) (x : A) (post : list A) :
  NoDup (pre ++ x :: post)%list ->
  forall y, In y post -> ~ In y (pre ++ [x])%list.
Proof.
  intros H y Hy Hin.
  apply NoDup_remove in H as [H Hx].
  apply in_app_or in Hin as [Hin|[->|[]]].
  - clear Hx. induction pre as [|p pre IH]; [easy|].
    cbn in H. inversion H as [|? ? Hp H']; subst.
    destruct Hin as [->|Hin]; [|now apply IH].
    apply Hp, in_or_app. now right.
  - apply Hx, in_or_app. now right.
Qed.

(** C4: the chain is the primary model followed by the catalog without the
    primary model, in the order of the catalog; no model occurs twice in it,
    every model of the catalog is in it; for the primary model
    [sonar-large-chat] it is the catalog itself. *)
Theorem model_chain_primary_then_catalog (self : LLMService) :
  model_chain self
  = primary_model self
    :: filter (fun m => negb (m =? primary_model self)%string) MODEL_FALLBACK_CHAIN
  /\ tl (model_chain self) = remove string_dec (primary_model self) MODEL_FALLBACK_CHAIN
  /\ Subsequence (tl (model_chain self)) MODEL_FALLBACK_CHAIN
  /\ ~ In (primary_model self) (tl (model_chain self))
  /\ NoDup (model_chain self)
  /\ (forall m, In m MODEL_FALLBACK_CHAIN -> In m (model_chain self))
  /\ model_chain (mkService (api_key self) "sonar-large-chat")
     = ["sonar-large-chat"; "sonar-large-online"; "llama-3.1-70b-versatile";
        "sonar-small-online"].
Proof.
  split; [reflexivity|]. split; [|split; [|split; [|split; [|split]]]].
  - unfold model_chain. cbn [tl].
    induction MODEL_FALLBACK_CHAIN as [|x l IH]; cbn; [reflexivity|].
    destruct (string_dec (primary_model self) x) as [<-|Hne].
    + now rewrite String.eqb_refl.
    + destruct (String.eqb_spec x (primary_model self)); [congruence|].
      cbn. now rewrite IH.
  - apply filter_Subsequence.
  - cbn [model_chain tl]. rewrite filter_In. intros [_ H].
    now rewrite String.eqb_refl in H.
  - apply model_chain_NoDup.
  - intros m Hm. unfold model_chain.
    destruct (String.eqb_spec m (primary_model self)) as [->|Hne]; [now left|].
    right. apply filter_In. split; [assumption|].
    now apply Bool.negb_true_iff, String.eqb_neq.
  - reflexivity.
Qed.

(** ** The orchestrator *)

Lemma map_model_attempt_of (w : World) (prompt : string) (l : list string) :
  map model (map (attempt_of w prompt) l) = l.
Proof.
  induction l as [|p l IH]; cbn; [reflexivity|].
  rewrite IH. f_equal. unfold attempt_of. now destruct (reply w prompt p).
Qed.


(** C1: when model [m], the k-th of the chain, is the first whose reply is
    an answer, not empty, that passes the validation, the call returns that
    answer with no error and [m] as the model used; it recorded k attempts,
    for the first k models in the order of the chain; it asked the provider
    for those k models and for none of the models after [m]. *)
Theorem first_valid_reply_wins
    (self : LLMService) (prompt : string) (wid : option Z) (w : World)
    (pre : list string) (m : string) (post : list string) (a : string) :
  model_chain self = (pre ++ m :: post)%list ->
  (forall m', In m' pre -> accepted w prompt m' = false) ->
  reply w prompt m = Returns a ->
  a <> EmptyString ->
  _validate_json_response a = true ->
  exists attempts w',
    query_with_fallback self prompt wid w
    = (Returns (Some a, None, Some m, attempts), w')
    /\ length attempts = S (length pre)
    /\ map model attempts = (pre ++ [m])%list
    /\ models_requested w w' = (pre ++ [m])%list
    /\ (forall m', In m' post -> ~ In m' (models_requested w w')).
Proof.
  intros Hchain Hpre Hreply Hne Hvalid.
  unfold query_with_fallback. rewrite Hchain.
  destruct (fallback_loop_skips self prompt wid (m :: post) pre [] None w Hpre)
    as (w1 & E1 & Hp1 & Hr1).
  destruct (invoker_step self prompt m wid w1) as (w2 & E2 & Hp2 & Hr2 & _).
  rewrite (reply_provider _ _ _ _ Hp1), Hreply in E2.
  assert (Hreq : requests w2
                 = (requests w ++ map (chat_request prompt) (pre ++ [m]))%list).
  { rewrite Hr2, Hr1, map_app, <- List.app_assoc. reflexivity. }
  exists (map (attempt_of w prompt) pre ++ [mkAttempt m true None])%list, w2.
  split; [|split; [|split; [|split]]].
  - rewrite E1, fallback_loop_cons, E2. cbn.
    rewrite Hvalid.
    destruct a; [congruence|]. reflexivity.
  - rewrite length_app, length_map. cbn. lia.
  - rewrite map_app, map_model_attempt_of. reflexivity.
  - now apply (models_requested_app prompt).
  - intros m' Hm'. rewrite (models_requested_app prompt w w2 _ Hreq).
    apply NoDup_later_not_earlier with (post := post); [|assumption].
    rewrite <- Hchain. apply model_chain_NoDup.
Qed.




(** *** The aggregated message *)

Lemma occurs_in_trans (a b c : string) :
  occurs_in a b -> occurs_in b c -> occurs_in a c.
Proof.
  intros (x & y & ->) (x' & y' & ->).
  exists (x' ++ x), (y ++ y'). now rewrite !append_assoc.
Qed.

Lemma strip_prefix_app (n rest : string) : strip_prefix n (n ++ rest) = Some rest.
Proof.
  induction n as [|c n IH]; cbn; [reflexivity|].
  now rewrite Ascii.eqb_refl.
Qed.

Lemma occurs_in_contains_str (n h : string) :
  occurs_in n h -> contains_str n h = true.
Proof.
  intros (x & y & ->).
  induction x as [|c x IH]; cbn [append].
  - destruct (n ++ y) eqn:E; cbn [contains_str]; unfold startswith;
      rewrite <- E, strip_prefix_app; reflexivity.
  - cbn [contains_str]. rewrite IH. apply Bool.orb_true_r.
Qed.

Lemma repr_chars_verbatim (quote : ascii) (s : string) :
  all_chars (fun c => (32 <=? code c)%N && (code c <? 127)%N
                      && negb (c =? backslash)%char) s = true ->
  contains_char quote s = false ->
  repr_chars quote s = s.
Proof.
  induction s as [|c s IH]; cbn [all_chars contains_char repr_chars]; [reflexivity|].
  intros Hall Hq.
  apply Bool.andb_true_iff in Hall as [Hc Hall].
  apply Bool.orb_false_iff in Hq as [Hcq Hq].
  rewrite (IH Hall Hq).
  apply Bool.andb_true_iff in Hc as [Hc Hb].
  apply Bool.andb_true_iff in Hc as [Hlo Hhi].
  apply Bool.negb_true_iff in Hb.
  apply N.leb_le in Hlo. apply N.ltb_lt in Hhi.
  assert ((code c <? 128)%N = true) as -> by (apply N.ltb_lt; lia).
  unfold repr_char. rewrite Hcq, Hb. cbn [orb].
  destruct (Ascii.eqb_spec c "009"); [subst; cbn in Hlo; lia|].
  destruct (Ascii.eqb_spec c "010"); [subst; cbn in Hlo; lia|].
  destruct (Ascii.eqb_spec c "013"); [subst; cbn in Hlo; lia|].
  destruct (N.ltb_spec (code c) 32); [lia|].
  destruct (N.eqb_spec (code c) 127); [lia|].
  reflexivity.
Qed.

Lemma repr_str_verbatim (s : string) :
  repr_verbatim s = true ->
  repr_str s = String (repr_quote s) (s ++ str1 (repr_quote s)).
Proof.
  unfold repr_verbatim, repr_str. intros H.
  apply Bool.andb_true_iff in H as [Hall Hq].
  rewrite repr_chars_verbatim; [reflexivity|assumption|].
  unfold repr_quote.
  destruct (contains_char "'" s) eqn:E1, (contains_char dquote s) eqn:E2;
    cbn in Hq |- *; congruence.
Qed.

Lemma occurs_in_repr_str (s : string) :
  repr_verbatim s = true -> occurs_in s (repr_str s).
Proof.
  intros H. rewrite (repr_str_verbatim s H).
  now exists (str1 (repr_quote s)), (str1 (repr_quote s)).
Qed.

Lemma occurs_in_repr_attempt_model (a : Attempt) :
  occurs_in (repr_str (model a)) (repr_attempt a).
Proof.
  exists "{'model': ",
    (", 'success': " ++ repr_bool (success a) ++ ", 'error': "
     ++ repr_optional (error a) ++ "}").
  reflexivity.
Qed.

Lemma occurs_in_repr_attempt_error (a : Attempt) :
  occurs_in (repr_optional (error a)) (repr_attempt a).
Proof.
  exists ("{'model': " ++ repr_str (model a) ++ ", 'success': "
          ++ repr_bool (success a) ++ ", 'error': "), "}".
  unfold repr_attempt. now rewrite !append_assoc.
Qed.

Lemma occurs_in_repr_more (a : Attempt) (l : list Attempt) :
  In a l -> occurs_in (repr_attempt a) (repr_more l).
Proof.
  induction l as [|b l IH]; intros [].
  - subst. exists ", ", (repr_more l). reflexivity.
  - cbn [repr_more]. apply (occurs_in_app_r _ ", ").
    apply occurs_in_app_r. now apply IH.
Qed.

Lemma occurs_in_repr_attempts (a : Attempt) (l : list Attempt) :
  In a l -> occurs_in (repr_attempt a) (repr_attempts l).
Proof.
  destruct l as [|b l]; intros [].
  - subst. exists "[", (repr_more l). reflexivity.
  - cbn [repr_attempts]. apply (occurs_in_app_r _ "[").
    apply occurs_in_app_r. now apply occurs_in_repr_more.
Qed.

Lemma last_error_after_failures (w : World) (prompt : string) (l : list string)
    (last : option string) :
  (forall m, In m l -> returned (reply w prompt m) = false) ->
  last_error_after w prompt l last = last.
Proof.
  revert last. induction l as [|m l IH]; intros last H; cbn; [reflexivity|].
  rewrite IH by (intros; apply H; now right).
  specialize (H m (or_introl eq_refl)).
  now destruct (reply w prompt m).
Qed.

Lemma model_chain_verbatim (self : LLMService) (m : string) :
  repr_verbatim (primary_model self) = true ->
  In m (model_chain self) -> repr_verbatim m = true.
Proof.
  intros Hprimary [<-|Hm]; [exact Hprimary|].
  apply filter_In in Hm as [Hm _].
  destruct Hm as [<-|[<-|[<-|[<-|[]]]]]; reflexivity.
Qed.

(** C2, what the code does: when the request of every model of the chain
    fails, the call returns no answer and no model, one failed attempt per
    model in the order of the chain, each with the invoker's error, and the
    message made of [repr(attempts)] and of [Last error: None]: the loop
    sets its last error for a reply in the wrong format only, never from
    the error the invoker returns, so the message names no last error
    although every attempt holds one.  The trail has every model's name
    when [repr] writes the primary model's name as it is (it does so for
    the names of the catalog), and an attempt's error, that of the last
    attempt too, when [repr] writes the error as it is. *)
Theorem all_models_fail
    (self : LLMService) (prompt : string) (wid : option Z) (w : World) :
  (forall m, In m (model_chain self) -> returned (reply w prompt m) = false) ->
  exists attempts msg w',
    query_with_fallback self prompt wid w
    = (Returns (None, Some msg, None, attempts), w')
    /\ attempts
       = map (fun m => mkAttempt m false (Some (invoker_error w prompt m)))
             (model_chain self)
    /\ length attempts = length (model_chain self)
    /\ models_requested w w' = model_chain self
    /\ msg = "All models failed. Attempts: " ++ repr_attempts attempts
             ++ ". Last error: None"
    /\ (forall a, In a attempts ->
          repr_verbatim (model a) = true -> occurs_in (model a) msg)
    /\ (repr_verbatim (primary_model self) = true ->
          forall m, In m (model_chain self) -> occurs_in m msg)
    /\ (forall a e, In a attempts -> error a = Some e ->
          repr_verbatim e = true -> occurs_in e msg).
Proof.
  intros Hfail.
  unfold query_with_fallback.
  destruct (fallback_loop_skips self prompt wid [] (model_chain self) [] None w)
    as (w' & E & Hp & Hr).
  { intros m Hm. unfold accepted. specialize (Hfail m Hm).
    now destruct (reply w prompt m). }
  rewrite List.app_nil_r in E.
  rewrite (last_error_after_failures _ _ _ _ Hfail) in E.
  assert (Hatts : map (attempt_of w prompt) (model_chain self)
                  = map (fun m => mkAttempt m false (Some (invoker_error w prompt m)))
                        (model_chain self)).
  { apply map_ext_in. intros m Hm. specialize (Hfail m Hm).
    unfold attempt_of. now destruct (reply w prompt m). }
  cbn [app] in E. rewrite Hatts in E.
  set (attempts := map _ (model_chain self)) in *.
  exists attempts,
    ("All models failed. Attempts: " ++ repr_attempts attempts ++ ". Last error: None"),
    w'.
  split; [exact E|]. split; [reflexivity|]. split; [apply length_map|].
  split; [now apply (models_requested_app prompt)|]. split; [reflexivity|].
  assert (Hin : forall a, In a attempts ->
                  occurs_in (repr_attempt a)
                    ("All models failed. Attempts: " ++ repr_attempts attempts
                     ++ ". Last error: None")).
  { intros a Ha. apply occurs_in_app_r, occurs_in_app_l.
    now apply occurs_in_repr_attempts. }
  assert (Hnames : forall a, In a attempts ->
                     repr_verbatim (model a) = true ->
                     occurs_in (model a)
                       ("All models failed. Attempts: " ++ repr_attempts attempts
                        ++ ". Last error: None")).
  { intros a Ha Hv.
    eapply occurs_in_trans; [apply (occurs_in_repr_str _ Hv)|].
    eapply occurs_in_trans; [apply occurs_in_repr_attempt_model|]. now apply Hin. }
  split; [exact Hnames|]. split.
  - intros Hprimary m Hm.
    apply (Hnames (mkAttempt m false (Some (invoker_error w prompt m)))).
    + unfold attempts. apply in_map_iff. now exists m.
    + cbn [model]. apply (model_chain_verbatim self); assumption.
  - intros a e Ha He Hv.
    eapply occurs_in_trans; [apply (occurs_in_repr_str _ Hv)|].
    eapply occurs_in_trans; [|apply (Hin a Ha)].
    pose proof (occurs_in_repr_attempt_error a) as H. now rewrite He in H.
Qed.

(** ** Construction of the service *)

(** C9: without an API key ([None] or the empty string) the constructor
    raises, and so does the factory when the environment has no key; a
    service that was built holds the non-empty key it was given, so no call
    meets a missing key. *)
Theorem missing_api_key_fails_construction :
  (forall key primary,
      optional_truthy key = false ->
      __init__ key primary = Raises (ValueError "Perplexity API key is required"))
  /\ (forall getenv,
        optional_truthy (getenv "PERPLEXITY_API_KEY") = false ->
        create_llm_service getenv
        = Raises (ValueError "PERPLEXITY_API_KEY environment variable is required"))
  /\ (forall key primary self,
        __init__ key primary = Returns self ->
        key = Some (api_key self) /\ api_key self <> EmptyString
        /\ primary_model self = primary)
  /\ (forall getenv self,
        create_llm_service getenv = Returns self ->
        getenv "PERPLEXITY_API_KEY" = Some (api_key self)
        /\ api_key self <> EmptyString).
Proof.
  split; [|split; [|split]].
  - intros [[|c key]|] primary H; cbn in *; congruence.
  - intros getenv H. unfold create_llm_service.
    destruct (getenv "PERPLEXITY_API_KEY") as [[|c key]|]; cbn in *; congruence.
  - intros [[|c key]|] primary self H; cbn in H; try discriminate.
    injection H as <-. cbn. repeat split. discriminate.
  - intros getenv self. unfold create_llm_service.
    destruct (getenv "PERPLEXITY_API_KEY") as [[|c key]|]; cbn; try discriminate.
    intros [= <-]. cbn. split; [reflexivity|discriminate].
Qed.

(** ** The error sink *)

Lemma main_invoker_step (post : ChatRequest -> outcome Main.Response)
    (prompt : string) (key : option string) (m : string) (wid : option Z) (w : World) :
  Main.query_perplexity_model post prompt key m wid w
  = match Main.request_content post prompt key m with
    | Returns content => (Returns (Some content, None), w)
    | Raises e =>
        let error_message := "Perplexity API error: " ++ exn_str e in
        (Returns (None, Some error_message),
         match wid with
         | Some z =>
             if (z =? 0)%Z then w
             else snd (log_error z "API_Error" error_message w)
         | None => w
         end)
    end.
Proof.
  unfold Main.query_perplexity_model, try_except, bindM, lift, ret.
  destruct (Main.request_content post prompt key m) as [content|e]; [reflexivity|].
  destruct wid as [z|]; cbn; [destruct (z =? 0)%Z|]; reflexivity.
Qed.

(** C10: with the workflow identifier 0 a failed request is not forwarded to
    the error sink, in the service's invoker and in the stand-alone one: the
    call does what it does without an identifier, [log_error] is not called
    and the table is left as it was.  For any identifier, what is logged is
    the error of a failed request under an identifier other than 0, and
    nothing else. *)
Theorem zero_workflow_id_not_forwarded
    (self : LLMService) (post : ChatRequest -> outcome Main.Response)
    (key : option string) (prompt m : string) (w : World) :
  (query_perplexity_model self prompt m (Some 0%Z) w
   = query_perplexity_model self prompt m None w
   /\ logged (snd (query_perplexity_model self prompt m (Some 0%Z) w)) = logged w
   /\ error_logs (snd (query_perplexity_model self prompt m (Some 0%Z) w)) = error_logs w)
  /\ (Main.query_perplexity_model post prompt key m (Some 0%Z) w
      = Main.query_perplexity_model post prompt key m None w
      /\ logged (snd (Main.query_perplexity_model post prompt key m (Some 0%Z) w)) = logged w
      /\ error_logs (snd (Main.query_perplexity_model post prompt key m (Some 0%Z) w))
         = error_logs w)
  /\ (forall wid,
        logged (snd (query_perplexity_model self prompt m wid w))
        = match reply w prompt m, wid with
          | Raises _, Some z =>
              if (z =? 0)%Z then logged w
              else (logged w ++ [(z, "API_Error", invoker_error w prompt m)])%list
          | _, _ => logged w
          end)
  /\ (forall wid,
        logged (snd (Main.query_perplexity_model post prompt key m wid w))
        = match Main.request_content post prompt key m, wid with
          | Raises e, Some z =>
              if (z =? 0)%Z then logged w
              else (logged w
                    ++ [(z, "API_Error", ("Perplexity API error: " ++ exn_str e)%string)])%list
          | _, _ => logged w
          end).
Proof.
  split; [|split; [|split]].
  - split.
    { unfold query_perplexity_model, try_except.
      destruct (bindM (request_model prompt m) _ w) as [[r|e] w1]; reflexivity. }
    destruct (invoker_step self prompt m (Some 0%Z) w) as (w0 & E0 & _ & _ & _ & Hl & He).
    rewrite E0. cbn [snd]. split.
    + rewrite Hl. now destruct (reply w prompt m).
    + rewrite He. destruct (reply w prompt m); [reflexivity|].
      now destruct (error_logs w).
  - rewrite !main_invoker_step.
    destruct (Main.request_content post prompt key m); cbn; auto.
  - intros wid.
    destruct (invoker_step self prompt m wid w) as (w1 & E1 & _ & _ & _ & Hl & _).
    now rewrite E1.
  - intros wid. rewrite main_invoker_step.
    destruct (Main.request_content post prompt key m) as [c|e]; cbn.
    + now destruct wid.
    + destruct wid as [z|]; [|reflexivity]. now destruct (z =? 0)%Z.
Qed.

(** ** The decoder *)

(** *** Numbers *)

Lemma span_digits_spec (s ds r : string) :
  span_digits s = (ds, r) ->
  s = ds ++ r /\ all_chars is_digit ds = true /\ head_not is_digit r = true.
Proof.
  revert ds r. induction s as [|c s IH]; cbn; intros ds r H.
  - injection H as <- <-. auto.
  - destruct (is_digit c) eqn:Hc.
    + destruct (span_digits s) as [ds' r'] eqn:E. injection H as <- <-.
      destruct (IH _ _ eq_refl) as (-> & Hall & Hr).
      cbn. rewrite Hc. auto.
    + injection H as <- <-. cbn. rewrite Hc. auto.
Qed.

Lemma span_digits_app (ds t : string) :
  all_chars is_digit ds = true -> head_not is_digit t = true ->
  span_digits (ds ++ t) = (ds, t).
Proof.
  induction ds as [|c ds IH]; cbn; intros Hall Ht.
  - destruct t as [|c t]; [reflexivity|]. cbn in *.
    now destruct (is_digit c).
  - apply Bool.andb_true_iff in Hall as [-> Hall]. now rewrite IH.
Qed.

Lemma length_append (a b : string) :
  String.length (a ++ b) = String.length a + String.length b.
Proof. induction a; cbn; congruence. Qed.

Lemma scan_sign_spec (s sg s1 : string) :
  scan_sign s = (sg, s1) ->
  s = sg ++ s1
  /\ (sg = EmptyString \/ sg = "-")
  /\ forall t, head_not (fun c => (c =? "-")%char) t = true ->
               scan_sign (sg ++ t) = (sg, t).
Proof.
  unfold scan_sign. destruct s as [|c s].
  - intros [= <- <-]. repeat split; auto.
    intros [|c t]; cbn; [reflexivity|]. now destruct (c =? "-")%char.
  - destruct (Ascii.eqb_spec c "-") as [->|Hc]; intros [= <- <-].
    + repeat split; auto.
    + repeat split; auto.
      intros [|c' t]; cbn; [reflexivity|]. now destruct (c' =? "-")%char.
Qed.

Lemma is_digit_not_minus (c : ascii) : is_digit c = true -> (c =? "-")%char = false.
Proof.
  intros H. destruct (Ascii.eqb_spec c "-") as [->|]; [discriminate H|reflexivity].
Qed.

Lemma scan_int_spec (s ip s2 : string) :
  scan_int s = Some (ip, s2) ->
  s = ip ++ s2
  /\ (exists c ds, ip = String c ds /\ is_digit c = true
                   /\ all_chars is_digit ds = true
                   /\ ((c =? "0")%char = true -> ds = EmptyString))
  /\ forall t, head_not is_digit t = true -> scan_int (ip ++ t) = Some (ip, t).
Proof.
  unfold scan_int. destruct s as [|c s]; [discriminate|].
  destruct (Ascii.eqb_spec c "0") as [->|Hc].
  - intros [= <- <-]. split; [reflexivity|]. split.
    + exists "0"%char, EmptyString. auto.
    + reflexivity.
  - destruct (is_digit c) eqn:Hd; [|discriminate].
    destruct (span_digits s) as [ds r] eqn:E. intros [= <- <-].
    destruct (span_digits_spec _ _ _ E) as (-> & Hall & Hr).
    split; [reflexivity|]. split.
    + exists c, ds. repeat split; auto.
      destruct (Ascii.eqb_spec c "0"); congruence.
    + intros t Ht. cbn. destruct (Ascii.eqb_spec c "0"); [congruence|].
      now rewrite Hd, span_digits_app.
Qed.

Lemma scan_frac_spec (s fr s3 : string) :
  scan_frac s = (fr, s3) ->
  s = fr ++ s3
  /\ (fr = EmptyString \/ exists t, fr = String "." t)
  /\ forall t, head_not is_digit t = true ->
               head_not (fun c => (c =? ".")%char) t = true ->
               scan_frac (fr ++ t) = (fr, t).
Proof.
  unfold scan_frac.
  assert (Hnil : forall t, head_not (fun c => (c =? ".")%char) t = true ->
                   match t with
                   | String c (String d r) =>
                       if ((c =? ".")%char && is_digit d)%bool
                       then let (ds, r') := span_digits r in (String c (String d ds), r')
                       else (EmptyString, t)
                   | _ => (EmptyString, t)
                   end = (EmptyString, t)).
  { intros [|c [|d t]] H; cbn in *; try reflexivity.
    apply Bool.negb_true_iff in H. now rewrite H. }
  destruct s as [|c [|d s]]; try (intros [= <- <-]; repeat split; auto).
  destruct ((c =? ".")%char && is_digit d)%bool eqn:Hcd.
  - apply Bool.andb_true_iff in Hcd as [Hc Hd]. apply Ascii.eqb_eq in Hc. subst c.
    destruct (span_digits s) as [ds r] eqn:E. intros [= <- <-].
    destruct (span_digits_spec _ _ _ E) as (-> & Hall & Hr).
    split; [reflexivity|]. split; [right; eauto|].
    intros t Ht _. cbn. rewrite Hd. cbn. now rewrite span_digits_app.
  - intros [= <- <-]. repeat split; auto.
Qed.

Lemma scan_exp_spec (s ex s4 : string) :
  scan_exp s = (ex, s4) ->
  s = ex ++ s4
  /\ (ex = EmptyString
      \/ exists e t, ex = String e t /\ ((e =? "e") || (e =? "E"))%char = true)
  /\ forall t, head_not continues_number t = true -> scan_exp (ex ++ t) = (ex, t).
Proof.
  assert (Hnil : forall t, head_not continues_number t = true ->
                           scan_exp t = (EmptyString, t)).
  { intros [|c t] H; [reflexivity|]. cbn in *. unfold continues_number in H.
    apply Bool.negb_true_iff in H.
    apply Bool.orb_false_iff in H as [H HE].
    apply Bool.orb_false_iff in H as [H He].
    now rewrite He, HE. }
  assert (Hstop : forall t, head_not continues_number t = true ->
                            head_not is_digit t = true).
  { intros [|c t] H; [reflexivity|]. cbn in *. unfold continues_number in H.
    destruct (is_digit c); [discriminate H|reflexivity]. }
  unfold scan_exp at 1. destruct s as [|e s].
  { intros [= <- <-]. repeat split; auto. }
  destruct ((e =? "e") || (e =? "E"))%char eqn:He.
  2:{ intros [= <- <-]. repeat split; auto. }
  destruct s as [|c s].
  { cbn. intros [= <- <-]. repeat split; auto. }
  destruct ((c =? "+") || (c =? "-"))%char eqn:Hc.
  - destruct (span_digits s) as [ds r] eqn:E.
    destruct (span_digits_spec _ _ _ E) as (-> & Hall & Hr).
    destruct ds as [|d ds]; intros [= <- <-].
    + repeat split; auto.
    + split; [reflexivity|]. split; [right; eauto|].
      intros t Ht. cbn [append str1]. unfold scan_exp. rewrite He, Hc.
      change (String d (ds ++ t)) with (String d ds ++ t).
      now rewrite (span_digits_app (String d ds) t Hall (Hstop t Ht)).
  - destruct (span_digits (String c s)) as [ds r] eqn:E.
    destruct (span_digits_spec _ _ _ E) as (Hs & Hall & Hr).
    destruct ds as [|d ds]; intros [= <- <-].
    + repeat split; auto.
    + cbn in Hs. injection Hs as -> ->.
      split; [reflexivity|]. split; [right; eauto|].
      intros t Ht. cbn [append]. unfold scan_exp. rewrite He, Hc.
      change (String d (ds ++ t)) with (String d ds ++ t).
      now rewrite (span_digits_app (String d ds) t Hall (Hstop t Ht)).
Qed.

Lemma stop_not_digit (t : string) :
  head_not continues_number t = true -> head_not is_digit t = true.
Proof.
  destruct t as [|c t]; [reflexivity|]. cbn. unfold continues_number.
  now destruct (is_digit c).
Qed.

Lemma stop_not_dot (t : string) :
  head_not continues_number t = true ->
  head_not (fun c => (c =? ".")%char) t = true.
Proof.
  destruct t as [|c t]; [reflexivity|]. cbn. unfold continues_number.
  destruct (c =? ".")%char; [|reflexivity].
  now rewrite Bool.orb_true_r.
Qed.

Lemma scan_frac_stop (t : string) :
  head_not continues_number t = true -> scan_frac t = (EmptyString, t).
Proof.
  intros H. destruct (scan_frac t) as [fr s3] eqn:E.
  destruct t as [|c [|d t]]; cbn in E; try (now injection E as <- <-).
  apply stop_not_dot in H. cbn in H. apply Bool.negb_true_iff in H.
  rewrite H in E. now injection E as <- <-.
Qed.

Lemma scan_exp_stop (t : string) :
  head_not continues_number t = true -> scan_exp t = (EmptyString, t).
Proof.
  intros H. destruct (scan_exp_spec EmptyString EmptyString EmptyString eq_refl)
    as (_ & _ & R). exact (R t H).
Qed.

(** A number that was scanned scans again from its own text. *)
Lemma scan_number_spec (s : string) (v : json) (r : string) :
  scan_number s = Some (v, r) ->
  String.length r < String.length s
  /\ match v with
     | JInt _ => True
     | JFloat l =>
         (exists c t, l = String c t
                      /\ (is_digit c = true
                          \/ c = "-"%char /\ exists d t', t = String d t' /\ is_digit d = true))
         /\ forall rest, head_not continues_number rest = true ->
                         scan_number (l ++ rest) = Some (JFloat l, rest)
     | _ => False
     end.
Proof.
  unfold scan_number.
  destruct (scan_sign s) as [sg s1] eqn:Esg.
  destruct (scan_int s1) as [[ip s2]|] eqn:Eip; [|discriminate].
  destruct (scan_frac s2) as [fr s3] eqn:Efr.
  destruct (scan_exp s3) as [ex s4] eqn:Eex.
  destruct (scan_sign_spec _ _ _ Esg) as (-> & Hsg & Rsg).
  destruct (scan_int_spec _ _ _ Eip) as (-> & (c & ds & -> & Hc & Hds & H0) & Rip).
  destruct (scan_frac_spec _ _ _ Efr) as (-> & Hfr & Rfr).
  destruct (scan_exp_spec _ _ _ Eex) as (-> & Hex & Rex).
  intros H. split.
  { assert (r = s4) as -> by (destruct (is_empty fr && is_empty ex)%bool; congruence).
    rewrite !length_append. cbn. lia. }
  destruct (is_empty fr && is_empty ex)%bool eqn:Hempty; injection H as <- <-; [exact I|].
  split.
  - destruct Hsg as [-> | ->]; cbn; eauto 10.
  - intros rest Hrest.
    replace ((sg ++ String c (ds ++ fr ++ ex)) ++ rest)
      with (sg ++ (String c ds ++ (fr ++ (ex ++ rest))))
      by (repeat (cbn [append]; rewrite ?append_assoc); reflexivity).
    assert (Hd3 : head_not is_digit (ex ++ rest) = true).
    { destruct Hex as [->|(e & t & -> & He)]; [now apply stop_not_digit|].
      cbn. destruct (Ascii.eqb_spec e "e") as [->|]; [reflexivity|].
      destruct (Ascii.eqb_spec e "E") as [->|]; [reflexivity|discriminate]. }
    assert (Hp3 : head_not (fun c => (c =? ".")%char) (ex ++ rest) = true).
    { destruct Hex as [->|(e & t & -> & He)]; [now apply stop_not_dot|].
      cbn. destruct (Ascii.eqb_spec e "e") as [->|]; [reflexivity|].
      destruct (Ascii.eqb_spec e "E") as [->|]; [reflexivity|discriminate]. }
    assert (Hd2 : head_not is_digit (fr ++ ex ++ rest) = true).
    { destruct Hfr as [->|(t & ->)]; [exact Hd3|reflexivity]. }
    rewrite Rsg by (cbn; now rewrite is_digit_not_minus).
    cbv beta iota. rewrite (Rip _ Hd2).
    cbv beta iota. rewrite (Rfr _ Hd3 Hp3).
    cbv beta iota. rewrite (Rex _ Hrest).
    cbv beta iota. rewrite Hempty. reflexivity.
Qed.

Lemma eqb_digit_false (a c : ascii) :
  is_digit c = true -> is_digit a = false -> (a =? c)%char = false.
Proof.
  intros Hc Ha. destruct (Ascii.eqb_spec a c) as [->|]; congruence.
Qed.

Lemma digit_eqb_false (c a : ascii) :
  is_digit c = true -> is_digit a = false -> (c =? a)%char = false.
Proof.
  intros Hc Ha. destruct (Ascii.eqb_spec c a) as [->|]; congruence.
Qed.

Lemma digit_scalar_head (c : ascii) : is_digit c = true -> scalar_head c = true.
Proof.
  intros Hc. unfold scalar_head, value_head, is_json_ws.
  now rewrite !(digit_eqb_false c _ Hc) by reflexivity.
Qed.

(** A text that starts like a number is none of the named constants. *)
Lemma scan_constant_digit (c : ascii) (s : string) :
  is_digit c = true -> scan_constant (String c s) = scan_number (String c s).
Proof.
  intros Hc. unfold scan_constant. cbn [strip_prefix].
  now rewrite !(eqb_digit_false _ c Hc) by reflexivity.
Qed.

Lemma scan_constant_minus_digit (d : ascii) (s : string) :
  is_digit d = true ->
  scan_constant (String "-" (String d s)) = scan_number (String "-" (String d s)).
Proof.
  intros Hd. unfold scan_constant.
  change (strip_prefix "null" (String "-" (String d s))) with (@None string).
  change (strip_prefix "true" (String "-" (String d s))) with (@None string).
  change (strip_prefix "false" (String "-" (String d s))) with (@None string).
  change (strip_prefix "NaN" (String "-" (String d s))) with (@None string).
  change (strip_prefix "Infinity" (String "-" (String d s))) with (@None string).
  change (strip_prefix "-Infinity" (String "-" (String d s)))
    with (if ("I" =? d)%char then strip_prefix "nfinity" s else None).
  now rewrite (eqb_digit_false "I" d Hd) by reflexivity.
Qed.

Lemma scan_number_float_lexeme (s l r : string) :
  scan_number s = Some (JFloat l, r) -> float_lexeme l.
Proof.
  intros H. destruct (scan_number_spec _ _ _ H) as (_ & (c & t & -> & Hhead) & R).
  split.
  - exists c, t. split; [reflexivity|].
    assert (Hc : is_digit c = true \/ c = "-"%char).
    { destruct Hhead as [?|[? _]]; auto. }
    destruct Hc as [Hc| ->]; [|reflexivity].
    now apply digit_scalar_head.
  - intros rest Hrest.
    destruct Hhead as [Hc|(-> & d & t' & -> & Hd)]; cbn [append].
    + rewrite scan_constant_digit by assumption. exact (R rest Hrest).
    + rewrite scan_constant_minus_digit by assumption. exact (R rest Hrest).
Qed.

(** *** Integers *)

Lemma string_of_uint_digits (d : Decimal.uint) :
  all_chars is_digit (DecimalString.NilEmpty.string_of_uint d) = true.
Proof. induction d; cbn; auto. Qed.

Lemma nzhead_not_D0 (d d' : Decimal.uint) : Decimal.nzhead d <> Decimal.D0 d'.
Proof. induction d; cbn; congruence. Qed.

Lemma to_uint_nzhead (p : positive) :
  Decimal.nzhead (Pos.to_uint p) = Pos.to_uint p.
Proof.
  pose proof (DecimalPos.Unsigned.to_of (Pos.to_uint p)) as H.
  rewrite DecimalPos.Unsigned.of_to in H.
  change (N.to_uint (N.pos p)) with (Pos.to_uint p) in H.
  destruct (Decimal.nzhead (Pos.to_uint p)) eqn:E.
  1:{ exfalso. apply (DecimalPos.Unsigned.to_uint_nonzero p).
      rewrite H. unfold Decimal.unorm. now rewrite E. }
  all: rewrite H; unfold Decimal.unorm; now rewrite E.
Qed.

Lemma to_uint_text (p : positive) :
  exists c ds,
    DecimalString.NilZero.string_of_uint (Pos.to_uint p) = String c ds
    /\ is_digit c = true /\ (c =? "0")%char = false
    /\ all_chars is_digit ds = true.
Proof.
  pose proof (to_uint_nzhead p) as H.
  pose proof (string_of_uint_digits (Pos.to_uint p)) as Hd.
  destruct (Pos.to_uint p) as [|d|d|d|d|d|d|d|d|d|d] eqn:E.
  1:{ now apply DecimalPos.Unsigned.to_uint_nonnil in E. }
  1:{ now apply nzhead_not_D0 in H. }
  all: cbn in Hd |- *; eauto 10.
Qed.

Lemma py_int_repr (z : Z) : py_int (int_repr z) = z.
Proof.
  unfold py_int, int_repr.
  rewrite DecimalString.NilZero.isi.
  - apply DecimalZ.of_to.
  - destruct z; cbn; try discriminate.
    intros [= H]. now apply DecimalPos.Unsigned.to_uint_nonnil in H.
  - destruct z; cbn; try discriminate.
    intros [= H]. now apply DecimalPos.Unsigned.to_uint_nonnil in H.
Qed.

Lemma scan_int_digits (c : ascii) (ds t : string) :
  is_digit c = true -> (c =? "0")%char = false ->
  all_chars is_digit ds = true -> head_not is_digit t = true ->
  scan_int (String c ds ++ t) = Some (String c ds, t).
Proof.
  intros Hc H0 Hds Ht. cbn. now rewrite H0, Hc, span_digits_app.
Qed.

(** The text of an integer scans back to the integer. *)
Lemma scan_constant_int_repr (z : Z) (rest : string) :
  head_not continues_number rest = true ->
  scan_constant (int_repr z ++ rest) = Some (JInt z, rest)
  /\ exists c t, int_repr z = String c t /\ scalar_head c = true.
Proof.
  intros Hrest.
  pose proof (py_int_repr z) as Hpy.
  assert (Htail : forall sg ip,
             scan_frac rest = (EmptyString, rest) ->
             scan_exp rest = (EmptyString, rest) ->
             int_repr z = sg ++ ip ->
             (let (fr, s3) := scan_frac rest in
              let (ex, s4) := scan_exp s3 in
              if (is_empty fr && is_empty ex)%bool
              then Some (JInt (py_int (sg ++ ip)), s4)
              else Some (JFloat (sg ++ ip ++ fr ++ ex), s4))
             = Some (JInt z, rest)).
  { intros sg ip -> -> <-. cbn. now rewrite Hpy. }
  specialize (fun sg ip => Htail sg ip (scan_frac_stop _ Hrest) (scan_exp_stop _ Hrest)).
  pose proof (stop_not_digit _ Hrest) as Hnd.
  destruct z as [|p|p].
  - split; [|exists "0"%char, EmptyString; now split].
    change (int_repr 0 ++ rest) with (String "0" rest).
    rewrite scan_constant_digit by reflexivity.
    unfold scan_number. cbn [scan_sign scan_int Ascii.eqb Bool.eqb].
    exact (Htail EmptyString "0" eq_refl).
  - destruct (to_uint_text p) as (c & ds & E & Hc & H0 & Hds).
    assert (Hrepr : int_repr (Z.pos p) = String c ds) by exact E.
    split.
    + rewrite Hrepr. cbn [append]. rewrite scan_constant_digit by assumption.
      unfold scan_number.
      change (scan_sign (String c (ds ++ rest)))
        with (if (c =? "-")%char then ("-", ds ++ rest)
              else (EmptyString, String c (ds ++ rest))).
      rewrite (is_digit_not_minus c Hc).
      change (String c (ds ++ rest)) with (String c ds ++ rest).
      rewrite (scan_int_digits c ds rest Hc H0 Hds Hnd).
      exact (Htail EmptyString (String c ds) Hrepr).
    + exists c, ds. split; [assumption|]. now apply digit_scalar_head.
  - destruct (to_uint_text p) as (c & ds & E & Hc & H0 & Hds).
    assert (Hrepr : int_repr (Z.neg p) = String "-" (String c ds)).
    { unfold int_repr. cbn. now rewrite E. }
    split; [|exists "-"%char, (String c ds); now split].
    rewrite Hrepr. cbn [append]. rewrite scan_constant_minus_digit by assumption.
    unfold scan_number. cbn [scan_sign Ascii.eqb Bool.eqb].
    change (String c (ds ++ rest)) with (String c ds ++ rest).
    rewrite (scan_int_digits c ds rest Hc H0 Hds Hnd).
    exact (Htail "-" (String c ds) Hrepr).
Qed.

(** *** Strings *)

Lemma scanstring_eq (begin s : string) :
  scanstring begin s =
  match s with
  | EmptyString => Failed "Unterminated string starting at" begin
  | String c s1 =>
    if (c =? dquote)%char then Scanned EmptyString s1
    else if (c =? backslash)%char then
      match s1 with
      | EmptyString => Failed "Unterminated string starting at" begin
      | String e s2 =>
        if (e =? "u")%char then
          match s2 with
          | String h1 (String h2 (String h3 (String h4 ((String n1 s3) as after)))) =>
            match hex4 h1 h2 h3 h4 with
            | None => Failed invalid_u s1
            | Some hi =>
              let single := scan_map (append (utf8_encode hi)) (scanstring begin after) in
              if is_high_surrogate hi then
                match s3 with
                | String n2 (String l1 (String l2 (String l3 (String l4 ((String _ _) as after2))))) =>
                  if ((n1 =? backslash) && (n2 =? "u"))%char then
                    match hex4 l1 l2 l3 l4 with
                    | None => Failed invalid_u (String n2 (String l1 (String l2 (String l3 (String l4 after2)))))
                    | Some lo =>
                      if is_low_surrogate lo then
                        scan_map (append (utf8_encode (join_surrogates hi lo)))
                                 (scanstring begin after2)
                      else single
                    end
                  else single
                | _ => single
                end
              else single
            end
          | _ => Failed invalid_u s1
          end
        else
          match unescape e with
          | Some c' => scan_map (String c') (scanstring begin s2)
          | None => Failed "Invalid \escape" s
          end
      end
    else if (code c <=? 31)%N then Failed "Invalid control character at" s
    else scan_map (String c) (scanstring begin s1)
  end.
Proof. destruct s; reflexivity. Qed.

Lemma scanstring_plain (begin : string) (c : ascii) (t : string) :
  (c =? dquote)%char = false -> (c =? backslash)%char = false ->
  (code c <=? 31)%N = false ->
  scanstring begin (String c t) = scan_map (String c) (scanstring begin t).
Proof. intros H1 H2 H3. rewrite scanstring_eq. now rewrite H1, H2, H3. Qed.

Lemma scanstring_escaped (begin : string) (e c' : ascii) (t : string) :
  (e =? "u")%char = false -> unescape e = Some c' ->
  scanstring begin (String backslash (String e t))
  = scan_map (String c') (scanstring begin t).
Proof.
  intros H1 H2. rewrite scanstring_eq.
  change (backslash =? dquote)%char with false.
  change (backslash =? backslash)%char with true.
  cbv beta iota. now rewrite H1, H2.
Qed.

Lemma scanstring_u (begin : string) (h1 h2 h3 h4 n : ascii) (t : string) (hi : N) :
  hex4 h1 h2 h3 h4 = Some hi -> is_high_surrogate hi = false ->
  scanstring begin
    (String backslash (String "u" (String h1 (String h2 (String h3 (String h4 (String n t)))))))
  = scan_map (append (utf8_encode hi)) (scanstring begin (String n t)).
Proof.
  intros H1 H2. rewrite scanstring_eq.
  change (backslash =? dquote)%char with false.
  change (backslash =? backslash)%char with true.
  change ("u" =? "u")%char with true.
  cbv beta iota zeta. now rewrite H1, H2.
Qed.

Lemma control_hex (c : ascii) :
  (code c <? 32)%N = true ->
  hex4 "0" "0" (hex_digit (code c / 16)) (hex_digit (code c mod 16)) = Some (code c)
  /\ is_high_surrogate (code c) = false
  /\ utf8_encode (code c) = str1 c.
Proof.
  destruct c as [[] [] [] [] [] [] [] []]; intros H;
    try discriminate H; repeat split; reflexivity.
Qed.

Lemma escape_then_quote (s rest : string) :
  exists n t, escape s ++ String dquote rest = String n t.
Proof.
  destruct (escape s) as [|n t]; cbn; eauto.
Qed.

(** An encoded string scans back to the string. *)
Lemma scanstring_escape (begin s rest : string) :
  scanstring begin (escape s ++ String dquote rest) = Scanned s rest.
Proof.
  induction s as [|c s IH]; [reflexivity|].
  cbn [escape]. rewrite append_assoc. unfold escape_char.
  destruct (Ascii.eqb_spec c dquote) as [->|Hq].
  { cbn [append str1]. rewrite scanstring_escaped with (c' := dquote) by reflexivity.
    now rewrite IH. }
  destruct (Ascii.eqb_spec c backslash) as [->|Hb].
  { cbn [append str1]. rewrite scanstring_escaped with (c' := backslash) by reflexivity.
    now rewrite IH. }
  destruct (Ascii.eqb_spec c "010") as [->|Hn].
  { cbn [append]. rewrite scanstring_escaped with (c' := "010"%char) by reflexivity.
    now rewrite IH. }
  destruct (Ascii.eqb_spec c "013") as [->|Hr].
  { cbn [append]. rewrite scanstring_escaped with (c' := "013"%char) by reflexivity.
    now rewrite IH. }
  destruct (Ascii.eqb_spec c "009") as [->|Ht].
  { cbn [append]. rewrite scanstring_escaped with (c' := "009"%char) by reflexivity.
    now rewrite IH. }
  destruct (Ascii.eqb_spec c "008") as [->|Hbs].
  { cbn [append]. rewrite scanstring_escaped with (c' := "008"%char) by reflexivity.
    now rewrite IH. }
  destruct (Ascii.eqb_spec c "012") as [->|Hf].
  { cbn [append]. rewrite scanstring_escaped with (c' := "012"%char) by reflexivity.
    now rewrite IH. }
  destruct (code c <? 32)%N eqn:Hc.
  - destruct (control_hex c Hc) as (Hhex & Hhi & Hutf).
    destruct (escape_then_quote s rest) as (n & t & E).
    rewrite E in IH |- *. cbn [append str1].
    rewrite (scanstring_u _ _ _ _ _ _ _ _ Hhex Hhi), IH, Hutf. reflexivity.
  - cbn [append str1]. rewrite scanstring_plain, IH; try reflexivity.
    + now apply Ascii.eqb_neq.
    + now apply Ascii.eqb_neq.
    + apply N.leb_gt. apply N.ltb_ge in Hc. lia.
Qed.

Lemma scan_map_Scanned {A B : Type} (f : A -> B) (r : scan A) (b : B) (rest : string) :
  scan_map f r = Scanned b rest -> exists a, r = Scanned a rest /\ b = f a.
Proof. destruct r; cbn; intros [=]; subst; eauto. Qed.

Lemma scan_map_OutOfFuel {A B : Type} (f : A -> B) (r : scan A) :
  scan_map f r = OutOfFuel -> r = OutOfFuel.
Proof. now destruct r. Qed.

(** A string scan needs no fuel, and it reads at least the closing quote. *)
Lemma scanstring_progress (n : nat) :
  forall begin s, String.length s <= n ->
    scanstring begin s <> OutOfFuel
    /\ forall k r, scanstring begin s = Scanned k r -> String.length r < String.length s.
Proof.
  induction n as [|n IH]; intros begin s Hlen.
  { destruct s; [|cbn in Hlen; lia]. split; [discriminate|discriminate]. }
  assert (Hrec : forall (f : string -> string) t,
             String.length t < String.length s ->
             scan_map f (scanstring begin t) <> OutOfFuel
             /\ forall k r, scan_map f (scanstring begin t) = Scanned k r ->
                            String.length r < String.length s).
  { intros f t Ht. destruct (IH begin t ltac:(lia)) as [H1 H2]. split.
    - intros H. now apply scan_map_OutOfFuel in H.
    - intros k r H. apply scan_map_Scanned in H as (a & H & _).
      specialize (H2 _ _ H). lia. }
  rewrite scanstring_eq.
  destruct s as [|c s1]; [split; discriminate|].
  destruct (c =? dquote)%char.
  { split; [discriminate|]. intros k r [= <- <-]. cbn. lia. }
  destruct (c =? backslash)%char.
  2:{ destruct (code c <=? 31)%N; [split; discriminate|]. apply Hrec. cbn. lia. }
  destruct s1 as [|e s2]; [split; discriminate|].
  destruct (e =? "u")%char.
  2:{ destruct (unescape e); [|split; discriminate]. apply Hrec. cbn. lia. }
  destruct s2 as [|h1 [|h2 [|h3 [|h4 [|n1 s3]]]]]; try (split; discriminate).
  destruct (hex4 h1 h2 h3 h4) as [hi|]; [|split; discriminate].
  cbv zeta.
  assert (Hsingle := Hrec (append (utf8_encode hi)) (String n1 s3) ltac:(cbn; lia)).
  destruct (is_high_surrogate hi); [|exact Hsingle].
  destruct s3 as [|n2 [|l1 [|l2 [|l3 [|l4 [|x after2]]]]]]; try exact Hsingle.
  destruct ((n1 =? backslash) && (n2 =? "u"))%char; [|exact Hsingle].
  destruct (hex4 l1 l2 l3 l4) as [lo|]; [|split; discriminate].
  destruct (is_low_surrogate lo); [|exact Hsingle].
  apply Hrec. cbn. lia.
Qed.

Lemma scanstring_not_aborted (begin s : string) (e : exn) :
  scanstring begin s <> Aborted e.
Proof.
  remember (String.length s) as n eqn:Hn. revert begin s Hn.
  induction n as [n IH] using lt_wf_ind. intros begin s Hn.
  assert (Hrec : forall (f : string -> string) t,
             String.length t < String.length s ->
             scan_map f (scanstring begin t) <> Aborted e).
  { intros f t Ht H.
    destruct (scanstring begin t) eqn:E; try discriminate.
    injection H as ->. revert E. apply (IH (String.length t)); [lia|reflexivity]. }
  rewrite scanstring_eq.
  destruct s as [|c s1]; [discriminate|].
  destruct (c =? dquote)%char; [discriminate|].
  destruct (c =? backslash)%char.
  2:{ destruct (code c <=? 31)%N; [discriminate|]. apply Hrec. cbn. lia. }
  destruct s1 as [|e0 s2]; [discriminate|].
  destruct (e0 =? "u")%char.
  2:{ destruct (unescape e0); [|discriminate]. apply Hrec. cbn. lia. }
  destruct s2 as [|h1 [|h2 [|h3 [|h4 [|n1 s3]]]]]; try discriminate.
  destruct (hex4 h1 h2 h3 h4) as [hi|]; [|discriminate].
  cbv zeta.
  assert (Hsingle := Hrec (append (utf8_encode hi)) (String n1 s3) ltac:(cbn; lia)).
  destruct (is_high_surrogate hi); [|exact Hsingle].
  destruct s3 as [|n2 [|l1 [|l2 [|l3 [|l4 [|x after2]]]]]]; try exact Hsingle.
  destruct ((n1 =? backslash) && (n2 =? "u"))%char; [|exact Hsingle].
  destruct (hex4 l1 l2 l3 l4) as [lo|]; [|discriminate].
  destruct (is_low_surrogate lo); [|exact Hsingle].
  apply Hrec. cbn. lia.
Qed.

(** *** White space and constants *)

Lemma skip_ws_length (s : string) : String.length (skip_ws s) <= String.length s.
Proof.
  induction s as [|c s IH]; cbn; [lia|].
  destruct (is_json_ws c); cbn; lia.
Qed.

Lemma strip_prefix_length (lit s r : string) :
  strip_prefix lit s = Some r ->
  String.length s = String.length lit + String.length r.
Proof.
  revert s. induction lit as [|a lit IH]; intros s; cbn.
  - now intros [= ->].
  - destruct s as [|b s]; [discriminate|].
    destruct (a =? b)%char; [|discriminate].
    intros H. apply IH in H. cbn. lia.
Qed.

Lemma float_lexeme_constant (l : string) :
  l = "NaN" \/ l = "Infinity" \/ l = "-Infinity" -> float_lexeme l.
Proof.
  intros [->|[->| ->]]; (split; [do 2 eexists; split; reflexivity|reflexivity]).
Qed.

Lemma scan_constant_spec (s : string) (v : json) (r : string) :
  scan_constant s = Some (v, r) ->
  String.length r < String.length s /\ wf v.
Proof.
  unfold scan_constant.
  destruct (strip_prefix "null" s) eqn:E1.
  { intros [= <- <-]. apply strip_prefix_length in E1. cbn in E1.
    split; [lia|constructor]. }
  destruct (strip_prefix "true" s) eqn:E2.
  { intros [= <- <-]. apply strip_prefix_length in E2. cbn in E2.
    split; [lia|constructor]. }
  destruct (strip_prefix "false" s) eqn:E3.
  { intros [= <- <-]. apply strip_prefix_length in E3. cbn in E3.
    split; [lia|constructor]. }
  destruct (strip_prefix "NaN" s) eqn:E4.
  { intros [= <- <-]. apply strip_prefix_length in E4. cbn in E4.
    split; [lia|]. constructor. apply float_lexeme_constant. auto. }
  destruct (strip_prefix "Infinity" s) eqn:E5.
  { intros [= <- <-]. apply strip_prefix_length in E5. cbn in E5.
    split; [lia|]. constructor. apply float_lexeme_constant. auto. }
  destruct (strip_prefix "-Infinity" s) eqn:E6.
  { intros [= <- <-]. apply strip_prefix_length in E6. cbn in E6.
    split; [lia|]. constructor. apply float_lexeme_constant. auto. }
  intros H. destruct (scan_number_spec _ _ _ H) as [Hlen Hv].
  split; [exact Hlen|].
  destruct v; try contradiction; constructor.
  now apply scan_number_float_lexeme in H.
Qed.

(** *** The fuel suffices *)

Lemma scan_once_S (fuel depth : nat) (s : string) :
  scan_once (S fuel) depth s =
  match s with
  | EmptyString => Failed expecting_value s
  | String c s1 =>
    if (c =? dquote)%char then scan_map JStr (scanstring s s1)
    else if (c =? "{")%char then
      match depth with
      | O => Aborted (recursion_error "object")
      | S depth' =>
        match skip_ws s1 with
        | String c2 r as s2 =>
            if (c2 =? "}")%char then Scanned (JDict []) r
            else scan_map JDict (parse_members fuel depth' [] s2)
        | EmptyString => Failed expecting_name EmptyString
        end
      end
    else if (c =? "[")%char then
      match depth with
      | O => Aborted (recursion_error "array")
      | S depth' =>
        match skip_ws s1 with
        | String c2 r as s2 =>
            if (c2 =? "]")%char then Scanned (JList []) r
            else scan_map JList (parse_items fuel depth' s2)
        | EmptyString => Failed expecting_value EmptyString
        end
      end
    else
      match scan_constant s with
      | Some (v, r) =>
          if exceeds_int_limit v then Aborted (int_limit_error v) else Scanned v r
      | None => Failed expecting_value s
      end
  end.
Proof. reflexivity. Qed.

Lemma parse_items_S (fuel depth : nat) (s : string) :
  parse_items (S fuel) depth s =
  match scan_once fuel depth s with
  | Scanned v r =>
      match skip_ws r with
      | String c r2 as r1 =>
          if (c =? "]")%char then Scanned [v] r2
          else if (c =? ",")%char
          then scan_map (cons v) (parse_items fuel depth (skip_ws r2))
          else Failed expecting_comma r1
      | EmptyString => Failed expecting_comma EmptyString
      end
  | Failed m p => Failed m p
  | Aborted e => Aborted e
  | OutOfFuel => OutOfFuel
  end.
Proof. reflexivity. Qed.

Lemma parse_members_S (fuel depth : nat) (acc : dict) (s : string) :
  parse_members (S fuel) depth acc s =
  match s with
  | EmptyString => Failed expecting_name s
  | String c s1 =>
    if (c =? dquote)%char then
      match scanstring s s1 with
      | Scanned key r =>
        match skip_ws r with
        | EmptyString => Failed expecting_colon EmptyString
        | String c2 r2 as r1 =>
          if (c2 =? ":")%char then
            match scan_once fuel depth (skip_ws r2) with
            | Scanned v r3 =>
              let acc' := dict_set key v acc in
              match skip_ws r3 with
              | EmptyString => Failed expecting_comma EmptyString
              | String c4 r5 as r4 =>
                if (c4 =? "}")%char then Scanned acc' r5
                else if (c4 =? ",")%char
                then parse_members fuel depth acc' (skip_ws r5)
                else Failed expecting_comma r4
              end
            | Failed m p => Failed m p
            | Aborted e => Aborted e
            | OutOfFuel => OutOfFuel
            end
          else Failed expecting_colon r1
        end
      | Failed m p => Failed m p
      | Aborted e => Aborted e
      | OutOfFuel => OutOfFuel
      end
    else Failed expecting_name s
  end.
Proof. reflexivity. Qed.

Lemma progresses_map {A B : Type} (f : A -> B) (r : scan A) (s s' : string) :
  progresses r s -> String.length s <= String.length s' ->
  progresses (scan_map f r) s'.
Proof.
  intros [H1 H2] Hlen. split.
  - intros H. now apply scan_map_OutOfFuel in H.
  - intros b rest H. apply scan_map_Scanned in H as (a & H & _).
    specialize (H2 _ _ H). lia.
Qed.

Lemma progresses_Failed {A : Type} (m p s : string) : progresses (@Failed A m p) s.
Proof. split; discriminate. Qed.

Lemma progresses_Aborted {A : Type} (e : exn) (s : string) : progresses (@Aborted A e) s.
Proof. split; discriminate. Qed.

Lemma scan_once_fuel (fuel : nat) :
  (forall depth s, 2 * String.length s < fuel -> progresses (scan_once fuel depth s) s)
  /\ (forall depth s, 2 * String.length s + 1 < fuel ->
                      progresses (parse_items fuel depth s) s)
  /\ (forall depth acc s, 2 * String.length s + 1 < fuel ->
                          progresses (parse_members fuel depth acc s) s).
Proof.
  induction fuel as [|fuel (IHv & IHl & IHd)]; [repeat split; intros; lia|].
  split; [|split].
  - intros depth s Hs. rewrite scan_once_S.
    destruct s as [|c s1]; [apply progresses_Failed|]. cbn [String.length] in Hs.
    destruct (c =? dquote)%char.
    { apply progresses_map with (s := s1); [|cbn; lia].
      destruct (scanstring_progress (String.length s1) (String c s1) s1 (le_n _)).
      now split. }
    pose proof (skip_ws_length s1) as Hws.
    destruct (c =? "{")%char.
    { destruct depth as [|depth]; [apply progresses_Aborted|].
      destruct (skip_ws s1) as [|c2 r] eqn:E; [apply progresses_Failed|].
      cbn [String.length] in Hws.
      destruct (c2 =? "}")%char.
      - split; [discriminate|]. intros a rest [= <- <-]. cbn. lia.
      - apply progresses_map with (s := String c2 r); [|cbn; lia].
        apply IHd. cbn. lia. }
    destruct (c =? "[")%char.
    { destruct depth as [|depth]; [apply progresses_Aborted|].
      destruct (skip_ws s1) as [|c2 r] eqn:E; [apply progresses_Failed|].
      cbn [String.length] in Hws.
      destruct (c2 =? "]")%char.
      - split; [discriminate|]. intros a rest [= <- <-]. cbn. lia.
      - apply progresses_map with (s := String c2 r); [|cbn; lia].
        apply IHl. cbn. lia. }
    destruct (scan_constant (String c s1)) as [[v r]|] eqn:E; [|apply progresses_Failed].
    destruct (exceeds_int_limit v); [apply progresses_Aborted|].
    split; [discriminate|]. intros a rest [= <- <-].
    now apply scan_constant_spec in E as [E _].
  - intros depth s Hs. rewrite parse_items_S.
    destruct (IHv depth s ltac:(lia)) as [Hoof Hlen].
    destruct (scan_once fuel depth s) as [v r| | |];
      [|apply progresses_Failed|apply progresses_Aborted|congruence].
    specialize (Hlen _ _ eq_refl).
    pose proof (skip_ws_length r) as Hws.
    destruct (skip_ws r) as [|c r2]; [apply progresses_Failed|].
    cbn [String.length] in Hws.
    destruct (c =? "]")%char.
    { split; [discriminate|]. intros a rest [= <- <-]. lia. }
    destruct (c =? ",")%char; [|apply progresses_Failed].
    pose proof (skip_ws_length r2) as Hws2.
    apply progresses_map with (s := skip_ws r2); [|lia].
    apply IHl. lia.
  - intros depth acc s Hs. rewrite parse_members_S.
    destruct s as [|c s1]; [apply progresses_Failed|]. cbn [String.length] in Hs.
    destruct (c =? dquote)%char; [|apply progresses_Failed].
    destruct (scanstring_progress (String.length s1) (String c s1) s1 (le_n _))
      as [Hoof Hlen].
    destruct (scanstring (String c s1) s1) as [key r| | |];
      [|apply progresses_Failed|apply progresses_Aborted|congruence].
    specialize (Hlen _ _ eq_refl).
    pose proof (skip_ws_length r) as Hws.
    destruct (skip_ws r) as [|c2 r2]; [apply progresses_Failed|].
    cbn [String.length] in Hws.
    destruct (c2 =? ":")%char; [|apply progresses_Failed].
    pose proof (skip_ws_length r2) as Hws2.
    destruct (IHv depth (skip_ws r2) ltac:(lia)) as [Hoof3 Hlen3].
    destruct (scan_once fuel depth (skip_ws r2)) as [v r3| | |];
      [|apply progresses_Failed|apply progresses_Aborted|congruence].
    specialize (Hlen3 _ _ eq_refl). cbv zeta.
    pose proof (skip_ws_length r3) as Hws3.
    destruct (skip_ws r3) as [|c4 r5]; [apply progresses_Failed|].
    cbn [String.length] in Hws3.
    destruct (c4 =? "}")%char.
    { split; [discriminate|]. intros a rest [= <- <-]. cbn. lia. }
    destruct (c4 =? ",")%char; [|apply progresses_Failed].
    pose proof (skip_ws_length r5) as Hws5.
    destruct (IHd depth (dict_set key v acc) (skip_ws r5) ltac:(lia)) as [H1 H2].
    split; [exact H1|]. intros a rest H. specialize (H2 _ _ H). cbn. lia.
Qed.

(** *** What the decoder builds is well formed *)

Lemma dict_set_keys (k : string) (v : json) (acc : dict) :
  forall k', In k' (map fst (dict_set k v acc)) <-> k' = k \/ In k' (map fst acc).
Proof.
  induction acc as [|[k0 v0] acc IH]; intros k'; cbn.
  - intuition.
  - destruct (String.eqb_spec k0 k) as [->|Hne]; cbn.
    + intuition.
    + rewrite IH. intuition.
Qed.

Lemma dict_set_NoDup (k : string) (v : json) (acc : dict) :
  NoDup (map fst acc) -> NoDup (map fst (dict_set k v acc)).
Proof.
  induction acc as [|[k0 v0] acc IH]; cbn; intros H.
  - repeat constructor. intros [].
  - inversion H as [|? ? Hk0 Hacc]; subst.
    destruct (String.eqb_spec k0 k) as [->|Hne]; cbn.
    + now constructor.
    + constructor; [|now apply IH].
      rewrite dict_set_keys. intros [?|?]; congruence.
Qed.

Lemma dict_set_Forall (P : string * json -> Prop) (k : string) (v : json) (acc : dict) :
  P (k, v) -> Forall P acc -> Forall P (dict_set k v acc).
Proof.
  intros Hkv. induction acc as [|[k0 v0] acc IH]; cbn; intros H.
  - now repeat constructor.
  - inversion H; subst.
    destruct (k0 =? k)%string; constructor; auto.
Qed.

Lemma dict_set_fresh (k : string) (v : json) (acc : dict) :
  ~ In k (map fst acc) -> dict_set k v acc = (acc ++ [(k, v)])%list.
Proof.
  induction acc as [|[k0 v0] acc IH]; cbn; intros H; [reflexivity|].
  destruct (String.eqb_spec k0 k) as [->|Hne]; [tauto|].
  rewrite IH; tauto.
Qed.

Lemma scan_once_wf (fuel : nat) :
  (forall depth s v r, scan_once fuel depth s = Scanned v r -> wf v)
  /\ (forall depth s l r, parse_items fuel depth s = Scanned l r -> Forall wf l)
  /\ (forall depth acc s d r,
        parse_members fuel depth acc s = Scanned d r ->
        NoDup (map fst acc) -> Forall (fun kv => wf (snd kv)) acc ->
        NoDup (map fst d) /\ Forall (fun kv => wf (snd kv)) d).
Proof.
  induction fuel as [|fuel (IHv & IHl & IHd)]; [repeat split; discriminate|].
  split; [|split].
  - intros depth s v r. rewrite scan_once_S.
    destruct s as [|c s1]; [discriminate|].
    destruct (c =? dquote)%char.
    { intros H. apply scan_map_Scanned in H as (k & _ & ->). constructor. }
    destruct (c =? "{")%char.
    { destruct depth as [|depth]; [discriminate|].
      destruct (skip_ws s1) as [|c2 r2]; [discriminate|].
      destruct (c2 =? "}")%char.
      - intros [= <- <-]. constructor; constructor.
      - intros H. apply scan_map_Scanned in H as (d & H & ->).
        apply IHd in H as [H1 H2]; [now constructor|constructor|constructor]. }
    destruct (c =? "[")%char.
    { destruct depth as [|depth]; [discriminate|].
      destruct (skip_ws s1) as [|c2 r2]; [discriminate|].
      destruct (c2 =? "]")%char.
      - intros [= <- <-]. constructor; constructor.
      - intros H. apply scan_map_Scanned in H as (l & H & ->).
        constructor. now apply IHl in H. }
    destruct (scan_constant (String c s1)) as [[v' r']|] eqn:E; [|discriminate].
    destruct (exceeds_int_limit v'); [discriminate|].
    intros [= <- <-]. now apply scan_constant_spec in E.
  - intros depth s l r. rewrite parse_items_S.
    destruct (scan_once fuel depth s) as [v r0| | |] eqn:E; try discriminate.
    apply IHv in E.
    destruct (skip_ws r0) as [|c r2]; [discriminate|].
    destruct (c =? "]")%char.
    { intros [= <- <-]. now repeat constructor. }
    destruct (c =? ",")%char; [|discriminate].
    intros H. apply scan_map_Scanned in H as (l' & H & ->).
    constructor; [assumption|]. now apply IHl in H.
  - intros depth acc s d r. rewrite parse_members_S.
    destruct s as [|c s1]; [discriminate|].
    destruct (c =? dquote)%char; [|discriminate].
    destruct (scanstring (String c s1) s1) as [key r0| | |]; try discriminate.
    destruct (skip_ws r0) as [|c2 r2]; [discriminate|].
    destruct (c2 =? ":")%char; [|discriminate].
    destruct (scan_once fuel depth (skip_ws r2)) as [v r3| | |] eqn:E; try discriminate.
    apply IHv in E. cbv zeta.
    destruct (skip_ws r3) as [|c4 r5]; [discriminate|].
    intros H Hnd Hwf.
    assert (Hnd' := dict_set_NoDup key v acc Hnd).
    assert (Hwf' := dict_set_Forall (fun kv => wf (snd kv)) key v acc E Hwf).
    destruct (c4 =? "}")%char.
    { injection H as <- <-. now split. }
    destruct (c4 =? ",")%char; [|discriminate].
    now apply IHd in H.
Qed.

Lemma scan_constant_scalar (s : string) (v : json) (r : string) :
  scan_constant s = Some (v, r) ->
  match v with JList _ | JDict _ => False | _ => True end.
Proof.
  unfold scan_constant, scan_number.
  repeat match goal with
         | |- context [strip_prefix ?lit s] =>
             destruct (strip_prefix lit s); [now intros [= <- <-]|]
         end.
  destruct (scan_sign s) as [sg s1].
  destruct (scan_int s1) as [[ip s2]|]; [|discriminate].
  destruct (scan_frac s2) as [fr s3]. destruct (scan_exp s3) as [ex s4].
  destruct (is_empty fr && is_empty ex)%bool; now intros [= <- <-].
Qed.

(** What the decoder builds is within the depth it was given and the
    limit of the integers. *)
Lemma scan_once_within (fuel : nat) :
  (forall depth s v r, scan_once fuel depth s = Scanned v r -> within depth v)
  /\ (forall depth s l r,
        parse_items fuel depth s = Scanned l r -> Forall (within depth) l)
  /\ (forall depth acc s d r,
        parse_members fuel depth acc s = Scanned d r ->
        Forall (fun kv => within depth (snd kv)) acc ->
        Forall (fun kv => within depth (snd kv)) d).
Proof.
  induction fuel as [|fuel (IHv & IHl & IHd)]; [repeat split; discriminate|].
  split; [|split].
  - intros depth s v r. rewrite scan_once_S.
    destruct s as [|c s1]; [discriminate|].
    destruct (c =? dquote)%char.
    { intros H. apply scan_map_Scanned in H as (k & _ & ->). constructor. }
    destruct (c =? "{")%char.
    { destruct depth as [|depth]; [discriminate|].
      destruct (skip_ws s1) as [|c2 r2]; [discriminate|].
      destruct (c2 =? "}")%char.
      - intros [= <- <-]. constructor; constructor.
      - intros H. apply scan_map_Scanned in H as (d & H & ->).
        constructor. apply IHd in H; [assumption|constructor]. }
    destruct (c =? "[")%char.
    { destruct depth as [|depth]; [discriminate|].
      destruct (skip_ws s1) as [|c2 r2]; [discriminate|].
      destruct (c2 =? "]")%char.
      - intros [= <- <-]. constructor; constructor.
      - intros H. apply scan_map_Scanned in H as (l & H & ->).
        constructor. now apply IHl in H. }
    destruct (scan_constant (String c s1)) as [[v' r']|] eqn:E; [|discriminate].
    destruct (exceeds_int_limit v') eqn:Hlimit; [discriminate|].
    intros [= <- <-]. apply scan_constant_scalar in E.
    destruct v'; try constructor; try exact Hlimit; destruct E.
  - intros depth s l r. rewrite parse_items_S.
    destruct (scan_once fuel depth s) as [v r0| | |] eqn:E; try discriminate.
    apply IHv in E.
    destruct (skip_ws r0) as [|c r2]; [discriminate|].
    destruct (c =? "]")%char.
    { intros [= <- <-]. now repeat constructor. }
    destruct (c =? ",")%char; [|discriminate].
    intros H. apply scan_map_Scanned in H as (l' & H & ->).
    constructor; [assumption|]. now apply IHl in H.
  - intros depth acc s d r. rewrite parse_members_S.
    destruct s as [|c s1]; [discriminate|].
    destruct (c =? dquote)%char; [|discriminate].
    destruct (scanstring (String c s1) s1) as [key r0| | |]; try discriminate.
    destruct (skip_ws r0) as [|c2 r2]; [discriminate|].
    destruct (c2 =? ":")%char; [|discriminate].
    destruct (scan_once fuel depth (skip_ws r2)) as [v r3| | |] eqn:E; try discriminate.
    apply IHv in E. cbv zeta.
    destruct (skip_ws r3) as [|c4 r5]; [discriminate|].
    intros H Hacc.
    assert (Hacc' := dict_set_Forall (fun kv => within depth (snd kv)) key v acc E Hacc).
    destruct (c4 =? "}")%char.
    { now injection H as <- <-. }
    destruct (c4 =? ",")%char; [|discriminate].
    now apply IHd in H.
Qed.

(** ** The encoder and the decoder *)

Lemma json_dumps_list (x : json) (l : list json) :
  json_dumps (JList (x :: l)) = "[" ++ json_dumps x ++ dumps_items l.
Proof. reflexivity. Qed.

Lemma json_dumps_dict (k : string) (x : json) (d : dict) :
  json_dumps (JDict ((k, x) :: d))
  = "{" ++ encode_str k ++ ": " ++ json_dumps x ++ dumps_members d.
Proof. reflexivity. Qed.

Lemma value_head_spec (c : ascii) :
  value_head c = true ->
  (c =? "]")%char = false /\ is_json_ws c = false /\ (c =? "239")%char = false.
Proof.
  unfold value_head. intros H.
  apply Bool.andb_true_iff in H as [H H3].
  apply Bool.andb_true_iff in H as [H1 H2].
  now rewrite Bool.negb_true_iff in H1, H2, H3.
Qed.

Lemma scalar_head_spec (c : ascii) :
  scalar_head c = true ->
  (c =? dquote)%char = false /\ (c =? "{")%char = false
  /\ (c =? "[")%char = false /\ value_head c = true.
Proof.
  unfold scalar_head. intros H.
  apply Bool.andb_true_iff in H as [H H4].
  apply Bool.andb_true_iff in H as [H H3].
  apply Bool.andb_true_iff in H as [H1 H2].
  now rewrite Bool.negb_true_iff in H1, H2, H3.
Qed.

Lemma skip_ws_value (c : ascii) (t : string) :
  value_head c = true -> skip_ws (String c t) = String c t.
Proof.
  intros H. apply value_head_spec in H as (_ & H & _). cbn. now rewrite H.
Qed.

Lemma scan_once_scalar (fuel depth : nat) (c : ascii) (t rest : string) (v : json) :
  scalar_head c = true ->
  scan_constant (String c t ++ rest) = Some (v, rest) ->
  exceeds_int_limit v = false ->
  scans_to (scan_once fuel depth (String c t ++ rest)) v rest.
Proof.
  intros Hc H Hlimit. destruct fuel as [|fuel]; [now left|right].
  apply scalar_head_spec in Hc as (H1 & H2 & H3 & _).
  rewrite scan_once_S. cbn [append] in *. now rewrite H1, H2, H3, H, Hlimit.
Qed.

Lemma dumps_items_stop (l : list json) (rest : string) :
  head_not continues_number (dumps_items l ++ rest) = true
  /\ skip_ws (dumps_items l ++ rest) = dumps_items l ++ rest.
Proof. destruct l; split; reflexivity. Qed.

Lemma dumps_members_stop (d : dict) (rest : string) :
  head_not continues_number (dumps_members d ++ rest) = true
  /\ skip_ws (dumps_members d ++ rest) = dumps_members d ++ rest.
Proof. destruct d as [|[k y] d]; split; reflexivity. Qed.

Lemma scans_to_map {A B : Type} (f : A -> B) (r : scan A) (a : A) (rest : string) :
  scans_to r a rest -> scans_to (scan_map f r) (f a) rest.
Proof. intros [->| ->]; [now left|now right]. Qed.

Lemma parse_items_dumps (depth : nat) (l : list json) :
  Forall (roundtrips depth) l ->
  forall x fuel rest,
    roundtrips depth x ->
    scans_to (parse_items fuel depth (json_dumps x ++ dumps_items l ++ rest))
             (x :: l) rest.
Proof.
  induction 1 as [|y l Hy Hl IH]; intros x fuel rest [_ Hx].
  - destruct fuel as [|fuel]; [now left|]. rewrite parse_items_S.
    destruct (Hx fuel ("]" ++ rest) eq_refl) as [E|E]; cbn [dumps_items]; rewrite E.
    + now left.
    + now right.
  - destruct fuel as [|fuel]; [now left|]. rewrite parse_items_S.
    destruct (dumps_items_stop (y :: l) rest) as [Hstop _].
    destruct (Hx fuel _ Hstop) as [E|E]; rewrite E; [now left|].
    cbn [dumps_items append skip_ws is_json_ws Ascii.eqb Bool.eqb orb].
    destruct Hy as [(c & t & Ec & Hc) Hy']. rewrite !append_assoc.
    rewrite Ec. cbn [append]. rewrite (skip_ws_value _ _ Hc).
    change (String c (t ++ dumps_items l ++ rest)) with (String c t ++ dumps_items l ++ rest).
    rewrite <- Ec.
    apply scans_to_map. apply IH. split; [eauto|assumption].
Qed.

Lemma encode_str_app (k rest : string) :
  encode_str k ++ rest = String dquote (escape k ++ String dquote rest).
Proof. unfold encode_str. cbn [append]. now rewrite append_assoc. Qed.

Lemma parse_members_dumps (depth : nat) (d : dict) :
  Forall (fun kv => roundtrips depth (snd kv)) d ->
  forall k x acc fuel rest,
    roundtrips depth x ->
    NoDup (map fst acc ++ k :: map fst d)%list ->
    scans_to (parse_members fuel depth acc
                (encode_str k ++ ": " ++ json_dumps x ++ dumps_members d ++ rest))
             (acc ++ (k, x) :: d)%list rest.
Proof.
  induction 1 as [|[k' y] d Hy Hd IH]; intros k x acc fuel rest [(c & t & Ec & Hc) Hx] Hnd.
  all: destruct fuel as [|fuel]; [now left|].
  all: rewrite parse_members_S, encode_str_app.
  all: change (dquote =? dquote)%char with true; cbv iota.
  all: rewrite scanstring_escape.
  all: cbn [append skip_ws is_json_ws Ascii.eqb Bool.eqb orb].
  all: rewrite Ec; cbn [append]; rewrite (skip_ws_value _ _ Hc).
  all: match goal with
       | _ : json_dumps _ = String ?c0 ?t0 |- context [String ?c0 (?t0 ++ ?X)] =>
           change (String c0 (t0 ++ X)) with (String c0 t0 ++ X)
       end.
  all: rewrite <- Ec.
  all: assert (Hfresh : dict_set k x acc = (acc ++ [(k, x)])%list)
    by (apply dict_set_fresh; apply NoDup_remove_2 in Hnd;
        intros Hin; apply Hnd, in_or_app; now left).
  all: match goal with
       | |- context [dumps_members ?d0 ++ ?r0] =>
           destruct (dumps_members_stop d0 r0) as [Hstop Hskip]
       end.
  all: destruct (Hx fuel _ Hstop) as [E|E]; rewrite E; [now left|].
  all: cbv zeta; rewrite Hfresh, Hskip.
  - right. reflexivity.
  - cbn [dumps_members append Ascii.eqb Bool.eqb].
    cbn [skip_ws is_json_ws Ascii.eqb Bool.eqb orb].
    rewrite !append_assoc.
    replace (acc ++ (k, x) :: (k', y) :: d)%list
      with ((acc ++ [(k, x)]) ++ (k', y) :: d)%list
      by (now rewrite <- List.app_assoc).
    rewrite encode_str_app. cbn [skip_ws is_json_ws Ascii.eqb Bool.eqb orb dquote].
    rewrite <- encode_str_app.
    specialize (IH k' y (acc ++ [(k, x)])%list fuel rest Hy).
    cbn [append] in IH |- *. rewrite ?append_assoc. apply IH.
    rewrite map_app, <- List.app_assoc. exact Hnd.
Qed.

Lemma Forall_impl_Forall {A : Type} (P Q : A -> Prop) (l : list A) :
  Forall (fun a => P a -> Q a) l -> Forall P l -> Forall Q l.
Proof.
  induction 1 as [|a l Ha Hl IH]; intros H; inversion H; subst; constructor; auto.
Qed.

(** The text of a well-formed value scans back to the value, when the
    value is within the depth and the limit of the integers. *)
Lemma wf_roundtrips (v : json) :
  wf v -> forall depth, within depth v -> roundtrips depth v.
Proof.
  induction v as [|b|z|l|s|l IH|d IH] using json_induction; intros Hwf depth Hin.
  - split; [exists "n"%char, "ull"; now split|].
    intros fuel rest _. now apply (scan_once_scalar fuel depth "n" "ull" rest JNull).
  - destruct b.
    + split; [exists "t"%char, "rue"; now split|].
      intros fuel rest _.
      now apply (scan_once_scalar fuel depth "t" "rue" rest (JBool true)).
    + split; [exists "f"%char, "alse"; now split|].
      intros fuel rest _.
      now apply (scan_once_scalar fuel depth "f" "alse" rest (JBool false)).
  - destruct (scan_constant_int_repr z EmptyString eq_refl) as (_ & c & t & Ez & Hc).
    split.
    + exists c, t. split; [exact Ez|]. now apply scalar_head_spec in Hc.
    + intros fuel rest Hrest. cbn [json_dumps]. rewrite Ez.
      apply scan_once_scalar; [exact Hc| |now inversion Hin]. rewrite <- Ez.
      now apply scan_constant_int_repr.
  - inversion Hwf as [| | |? [(c & t & -> & Hc) R]| | |]; subst.
    split.
    + exists c, t. split; [reflexivity|]. now apply scalar_head_spec in Hc.
    + intros fuel rest Hrest. cbn [json_dumps].
      apply scan_once_scalar; [exact Hc| |reflexivity]. now apply R.
  - split; [exists dquote, (escape s ++ str1 dquote); now split|].
    intros fuel rest _. destruct fuel as [|fuel]; [now left|right].
    cbn [json_dumps]. rewrite encode_str_app, scan_once_S.
    change (dquote =? dquote)%char with true. cbv iota.
    now rewrite scanstring_escape.
  - inversion Hwf as [| | | | |? Hl|]; subst.
    inversion Hin as [| | | | |depth' ? Hd|]; subst.
    assert (Hrt : Forall (roundtrips depth') l).
    { clear Hwf Hin. induction IH as [|x l Hx _ IHl]; [constructor|].
      inversion Hl; inversion Hd; subst. constructor; auto. }
    clear IH Hl Hd.
    destruct l as [|x l].
    { split; [exists "["%char, "]"; now split|].
      intros fuel rest _. destruct fuel; [now left|now right]. }
    inversion Hrt as [|? ? Hx Hl]; subst.
    split; [exists "["%char, (json_dumps x ++ dumps_items l); now split|].
    intros fuel rest _. destruct fuel as [|fuel]; [now left|].
    rewrite json_dumps_list, scan_once_S. cbn [append Ascii.eqb Bool.eqb dquote].
    rewrite !append_assoc.
    destruct Hx as [(c & t & Ec & Hc) Hx'].
    rewrite Ec. cbn [append]. rewrite (skip_ws_value _ _ Hc).
    destruct (value_head_spec _ Hc) as (-> & _ & _).
    change (String c (t ++ dumps_items l ++ rest)) with (String c t ++ dumps_items l ++ rest).
    rewrite <- Ec. apply scans_to_map. apply parse_items_dumps; [assumption|].
    split; [eauto|assumption].
  - inversion Hwf as [| | | | | |? Hnd Hd]; subst.
    inversion Hin as [| | | | | |depth' ? Hdd]; subst.
    assert (Hrt : Forall (fun kv => roundtrips depth' (snd kv)) d).
    { clear Hwf Hin Hnd. induction IH as [|x l Hx _ IHl]; [constructor|].
      inversion Hd; inversion Hdd; subst. constructor; auto. }
    clear IH Hd Hdd.
    destruct d as [|[k x] d].
    { split; [exists "{"%char, "}"; now split|].
      intros fuel rest _. destruct fuel; [now left|now right]. }
    inversion Hrt as [|? ? Hx Hl]; subst.
    split; [exists "{"%char, (encode_str k ++ ": " ++ json_dumps x ++ dumps_members d);
            now split|].
    intros fuel rest _. destruct fuel as [|fuel]; [now left|].
    rewrite json_dumps_dict, scan_once_S. cbn [append Ascii.eqb Bool.eqb dquote].
    rewrite !append_assoc. rewrite encode_str_app.
    cbn [skip_ws is_json_ws Ascii.eqb Bool.eqb orb dquote].
    rewrite <- encode_str_app.
    apply scans_to_map.
    pose proof (parse_members_dumps depth' d Hl k x [] fuel rest Hx Hnd) as H.
    cbn [append List.app] in H |- *. rewrite ?append_assoc. exact H.
Qed.

(** The fuel [json_loads] gives suffices: the last case of its definition
    does not occur. *)
Lemma json_loads_total (s : string) :
  json_loads s <> Raises (RuntimeError "out of fuel").
Proof.
  unfold json_loads.
  destruct (strip_prefix utf8_bom s); [discriminate|].
  pose proof (skip_ws_length s) as Hws.
  destruct (proj1 (scan_once_fuel (S (2 * String.length s))) (3 + spare_depth) (skip_ws s))
    as [Hoof Hlen]; [lia|].
  destruct (scan_once (S (2 * String.length s)) (3 + spare_depth) (skip_ws s))
    as [v r| |e|] eqn:E; [|discriminate| |congruence].
  - destruct (skip_ws r); discriminate.
  - intros [= ->].
    revert E. generalize (skip_ws s). generalize (3 + spare_depth).
    generalize (S (2 * String.length s)). clear.
    intros fuel.
    assert (forall depth,
               (forall s, scan_once fuel depth s <> Aborted (RuntimeError "out of fuel"))
               /\ (forall s, parse_items fuel depth s
                             <> Aborted (RuntimeError "out of fuel"))
               /\ (forall acc s, parse_members fuel depth acc s
                                 <> Aborted (RuntimeError "out of fuel"))) as H.
    { induction fuel as [|fuel IH]; intros depth; [repeat split; discriminate|].
      split; [|split].
      - intros s. rewrite scan_once_S.
        destruct s as [|c s1]; [discriminate|].
        destruct (c =? dquote)%char.
        { destruct (scanstring (String c s1) s1) eqn:Es; try discriminate.
          exfalso. revert Es. apply scanstring_not_aborted. }
        destruct (c =? "{")%char.
        { destruct depth as [|depth]; [discriminate|].
          destruct (skip_ws s1) as [|c2 r2]; [discriminate|].
          destruct (c2 =? "}")%char; [discriminate|].
          destruct (IH depth) as (_ & _ & Hd). specialize (Hd [] (String c2 r2)).
          destruct (parse_members fuel depth [] (String c2 r2)); cbn; congruence. }
        destruct (c =? "[")%char.
        { destruct depth as [|depth]; [discriminate|].
          destruct (skip_ws s1) as [|c2 r2]; [discriminate|].
          destruct (c2 =? "]")%char; [discriminate|].
          destruct (IH depth) as (_ & Hl & _). specialize (Hl (String c2 r2)).
          destruct (parse_items fuel depth (String c2 r2)); cbn; congruence. }
        destruct (scan_constant (String c s1)) as [[v r]|]; [|discriminate].
        destruct (exceeds_int_limit v); [|discriminate].
        unfold int_limit_error. discriminate.
      - intros s. rewrite parse_items_S.
        destruct (IH depth) as (Hv & Hl & _). specialize (Hv s).
        destruct (scan_once fuel depth s) as [v r| | |]; try discriminate; [|congruence].
        destruct (skip_ws r) as [|c r2]; [discriminate|].
        destruct (c =? "]")%char; [discriminate|].
        destruct (c =? ",")%char; [|discriminate].
        specialize (Hl (skip_ws r2)).
        destruct (parse_items fuel depth (skip_ws r2)); cbn; congruence.
      - intros acc s. rewrite parse_members_S.
        destruct s as [|c s1]; [discriminate|].
        destruct (c =? dquote)%char; [|discriminate].
        destruct (scanstring (String c s1) s1) as [key r| | |] eqn:Es; try discriminate.
        2:{ exfalso. revert Es. apply scanstring_not_aborted. }
        destruct (skip_ws r) as [|c2 r2]; [discriminate|].
        destruct (c2 =? ":")%char; [|discriminate].
        destruct (IH depth) as (Hv & _ & Hd). specialize (Hv (skip_ws r2)).
        destruct (scan_once fuel depth (skip_ws r2)) as [v r3| | |];
          try discriminate; [|congruence].
        cbv zeta. destruct (skip_ws r3) as [|c4 r5]; [discriminate|].
        destruct (c4 =? "}")%char; [discriminate|].
        destruct (c4 =? ",")%char; [|discriminate].
        apply Hd. }
    intros depth s0. exact (proj1 (H depth) s0).
Qed.

(** What [json.loads] raises: a decoding error, or one of the two
    exceptions of the limits of the interpreter. *)
Lemma json_loads_raises (s : string) (e : exn) :
  json_loads s = Raises e ->
  (exists message, e = JSONDecodeError message)
  \/ (exists message, e = RecursionError message)
  \/ (exists message, e = ValueError message).
Proof.
  intros E. pose proof (json_loads_total s) as Htotal. unfold json_loads in *.
  destruct (strip_prefix utf8_bom s).
  { injection E as <-. left. unfold decode_error. eexists. reflexivity. }
  destruct (scan_once (S (2 * String.length s)) (3 + spare_depth) (skip_ws s))
    as [v r| |e'|] eqn:Es.
  - destruct (skip_ws r); [discriminate|]. injection E as <-.
    left. unfold decode_error. eexists. reflexivity.
  - injection E as <-. left. unfold decode_error. eexists. reflexivity.
  - injection E as <-. right.
    revert Es. generalize (skip_ws s). generalize (3 + spare_depth).
    generalize (S (2 * String.length s)). clear. intros fuel.
    assert (forall depth,
               (forall s e, scan_once fuel depth s = Aborted e ->
                            (exists m, e = RecursionError m) \/ (exists m, e = ValueError m))
               /\ (forall s e, parse_items fuel depth s = Aborted e ->
                               (exists m, e = RecursionError m)
                               \/ (exists m, e = ValueError m))
               /\ (forall acc s e, parse_members fuel depth acc s = Aborted e ->
                                   (exists m, e = RecursionError m)
                                   \/ (exists m, e = ValueError m))) as H.
    { induction fuel as [|fuel IH]; intros depth; [repeat split; discriminate|].
      split; [|split].
      - intros s e. rewrite scan_once_S.
        destruct s as [|c s1]; [discriminate|].
        destruct (c =? dquote)%char.
        { destruct (scanstring (String c s1) s1) eqn:Es; try discriminate.
          exfalso. revert Es. apply scanstring_not_aborted. }
        destruct (c =? "{")%char.
        { destruct depth as [|depth]; [intros [= <-]; left; eexists; reflexivity|].
          destruct (skip_ws s1) as [|c2 r2]; [discriminate|].
          destruct (c2 =? "}")%char; [discriminate|].
          destruct (IH depth) as (_ & _ & Hd). specialize (Hd [] (String c2 r2)).
          destruct (parse_members fuel depth [] (String c2 r2)); try discriminate.
          intros [= <-]. now apply Hd. }
        destruct (c =? "[")%char.
        { destruct depth as [|depth]; [intros [= <-]; left; eexists; reflexivity|].
          destruct (skip_ws s1) as [|c2 r2]; [discriminate|].
          destruct (c2 =? "]")%char; [discriminate|].
          destruct (IH depth) as (_ & Hl & _). specialize (Hl (String c2 r2)).
          destruct (parse_items fuel depth (String c2 r2)); try discriminate.
          intros [= <-]. now apply Hl. }
        destruct (scan_constant (String c s1)) as [[v r]|]; [|discriminate].
        destruct (exceeds_int_limit v); [|discriminate].
        intros [= <-]. right. eexists. reflexivity.
      - intros s e. rewrite parse_items_S.
        destruct (IH depth) as (Hv & Hl & _). specialize (Hv s).
        destruct (scan_once fuel depth s) as [v r| |e2|]; try discriminate.
        2:{ intros [= <-]. now apply Hv. }
        destruct (skip_ws r) as [|c r2]; [discriminate|].
        destruct (c =? "]")%char; [discriminate|].
        destruct (c =? ",")%char; [|discriminate].
        specialize (Hl (skip_ws r2)).
        destruct (parse_items fuel depth (skip_ws r2)); try discriminate.
        intros [= <-]. now apply Hl.
      - intros acc s e. rewrite parse_members_S.
        destruct s as [|c s1]; [discriminate|].
        destruct (c =? dquote)%char; [|discriminate].
        destruct (scanstring (String c s1) s1) as [key r| | |] eqn:Es; try discriminate.
        2:{ exfalso. revert Es. apply scanstring_not_aborted. }
        destruct (skip_ws r) as [|c2 r2]; [discriminate|].
        destruct (c2 =? ":")%char; [|discriminate].
        destruct (IH depth) as (Hv & _ & Hd). specialize (Hv (skip_ws r2)).
        destruct (scan_once fuel depth (skip_ws r2)) as [v r3| |e2|]; try discriminate.
        2:{ intros [= <-]. now apply Hv. }
        cbv zeta. destruct (skip_ws r3) as [|c4 r5]; [discriminate|].
        destruct (c4 =? "}")%char; [discriminate|].
        destruct (c4 =? ",")%char; [|discriminate].
        apply Hd. }
    intros depth s0 Es. exact (proj1 (H depth) s0 e' Es).
  - congruence.
Qed.

(** [json.loads(json.dumps(v)) == v] *)
Lemma json_loads_dumps (v : json) :
  wf v -> within (3 + spare_depth) v -> json_loads (json_dumps v) = Returns v.
Proof.
  intros Hwf Hin. destruct (wf_roundtrips v Hwf _ Hin) as [(c & t & Ec & Hc) Hrt].
  unfold json_loads.
  destruct (value_head_spec _ Hc) as (_ & Hws & Hbom).
  assert (strip_prefix utf8_bom (json_dumps v) = None) as ->.
  { rewrite Ec. unfold utf8_bom. cbn [strip_prefix].
    now rewrite Ascii.eqb_sym, Hbom. }
  assert (skip_ws (json_dumps v) = json_dumps v) as ->.
  { rewrite Ec. now apply skip_ws_value. }
  destruct (proj1 (scan_once_fuel (S (2 * String.length (json_dumps v))))
              (3 + spare_depth) (json_dumps v))
    as [Hoof _]; [lia|].
  specialize (Hrt (S (2 * String.length (json_dumps v))) EmptyString eq_refl).
  rewrite append_nil_r in Hrt.
  destruct Hrt as [E|E]; [congruence|]. now rewrite E.
Qed.

(** What [json.loads] returns is well formed, and within the limits. *)
Lemma json_loads_wf (s : string) (v : json) : json_loads s = Returns v -> wf v.
Proof.
  unfold json_loads.
  destruct (strip_prefix utf8_bom s); [discriminate|].
  destruct (scan_once (S (2 * String.length s)) (3 + spare_depth) (skip_ws s))
    as [v' r| | |] eqn:E; try discriminate.
  destruct (skip_ws r); [|discriminate].
  intros [= <-]. now apply (proj1 (scan_once_wf _)) in E.
Qed.

Lemma json_loads_within (s : string) (v : json) :
  json_loads s = Returns v -> within (3 + spare_depth) v.
Proof.
  unfold json_loads.
  destruct (strip_prefix utf8_bom s); [discriminate|].
  destruct (scan_once (S (2 * String.length s)) (3 + spare_depth) (skip_ws s))
    as [v' r| | |] eqn:E; try discriminate.
  destruct (skip_ws r); [|discriminate].
  intros [= <-]. now apply (proj1 (scan_once_within _)) in E.
Qed.

(** ** The response normaliser *)

(** C6: the validation holds exactly of the texts that [json.loads] parses
    to a dict; it rejects [not json] and the array [[1,2,3]] and accepts the
    empty object. *)
Theorem validate_accepts_objects_only :
  (forall response,
      _validate_json_response response = true
      <-> exists d, json_loads response = Returns (JDict d))
  /\ _validate_json_response "not json" = false
  /\ _validate_json_response "[1,2,3]" = false
  /\ _validate_json_response "{}" = true.
Proof.
  split; [|repeat split; vm_compute; reflexivity].
  intros response. unfold _validate_json_response.
  destruct (json_loads response) as [[]|]; split;
    try discriminate; try (intros [d [=]]); eauto.
Qed.

(** C7: the scenario's reply is normalised to the one rule [fix X], the
    default analysis and the default fix. *)
Theorem scenario_normalized :
  parse_ai_response scenario_reply
  = Returns (mkResult [JStr "fix X"]
                      "No error analysis provided"
                      [mkFix (JStr "No specific fixes suggested")
                             (JStr "medium") (JStr "Unknown")]).
Proof. vm_compute. reflexivity. Qed.

Lemma dict_find_wf (k : string) (d : dict) (v : json) :
  Forall (fun kv => wf (snd kv)) d -> dict_find k d = Some v -> wf v.
Proof.
  induction 1 as [|[k' x] d Hx Hd IH]; cbn; [discriminate|].
  destruct (k' =? k)%string; [now intros [= <-]|assumption].
Qed.

Lemma dict_get_wf (k : string) (d : dict) (default : json) :
  Forall (fun kv => wf (snd kv)) d -> wf default -> wf (dict_get k d default).
Proof.
  intros Hd Hdef. unfold dict_get.
  destruct (dict_find k d) eqn:E; [|assumption].
  now apply (dict_find_wf k d).
Qed.

Lemma validated_fixes_wf (l : list json) :
  Forall wf l -> Forall wf_fix (validated_fixes l).
Proof.
  induction 1 as [|x l Hx Hl IH]; cbn; [constructor|].
  destruct x; try assumption; constructor; try assumption.
  - repeat split; constructor.
  - inversion Hx; subst.
    repeat split; apply dict_get_wf; try assumption; constructor.
Qed.

(** What the normaliser returns: well-formed values, at least one rule and
    an analysis that is not empty. *)
Lemma parse_ai_response_result (answer : string) (r : NormalizedResult) :
  parse_ai_response answer = Returns r ->
  wf_result r /\ transformation_rules r <> [] /\ error_analysis r <> EmptyString.
Proof.
  unfold parse_ai_response, bind.
  destruct (json_loads answer) as [v|e] eqn:E.
  - apply json_loads_wf in E.
    destruct v; cbn; try discriminate.
    inversion E as [| | | | | |? Hnd Hd]; subst.
    intros [= <-]. cbn [transformation_rules error_analysis suggested_fixes].
    split; [split|split].
    + pose proof (dict_get_wf "transformation_rules" d JNull Hd ltac:(constructor)) as H.
      destruct (dict_get "transformation_rules" d JNull) as [|b|z|f|s|l|d'];
        cbn; rewrite ?Bool.orb_true_r; try (repeat constructor; assumption).
      destruct l; cbn; [repeat constructor|]. now inversion H.
    + pose proof (dict_get_wf "suggested_fixes" d JNull Hd ltac:(constructor)) as H.
      destruct (dict_get "suggested_fixes" d JNull) as [|b|z|f|s|l|d'];
        cbn; rewrite ?Bool.orb_true_r; try (repeat constructor).
      destruct l; cbn [truthy negb orb as_list]; [repeat constructor|].
      apply validated_fixes_wf. now inversion H.
    + destruct (dict_get "transformation_rules" d JNull) as [|b|z|f|s|l|d'];
        cbn; rewrite ?Bool.orb_true_r; try discriminate.
      destruct l; cbn; discriminate.
    + destruct (dict_get "error_analysis" d JNull) as [|b|z|f|s|l|d'];
        cbn; rewrite ?Bool.orb_true_r; try discriminate.
      destruct s; cbn; discriminate.
  - destruct e; try discriminate. intros [= <-]. cbn.
    split; [split|split]; try discriminate; repeat constructor.
Qed.

Lemma result_json_wf (r : NormalizedResult) : wf_result r -> wf (result_json r).
Proof.
  intros [Hrules Hfixes]. unfold result_json.
  constructor.
  - cbn. repeat constructor; cbn; intuition discriminate.
  - repeat constructor; cbn; [assumption|].
    apply Forall_map. eapply Forall_impl; [|exact Hfixes].
    intros f (H1 & H2 & H3). unfold fix_json. constructor.
    + cbn. repeat constructor; cbn; intuition discriminate.
    + repeat constructor; assumption.
Qed.

Lemma dict_get_within (depth : nat) (k : string) (d : dict) (default : json) :
  Forall (fun kv => within depth (snd kv)) d -> within depth default ->
  within depth (dict_get k d default).
Proof.
  intros Hd Hdef. unfold dict_get.
  induction Hd as [|[k' x] d Hx _ IH]; cbn; [assumption|].
  destruct (k' =? k)%string; assumption.
Qed.

(** The rules and the fixes of a result are within what is left of the
    depth at their place in the reply. *)
Lemma parse_ai_response_within (answer : string) (r : NormalizedResult) :
  parse_ai_response answer = Returns r -> within_result r.
Proof.
  unfold parse_ai_response, bind, within_result.
  destruct (json_loads answer) as [v|e] eqn:E.
  - apply json_loads_within in E.
    destruct v; cbn [normalize_parsed py_get bind]; try discriminate.
    inversion E as [| | | | | |depth ? Hd]; subst.
    intros [= <-]. cbn [transformation_rules error_analysis suggested_fixes]. split.
    + pose proof (dict_get_within _ "transformation_rules" d JNull Hd ltac:(constructor))
        as H.
      destruct (dict_get "transformation_rules" d JNull) as [|b|z|f|s|l|d'];
        cbn; rewrite ?Bool.orb_true_r; try (repeat constructor; assumption).
      destruct l; cbn; [repeat constructor|]. now inversion H.
    + pose proof (dict_get_within _ "suggested_fixes" d JNull Hd ltac:(constructor)) as H.
      destruct (dict_get "suggested_fixes" d JNull) as [|b|z|f|s|l|d'];
        cbn; rewrite ?Bool.orb_true_r; try (repeat constructor).
      destruct l as [|x l]; cbn [truthy negb orb as_list]; [repeat constructor|].
      inversion H as [| | | | |? ? Hl|]; subst. clear H.
      induction Hl as [|y l' Hy _ IH]; [constructor|].
      destruct y; cbn [validated_fixes]; try exact IH; constructor; try exact IH.
      * repeat split; constructor.
      * inversion Hy as [| | | | | |? ? Hy']; subst.
        repeat split; apply dict_get_within; try assumption; constructor.
  - destruct e; try discriminate. intros [= <-]. cbn.
    split; repeat constructor.
Qed.

Lemma result_json_within (r : NormalizedResult) :
  within_result r -> within (3 + spare_depth) (result_json r).
Proof.
  intros [Hrules Hfixes]. unfold result_json.
  constructor. repeat constructor; cbn [snd].
  - exact Hrules.
  - apply Forall_map. eapply Forall_impl; [|exact Hfixes].
    intros f (H1 & H2 & H3). unfold fix_json. constructor.
    repeat constructor; assumption.
Qed.

Lemma validated_fixes_fix_json (fixes : list SuggestedFix) :
  validated_fixes (map fix_json fixes) = fixes.
Proof.
  induction fixes as [|[f p i] fixes IH]; cbn; [reflexivity|].
  now rewrite IH.
Qed.

(** The normaliser leaves a result as it is, when it holds a rule, an
    analysis and a fix. *)
Lemma normalize_parsed_result_json (r : NormalizedResult) :
  transformation_rules r <> [] -> error_analysis r <> EmptyString ->
  suggested_fixes r <> [] ->
  normalize_parsed (result_json r) = Returns r.
Proof.
  destruct r as [rules analysis fixes]. cbn [transformation_rules error_analysis suggested_fixes].
  intros Hr Ha Hf. unfold normalize_parsed, result_json. cbn.
  destruct rules as [|x rules]; [congruence|].
  destruct analysis as [|c analysis]; [congruence|].
  destruct fixes as [|f fixes]; [congruence|].
  cbn. do 2 f_equal.
  exact (validated_fixes_fix_json (f :: fixes)).
Qed.

(** C8, as the code has it: a result of the normaliser that holds a fix is
    normalised to itself from its serialised form. *)
Theorem normalize_idempotent_with_fixes (answer : string) (r : NormalizedResult) :
  parse_ai_response answer = Returns r ->
  suggested_fixes r <> [] ->
  parse_ai_response (serialize r) = Returns r.
Proof.
  intros H Hfixes.
  destruct (parse_ai_response_result answer r H) as (Hwf & Hrules & Hanalysis).
  unfold parse_ai_response, serialize.
  rewrite (json_loads_dumps _ (result_json_wf r Hwf)
             (result_json_within r (parse_ai_response_within answer r H))).
  cbn [bind]. now rewrite normalize_parsed_result_json.
Qed.

Lemma length_repeat_text (n : nat) (s : string) :
  String.length (repeat_text n s) = n * String.length s.
Proof. induction n as [|n IH]; cbn [repeat_text]; [reflexivity|]. rewrite length_append, IH. lia. Qed.

(** One opening bracket more than the depth: the scan ends in the
    [RecursionError] of the array it cannot enter. *)
Lemma scan_once_too_deep (depth : nat) :
  forall fuel rest,
    2 * depth < fuel ->
    scan_once fuel depth (repeat_text (S depth) "[" ++ rest)
    = Aborted (recursion_error "array").
Proof.
  induction depth as [|depth IH]; intros fuel rest Hfuel.
  - destruct fuel as [|fuel]; [lia|]. reflexivity.
  - destruct fuel as [|[|fuel]]; try lia.
    rewrite scan_once_S.
    change (repeat_text (S (S depth)) "[" ++ rest)
      with (String "[" (repeat_text (S depth) "[" ++ rest)).
    cbv iota. change ("[" =? dquote)%char with false.
    change ("[" =? "{")%char with false. change ("[" =? "[")%char with true. cbv iota.
    change (repeat_text (S depth) "[" ++ rest)
      with (String "[" (repeat_text depth "[" ++ rest)).
    cbn [skip_ws is_json_ws Ascii.eqb Bool.eqb orb].
    change ("[" =? "]")%char with false. cbv iota.
    rewrite parse_items_S.
    change (String "[" (repeat_text depth "[" ++ rest))
      with (repeat_text (S depth) "[" ++ rest).
    rewrite IH by lia. reflexivity.
Qed.

Lemma json_loads_too_deep :
  json_loads (repeat_text (4 + spare_depth) "[") = Raises (recursion_error "array").
Proof.
  unfold json_loads.
  set (t := repeat_text (4 + spare_depth) "[").
  assert (Ht : t = String "[" (repeat_text (3 + spare_depth) "[")) by reflexivity.
  assert (strip_prefix utf8_bom t = None) as -> by (rewrite Ht; reflexivity).
  assert (skip_ws t = t) as -> by (rewrite Ht; reflexivity).
  replace (scan_once (S (2 * String.length t)) (3 + spare_depth) t)
    with (scan_once (S (2 * String.length t)) (3 + spare_depth) (t ++ EmptyString))
    by (now rewrite append_nil_r).
  unfold t at 2.
  change (repeat_text (4 + spare_depth) "[") with (repeat_text (S (3 + spare_depth)) "[").
  rewrite (scan_once_too_deep (3 + spare_depth)); [reflexivity|].
  unfold t. rewrite length_repeat_text. cbn [String.length]. lia.
Qed.

(** C5 fails on the code: for a text that parses to a value that is no
    dict, such as the array [[1,2,3]], the normaliser raises the
    [AttributeError] of the missing method [get]; for a text the decoder
    gives up on for a limit of the interpreter, such as one of more
    opening brackets than it has room for, it raises the exception of the
    decoder, which is no [JSONDecodeError].  For every text it does one of
    these things or returns a result. *)
Theorem parse_ai_response_raises_on_array :
  parse_ai_response "[1,2,3]"
  = Raises (AttributeError "'list' object has no attribute 'get'")
  /\ parse_ai_response (repeat_text (4 + spare_depth) "[")
     = Raises (recursion_error "array")
  /\ forall answer,
       (exists r, parse_ai_response answer = Returns r)
       \/ (exists v, json_loads answer = Returns v
                     /\ isinstance_dict v = false
                     /\ parse_ai_response answer
                        = Raises (AttributeError
                                    ("'" ++ type_name v
                                     ++ "' object has no attribute 'get'")))
       \/ (exists message,
              (json_loads answer = Raises (RecursionError message)
               /\ parse_ai_response answer = Raises (RecursionError message))
              \/ (json_loads answer = Raises (ValueError message)
                  /\ parse_ai_response answer = Raises (ValueError message))).
Proof.
  split; [vm_compute; reflexivity|]. split.
  - unfold parse_ai_response, bind. now rewrite json_loads_too_deep.
  - intros answer. unfold parse_ai_response, bind.
    destruct (json_loads answer) as [v|e] eqn:E.
    + destruct v; try (right; left; eexists; repeat split; reflexivity).
      left. cbn. eauto.
    + destruct (json_loads_raises answer e E) as [[m ->]|[[m ->]|[m ->]]].
      * left. cbn. eauto.
      * right. right. exists m. left. now split.
      * right. right. exists m. right. now split.
Qed.

(** * Further properties *)

(** ** The whole run of the orchestrator *)

Lemma stored_rows_app (ins : nat -> option Z) (a b : list (Z * string * string)) :
  forall n,
    stored_rows ins n (a ++ b)
    = (stored_rows ins n a ++ stored_rows ins (n + length a) b)%list.
Proof.
  induction a as [|[[z t] m] a IH]; intros n; cbn [app stored_rows length].
  - now rewrite Nat.add_0_r.
  - rewrite IH, <- List.app_assoc. do 3 f_equal. lia.
Qed.

(** The loop with everything it leaves in the world: the requests made and
    the rows sent to the error sink. *)
Lemma fallback_loop_trace (self : LLMService) (prompt : string) (wid : option Z) :
  forall (chain : list string) (attempts : list Attempt) (last : option string) (w : World),
  exists k answer err used w',
    fallback_loop self prompt wid chain attempts last w
    = (Returns (answer, err, used,
                (attempts ++ map (attempt_of w prompt) (firstn k chain))%list), w')
    /\ provider w' = provider w
    /\ inserts w' = inserts w
    /\ logged w'
       = (logged w
          ++ forwarded_rows wid (map (attempt_of w prompt) (firstn k chain)))%list
    /\ error_logs w'
       = option_map
           (fun rows =>
              (rows ++ stored_rows (inserts w) (length (logged w))
                         (forwarded_rows wid (map (attempt_of w prompt) (firstn k chain))))%list)
           (error_logs w).
Proof.
  assert (Hrows : forall w m,
             forwarded_rows wid [attempt_of w prompt m]
             = match reply w prompt m, wid with
               | Raises _, Some z =>
                   if (z =? 0)%Z then [] else [(z, "API_Error", invoker_error w prompt m)]
               | _, _ => []
               end).
  { intros w m. unfold forwarded_rows, sink_rows, attempt_of.
    destruct (reply w prompt m), wid as [z|]; cbn; try reflexivity;
      destruct (z =? 0)%Z; reflexivity. }
  assert (Hsplit : forall a l,
             forwarded_rows wid (a :: l)
             = (forwarded_rows wid [a] ++ forwarded_rows wid l)%list).
  { intros a l. unfold forwarded_rows, sink_rows.
    destruct wid as [z|]; [|reflexivity]. destruct (z =? 0)%Z; [reflexivity|].
    cbn. now rewrite List.app_nil_r. }
  assert (Hstep : forall m w,
             exists w',
               query_perplexity_model self prompt m wid w
               = (Returns (match reply w prompt m with
                           | Returns a => (Some a, None, m)
                           | Raises _ => (None, Some (invoker_error w prompt m), m)
                           end), w')
               /\ provider w' = provider w /\ inserts w' = inserts w
               /\ logged w' = (logged w ++ forwarded_rows wid [attempt_of w prompt m])%list
               /\ error_logs w'
                  = option_map
                      (fun rows =>
                         (rows ++ stored_rows (inserts w) (length (logged w))
                                    (forwarded_rows wid [attempt_of w prompt m]))%list)
                      (error_logs w)).
  { intros m w.
    destruct (invoker_step self prompt m wid w) as (w' & E & Hp & _ & Hn & Hl & He).
    exists w'. rewrite Hrows. repeat split; try assumption.
    - rewrite Hl. destruct (reply w prompt m), wid as [z|];
        rewrite ?List.app_nil_r; try reflexivity.
      destruct (z =? 0)%Z; now rewrite ?List.app_nil_r.
    - rewrite He. destruct (reply w prompt m), wid as [z|], (error_logs w);
        cbn; rewrite ?List.app_nil_r; try reflexivity;
        destruct (z =? 0)%Z; cbn; rewrite ?List.app_nil_r; try reflexivity.
      destruct (inserts w (length (logged w))); cbn; now rewrite ?List.app_nil_r. }
  induction chain as [|m chain IH]; intros attempts last w.
  - exists 0. cbn [firstn map fallback_loop ret].
    assert (forwarded_rows wid [] = []) as ->
      by (unfold forwarded_rows; destruct wid as [z|]; [destruct (z =? 0)%Z|]; reflexivity).
    do 4 eexists. rewrite !List.app_nil_r. repeat split.
    destruct (error_logs w); cbn; now rewrite ?List.app_nil_r.
  - destruct (Hstep m w) as (w1 & E1 & Hp1 & Hn1 & Hl1 & He1).
    rewrite fallback_loop_cons, E1.
    assert (Hcont : forall last',
               exists k answer err used w',
                 fallback_loop self prompt wid chain
                   (attempts ++ [attempt_of w prompt m])%list last' w1
                 = (Returns (answer, err, used,
                             (attempts ++ map (attempt_of w prompt) (firstn k (m :: chain)))%list),
                    w')
                 /\ provider w' = provider w /\ inserts w' = inserts w
                 /\ logged w'
                    = (logged w ++ forwarded_rows wid
                                     (map (attempt_of w prompt) (firstn k (m :: chain))))%list
                 /\ error_logs w'
                    = option_map
                        (fun rows =>
                           (rows ++ stored_rows (inserts w) (length (logged w))
                                      (forwarded_rows wid
                                         (map (attempt_of w prompt) (firstn k (m :: chain)))))%list)
                        (error_logs w)).
    { intros last'.
      destruct (IH (attempts ++ [attempt_of w prompt m])%list last' w1)
        as (k & answer & err & used & w2 & E2 & Hp2 & Hn2 & Hl2 & He2).
      exists (S k), answer, err, used, w2. cbn [firstn map].
      rewrite (map_ext _ _ (fun x => attempt_of_provider w w1 prompt x Hp1)) in E2, Hl2, He2.
      rewrite Hsplit.
      split; [rewrite E2, <- List.app_assoc; reflexivity|].
      split; [congruence|]. split; [congruence|]. split.
      - rewrite Hl2, Hl1, <- List.app_assoc. reflexivity.
      - rewrite He2, He1, Hn1, Hl1, length_app, stored_rows_app.
        destruct (error_logs w); cbn; [|reflexivity].
        now rewrite <- List.app_assoc. }
    destruct (reply w prompt m) as [a|e] eqn:R.
    + assert (Ha : mkAttempt m (is_not_none (Some a)) None = attempt_of w prompt m)
        by (unfold attempt_of; rewrite R; reflexivity).
      cbv beta iota zeta. rewrite Ha.
      destruct (optional_truthy (Some a) && answer_valid (Some a))%bool eqn:Hacc.
      * exists 1, (Some a), None, (Some m), w1. cbn [firstn map].
        repeat split; assumption.
      * destruct (optional_truthy (Some a)); apply Hcont.
    + assert (Ha : mkAttempt m (is_not_none (@None string)) (Some (invoker_error w prompt m))
                   = attempt_of w prompt m)
        by (unfold attempt_of; rewrite R; reflexivity).
      cbv beta iota zeta. rewrite Ha. cbn [optional_truthy andb]. apply Hcont.
Qed.

Lemma first_accepted_split (f : string -> bool) (l : list string) :
  (forall m, In m l -> f m = false)
  \/ exists pre m post,
       l = (pre ++ m :: post)%list
       /\ (forall m', In m' pre -> f m' = false)
       /\ f m = true.
Proof.
  induction l as [|x l IH].
  - left. intros m [].
  - destruct (f x) eqn:Hx.
    + right. exists [], x, l. repeat split; auto. intros m' [].
    + destruct IH as [H|(pre & m & post & -> & Hpre & Hm)].
      * left. intros m [<-|Hin]; auto.
      * right. exists (x :: pre), m, post. repeat split; auto.
        intros m' [<-|Hin]; auto.
Qed.

(** The loop over a chain none of whose models is accepted. *)
Lemma fallback_loop_exhausted (self : LLMService) (prompt : string) (wid : option Z)
    (chain : list string) (attempts : list Attempt) (last : option string) (w : World) :
  (forall m, In m chain -> accepted w prompt m = false) ->
  exists w',
    fallback_loop self prompt wid chain attempts last w
    = (Returns (None,
                Some ("All models failed. Attempts: "
                      ++ repr_attempts (attempts ++ map (attempt_of w prompt) chain)
                      ++ ". Last error: "
                      ++ str_optional (last_error_after w prompt chain last)),
                None,
                (attempts ++ map (attempt_of w prompt) chain)%list), w')
    /\ provider w' = provider w
    /\ requests w' = (requests w ++ map (chat_request prompt) chain)%list.
Proof.
  intros H.
  destruct (fallback_loop_skips self prompt wid [] chain attempts last w H)
    as (w' & E & Hp & Hr).
  rewrite List.app_nil_r in E. exists w'. rewrite E. cbn [fallback_loop]. unfold ret.
  auto.
Qed.

(** The loop over a chain whose first accepted model is [m]. *)
Lemma fallback_loop_accepts (self : LLMService) (prompt : string) (wid : option Z)
    (pre : list string) (m : string) (post : list string)
    (attempts : list Attempt) (last : option string) (w : World) :
  (forall m', In m' pre -> accepted w prompt m' = false) ->
  accepted w prompt m = true ->
  exists a w',
    reply w prompt m = Returns a
    /\ a <> EmptyString
    /\ _validate_json_response a = true
    /\ fallback_loop self prompt wid (pre ++ m :: post)%list attempts last w
       = (Returns (Some a, None, Some m,
                   (attempts ++ map (attempt_of w prompt) pre
                    ++ [mkAttempt m true None])%list), w')
    /\ provider w' = provider w
    /\ requests w' = (requests w ++ map (chat_request prompt) (pre ++ [m]))%list.
Proof.
  intros Hpre Hacc.
  destruct (fallback_loop_skips self prompt wid (m :: post) pre attempts last w Hpre)
    as (w1 & E1 & Hp1 & Hr1).
  destruct (invoker_step self prompt m wid w1) as (w2 & E2 & Hp2 & Hr2 & _).
  unfold accepted in Hacc.
  rewrite (reply_provider _ _ _ _ Hp1) in E2.
  destruct (reply w prompt m) as [a|e] eqn:R; [|discriminate].
  apply andb_prop in Hacc. destruct Hacc as [Hne Hvalid].
  exists a, w2. split; [reflexivity|]. split; [|split; [assumption|split; [|split]]].
  - intros ->. discriminate.
  - rewrite E1, fallback_loop_cons, E2. cbv beta iota zeta.
    cbn [optional_truthy answer_valid is_not_none]. rewrite Hne, Hvalid.
    cbn [andb]. now rewrite <- List.app_assoc.
  - congruence.
  - rewrite Hr2, Hr1, map_app, <- List.app_assoc. reflexivity.
Qed.

Lemma model_chain_length (self : LLMService) : length (model_chain self) <= 5.
Proof.
  unfold model_chain. cbn [length].
  pose proof (filter_length_le
                (fun model => negb (model =? primary_model self)%string)
                MODEL_FALLBACK_CHAIN) as H.
  change (length MODEL_FALLBACK_CHAIN) with 4 in H. lia.
Qed.

Lemma NoDup_firstn {A : Type} (k : nat) (l : list A) : NoDup l -> NoDup (firstn k l).
Proof.
  intros H. rewrite <- (firstn_skipn k l) in H. now apply NoDup_app_remove_r in H.
Qed.

(** X1: a call of the orchestrator always returns, having made at least one
    request; its attempts name, one for one and in order, the models it
    asked the provider for; these are the first models of the chain, each
    asked once, five at most; the provider is left as it was. *)
Theorem attempts_mirror_requests
    (self : LLMService) (prompt : string) (wid : option Z) (w : World) :
  exists answer err used attempts w',
    query_with_fallback self prompt wid w = (Returns (answer, err, used, attempts), w')
    /\ attempts <> []
    /\ map model attempts = models_requested w w'
    /\ (exists rest, model_chain self = (models_requested w w' ++ rest)%list)
    /\ NoDup (models_requested w w')
    /\ length attempts <= 5
    /\ provider w' = provider w.
Proof.
  unfold query_with_fallback.
  destruct (fallback_loop_result self prompt wid (model_chain self) [] None w)
    as (k & answer & err & used & w' & E & Hp & Hr & Hk).
  exists answer, err, used, (map (attempt_of w prompt) (firstn k (model_chain self))), w'.
  rewrite (models_requested_app prompt w w' _ Hr), map_model_attempt_of.
  assert (0 < k) as Hpos by (apply Hk; unfold model_chain; discriminate).
  repeat split.
  - exact E.
  - destruct k; [lia|]. unfold model_chain. cbn. discriminate.
  - exists (skipn k (model_chain self)). now rewrite firstn_skipn.
  - apply NoDup_firstn, model_chain_NoDup.
  - rewrite length_map, length_firstn. pose proof (model_chain_length self). lia.
  - exact Hp.
Qed.

(** The two runs of the orchestrator: up to the first accepted model, or
    through the whole chain. *)
Lemma query_with_fallback_cases
    (self : LLMService) (prompt : string) (wid : option Z) (w : World) :
  (exists pre m post a w',
      model_chain self = (pre ++ m :: post)%list
      /\ (forall m', In m' pre -> accepted w prompt m' = false)
      /\ reply w prompt m = Returns a
      /\ a <> EmptyString
      /\ _validate_json_response a = true
      /\ query_with_fallback self prompt wid w
         = (Returns (Some a, None, Some m,
                     (map (attempt_of w prompt) pre ++ [mkAttempt m true None])%list), w'))
  \/ ((forall m, In m (model_chain self) -> accepted w prompt m = false)
      /\ exists w',
           query_with_fallback self prompt wid w
           = (Returns (None,
                       Some ("All models failed. Attempts: "
                             ++ repr_attempts (map (attempt_of w prompt) (model_chain self))
                             ++ ". Last error: "
                             ++ str_optional
                                  (last_error_after w prompt (model_chain self) None)),
                       None,
                       map (attempt_of w prompt) (model_chain self)), w')).
Proof.
  unfold query_with_fallback.
  destruct (first_accepted_split (accepted w prompt) (model_chain self))
    as [Hall|(pre & m & post & Hchain & Hpre & Hacc)].
  - right. split; [exact Hall|].
    destruct (fallback_loop_exhausted self prompt wid (model_chain self) [] None w Hall)
      as (w' & E & _).
    exists w'. exact E.
  - left.
    destruct (fallback_loop_accepts self prompt wid pre m post [] None w Hpre Hacc)
      as (a & w' & R & Hne & Hvalid & E & _).
    exists pre, m, post, a, w'. rewrite Hchain. repeat split; assumption.
Qed.




(** X2: the two ways a call of the orchestrator ends.  With an answer: the
    answer is not empty and passes the validation, no error is returned,
    the model used is a model of the chain whose reply the answer is, its
    attempt is the last one, and no model tried before it was accepted.
    Without an answer: no model is named, every model of the chain was
    tried, in order, none was accepted, and the error is the message built
    from the attempts. *)
Theorem answer_or_chain_exhausted
    (self : LLMService) (prompt : string) (wid : option Z) (w : World) :
  exists answer err used attempts w',
    query_with_fallback self prompt wid w = (Returns (answer, err, used, attempts), w')
    /\ match answer with
       | Some a =>
           a <> EmptyString
           /\ _validate_json_response a = true
           /\ err = None
           /\ exists m earlier,
                used = Some m
                /\ In m (model_chain self)
                /\ reply w prompt m = Returns a
                /\ attempts = (earlier ++ [mkAttempt m true None])%list
                /\ Forall (fun e => accepted w prompt (model e) = false) earlier
       | None =>
           used = None
           /\ err = Some ("All models failed. Attempts: " ++ repr_attempts attempts
                          ++ ". Last error: "
                          ++ str_optional
                               (last_error_after w prompt (model_chain self) None))
           /\ map model attempts = model_chain self
           /\ forall m, In m (model_chain self) -> accepted w prompt m = false
       end.
Proof.
  destruct (query_with_fallback_cases self prompt wid w)
    as [(pre & m & post & a & w' & Hchain & Hpre & R & Hne & Hvalid & E)
       |(Hall & w' & E)].
  - do 5 eexists. split; [exact E|].
    repeat split; try assumption.
    exists m, (map (attempt_of w prompt) pre). repeat split; try assumption.
    + rewrite Hchain. apply in_or_app. right. now left.
    + apply Forall_forall. intros e He. apply in_map_iff in He.
      destruct He as (x & <- & Hx).
      replace (model (attempt_of w prompt x)) with x; [now apply Hpre|].
      unfold attempt_of. now destruct (reply w prompt x).
  - do 5 eexists. split; [exact E|].
    repeat split; [apply map_model_attempt_of | exact Hall].
Qed.

Lemma validated_answer_parses (a : string) :
  _validate_json_response a = true ->
  exists d, json_loads a = Returns (JDict d)
            /\ parse_ai_response a = normalize_parsed (JDict d).
Proof.
  unfold _validate_json_response, parse_ai_response, bind.
  destruct (json_loads a) as [v|e]; [|discriminate].
  destruct v; try discriminate. intros _. eexists. split; [reflexivity|].
  cbn. reflexivity.
Qed.

(** X3: the orchestrator and the normaliser fit: an answer the orchestrator
    returns is the text of a JSON object, and the normaliser returns a
    result for it (it neither raises nor takes its parse-failure branch)
    that holds at least one rule and an analysis that is not empty. *)
Theorem returned_answer_normalises
    (self : LLMService) (prompt : string) (wid : option Z) (w w' : World)
    (a : string) (err used : option string) (attempts : list Attempt) :
  query_with_fallback self prompt wid w = (Returns (Some a, err, used, attempts), w') ->
  exists d r,
    json_loads a = Returns (JDict d)
    /\ parse_ai_response a = Returns r
    /\ transformation_rules r <> []
    /\ error_analysis r <> EmptyString.
Proof.
  intros H.
  assert (Hvalid : _validate_json_response a = true).
  { destruct (query_with_fallback_cases self prompt wid w)
      as [(pre & m & post & a0 & w0 & _ & _ & _ & _ & Hvalid & E)|(_ & w0 & E)];
      rewrite H in E; [|discriminate].
    injection E as -> _ _ _ _. exact Hvalid. }
  destruct (validated_answer_parses a Hvalid) as (d & Hloads & Hparse).
  assert (exists r, parse_ai_response a = Returns r) as [r Hr].
  { rewrite Hparse. cbn. eauto. }
  exists d, r. split; [assumption|]. split; [assumption|].
  now apply parse_ai_response_result in Hr.
Qed.

Lemma In_firstn {A : Type} (x : A) (k : nat) (l : list A) :
  In x (firstn k l) -> In x l.
Proof.
  intros H. rewrite <- (firstn_skipn k l). apply in_or_app. now left.
Qed.

Lemma forwarded_rows_no_error (wid : option Z) (l : list Attempt) :
  Forall (fun a => error a = None) l -> forwarded_rows wid l = [].
Proof.
  intros H. unfold forwarded_rows. destruct wid as [z|]; [|reflexivity].
  destruct (z =? 0)%Z; [reflexivity|]. unfold sink_rows.
  induction H as [|a l Ha _ IH]; cbn; [reflexivity|]. now rewrite Ha.
Qed.

Lemma last_error_after_empty (w : World) (prompt : string) (l : list string)
    (last : option string) :
  (forall m, In m l -> reply w prompt m = Returns EmptyString) ->
  last_error_after w prompt l last = last.
Proof.
  revert last. induction l as [|m l IH]; intros last H; cbn [last_error_after];
    [reflexivity|].
  rewrite (H m (or_introl eq_refl)). cbn. apply IH. intros x Hx. apply H. now right.
Qed.

(** X4: when the reply of every model of the chain is the empty text, the
    call fails although no request failed: every attempt is recorded with
    [success] true and no error, no model is named, the message ends in
    [Last error: None], and nothing goes to the error sink. *)
Theorem empty_replies_exhaust_chain
    (self : LLMService) (prompt : string) (wid : option Z) (w : World) :
  (forall m, In m (model_chain self) -> reply w prompt m = Returns EmptyString) ->
  let attempts := map (fun m => mkAttempt m true None) (model_chain self) in
  exists w',
    query_with_fallback self prompt wid w
    = (Returns (None,
                Some ("All models failed. Attempts: " ++ repr_attempts attempts
                      ++ ". Last error: None"),
                None, attempts), w')
    /\ logged w' = logged w
    /\ error_logs w' = error_logs w.
Proof.
  intros H attempts.
  assert (Hmap : map (attempt_of w prompt) (model_chain self) = attempts).
  { apply map_ext_in. intros m Hm. unfold attempt_of. now rewrite (H m Hm). }
  assert (Hall : forall m, In m (model_chain self) -> accepted w prompt m = false).
  { intros m Hm. unfold accepted. now rewrite (H m Hm). }
  unfold query_with_fallback.
  destruct (fallback_loop_exhausted self prompt wid (model_chain self) [] None w Hall)
    as (w' & E & _).
  destruct (fallback_loop_trace self prompt wid (model_chain self) [] None w)
    as (k & answer & err & used & w2 & E2 & _ & _ & Hl & He).
  rewrite E in E2. apply (f_equal snd) in E2. cbn [snd] in E2. subst w2.
  cbn [app] in E.
  rewrite Hmap, (last_error_after_empty _ _ _ _ H) in E.
  rewrite forwarded_rows_no_error in Hl, He
    by (apply Forall_forall; intros a Ha; apply in_map_iff in Ha;
        destruct Ha as (x & <- & Hx); apply In_firstn in Hx;
        unfold attempt_of; now rewrite (H x Hx)).
  exists w'. split; [exact E|]. split.
  - now rewrite Hl, List.app_nil_r.
  - rewrite He. destruct (error_logs w); cbn; now rewrite ?List.app_nil_r.
Qed.

Lemma sink_rows_length (z : Z) (w : World) (prompt : string) (l : list string) :
  length (sink_rows z (map (attempt_of w prompt) l))
  = length (filter (fun a => negb (success a)) (map (attempt_of w prompt) l)).
Proof.
  unfold sink_rows. induction l as [|m l IH]; cbn [map flat_map filter]; [reflexivity|].
  rewrite length_app, IH. unfold attempt_of at 1 3.
  destruct (reply w prompt m); reflexivity.
Qed.

Lemma stored_rows_failing (ins : nat -> option Z) (rows : list (Z * string * string)) :
  forall n, (forall k, ins k = None) -> stored_rows ins n rows = [].
Proof.
  induction rows as [|[[z t] m] rows IH]; intros n H; cbn [stored_rows]; [reflexivity|].
  now rewrite H, IH.
Qed.

(** X5: what a call of the orchestrator leaves in the error sink.  Under a
    workflow identifier that is not zero [log_error] is called once for each
    attempt that holds an error, in the order of the attempts, with that
    error as its message: as many calls as attempts with [success] false.
    Without an identifier, or with zero, it is not called.  The table, when
    there is a pool, gains the rows of the calls whose INSERT does not
    fail, in that order, each with the time of its own call; when every
    INSERT fails it is left as it was, and the call of the orchestrator
    goes on all the same. *)
Theorem failed_attempts_reach_sink
    (self : LLMService) (prompt : string) (wid : option Z) (w : World) :
  exists res attempts w',
    query_with_fallback self prompt wid w = (Returns (res, attempts), w')
    /\ logged w' = (logged w ++ forwarded_rows wid attempts)%list
    /\ error_logs w'
       = option_map
           (fun rows =>
              (rows ++ stored_rows (inserts w) (length (logged w))
                         (forwarded_rows wid attempts))%list)
           (error_logs w)
    /\ ((forall n, inserts w n = None) -> error_logs w' = error_logs w)
    /\ length (forwarded_rows wid attempts)
       = (if workflow_truthy wid
          then length (filter (fun a => negb (success a)) attempts)
          else 0).
Proof.
  unfold query_with_fallback.
  destruct (fallback_loop_trace self prompt wid (model_chain self) [] None w)
    as (k & answer & err & used & w' & E & _ & _ & Hl & He).
  cbn [app] in E.
  exists (answer, err, used), (map (attempt_of w prompt) (firstn k (model_chain self))), w'.
  split; [exact E|]. split; [exact Hl|]. split; [exact He|]. split.
  - intros Hfail. rewrite He, (stored_rows_failing _ _ _ Hfail).
    destruct (error_logs w); cbn; now rewrite ?List.app_nil_r.
  - unfold forwarded_rows, workflow_truthy. destruct wid as [z|]; [|reflexivity].
    destruct (z =? 0)%Z; [reflexivity|]. apply sink_rows_length.
Qed.

(** ** The model invoker *)

(** X6: one call of the invoker never raises and makes exactly one request,
    for the model it was given, which it names in its result.  It returns
    an answer or an error, never both and never neither.  The answer is the
    cleaned content of the first choice, and then nothing is sent to the
    error sink; the error is the fixed prefix, the model name and the text
    of the exception, and it is this text that [log_error] is called with
    when the workflow identifier is not zero.  The table gains the row of
    that call when there is a pool and the INSERT does not fail; whether
    it does changes nothing in what the invoker returns. *)
Theorem invoker_answer_xor_error
    (self : LLMService) (prompt m : string) (wid : option Z) (w : World) :
  exists answer err w',
    query_perplexity_model self prompt m wid w = (Returns (answer, err, m), w')
    /\ requests w' = (requests w ++ [chat_request prompt m])%list
    /\ provider w' = provider w
    /\ match answer, err with
       | Some a, None =>
           (exists content rest,
               provider w (chat_request prompt m) = Returns (Some content :: rest)
               /\ a = clean_response content)
           /\ logged w' = logged w
           /\ error_logs w' = error_logs w
       | None, Some e =>
           (exists x,
               reply w prompt m = Raises x
               /\ e = "Perplexity API error with model " ++ m ++ ": " ++ exn_str x)
           /\ logged w' = (logged w ++ forwarded_rows wid [mkAttempt m false (Some e)])%list
           /\ error_logs w'
              = option_map
                  (fun rows =>
                     (rows ++ stored_rows (inserts w) (length (logged w))
                                (forwarded_rows wid [mkAttempt m false (Some e)]))%list)
                  (error_logs w)
       | _, _ => False
       end.
Proof.
  destruct (invoker_step self prompt m wid w) as (w' & E & Hp & Hr & _ & Hl & He).
  unfold invoker_error in *.
  destruct (reply w prompt m) as [a|x] eqn:R.
  - exists (Some a), None, w'. repeat split; try assumption.
    unfold reply, bind in R.
    destruct (provider w (chat_request prompt m)) as [choices|]; [|discriminate].
    destruct choices as [|[content|] rest]; try discriminate.
    exists content, rest. cbn in R. injection R as <-. split; reflexivity.
  - eexists None, (Some _), w'. split; [exact E|]. split; [exact Hr|]. split; [exact Hp|].
    split; [exists x; split; reflexivity|].
    unfold forwarded_rows, sink_rows. cbn [flat_map error app].
    destruct wid as [z|].
    + destruct (z =? 0)%Z.
      * rewrite Hl, He, List.app_nil_r. split; [reflexivity|].
        destruct (error_logs w); cbn; now rewrite ?List.app_nil_r.
      * rewrite Hl, He. split; [reflexivity|].
        destruct (error_logs w); [|reflexivity]. cbn.
        destruct (inserts w (length (logged w))); cbn; now rewrite ?List.app_nil_r.
    + rewrite Hl, He, List.app_nil_r. split; [reflexivity|].
      destruct (error_logs w); cbn; now rewrite ?List.app_nil_r.
Qed.

Lemma fallback_loop_provider_only (self : LLMService) (prompt : string)
    (wid1 wid2 : option Z) :
  forall (chain : list string) (attempts : list Attempt) (last : option string)
         (w1 w2 : World),
    provider w1 = provider w2 ->
    fst (fallback_loop self prompt wid1 chain attempts last w1)
    = fst (fallback_loop self prompt wid2 chain attempts last w2).
Proof.
  induction chain as [|m chain IH]; intros attempts last w1 w2 Hp; [reflexivity|].
  destruct (invoker_step self prompt m wid1 w1) as (w1' & E1 & Hp1 & _).
  destruct (invoker_step self prompt m wid2 w2) as (w2' & E2 & Hp2 & _).
  rewrite !fallback_loop_cons, E1, E2.
  rewrite (reply_provider w2 w1 prompt m Hp), (invoker_error_provider w2 w1 prompt m Hp).
  assert (Hp' : provider w1' = provider w2') by congruence.
  destruct (reply w2 prompt m) as [a|x]; cbv beta iota zeta.
  - destruct (optional_truthy (Some a) && answer_valid (Some a))%bool; [reflexivity|].
    destruct (optional_truthy (Some a)); now apply IH.
  - cbn [optional_truthy andb]. now apply IH.
Qed.

(** X7: the result of the orchestrator (answer, error, model used and
    attempts) depends on the provider only: the workflow identifier, the
    state of the error sink (with or without a pool), the requests made
    before and the time do not change it. *)
Theorem result_depends_on_provider_only
    (self : LLMService) (prompt : string) (wid1 wid2 : option Z) (w1 w2 : World) :
  provider w1 = provider w2 ->
  fst (query_with_fallback self prompt wid1 w1)
  = fst (query_with_fallback self prompt wid2 w2).
Proof. apply fallback_loop_provider_only. Qed.

(** X8: the request the invoker sends for a model: the model as given, the
    fixed system prompt, the prompt as the user message, the temperature
    0.1, and 4096 tokens for a model of the catalog, 2048 (the default
    configuration) for any other; the configured models are those of the
    fallback catalog. *)
Theorem chat_request_config (prompt m : string) :
  req_model (chat_request prompt m) = m
  /\ req_system (chat_request prompt m) = system_prompt
  /\ req_user (chat_request prompt m) = prompt
  /\ req_temperature (chat_request prompt m) = "0.1"
  /\ (In m MODEL_FALLBACK_CHAIN -> req_max_tokens (chat_request prompt m) = 4096%Z)
  /\ (~ In m MODEL_FALLBACK_CHAIN -> req_max_tokens (chat_request prompt m) = 2048%Z)
  /\ (forall k, In k (map fst MODEL_CONFIGS) <-> In k MODEL_FALLBACK_CHAIN).
Proof.
  assert (Hcfg : (In m MODEL_FALLBACK_CHAIN
                  /\ config_get m MODEL_CONFIGS (mkConfig 2048 "0.1") = mkConfig 4096 "0.1")
                 \/ (~ In m MODEL_FALLBACK_CHAIN
                     /\ config_get m MODEL_CONFIGS (mkConfig 2048 "0.1")
                        = mkConfig 2048 "0.1")).
  { unfold MODEL_CONFIGS, MODEL_FALLBACK_CHAIN, config_get.
    destruct (String.eqb_spec "sonar-large-online" m) as [<-|H1];
      [left; split; [cbn; tauto|reflexivity]|].
    destruct (String.eqb_spec "sonar-small-online" m) as [<-|H2];
      [left; split; [cbn; tauto|reflexivity]|].
    destruct (String.eqb_spec "sonar-large-chat" m) as [<-|H3];
      [left; split; [cbn; tauto|reflexivity]|].
    destruct (String.eqb_spec "llama-3.1-70b-versatile" m) as [<-|H4];
      [left; split; [cbn; tauto|reflexivity]|].
    right. split; [|reflexivity]. cbn [In]. tauto. }
  unfold chat_request. cbn [req_model req_system req_user req_temperature req_max_tokens].
  split; [reflexivity|]. split; [reflexivity|]. split; [reflexivity|].
  split; [|split; [|split]].
  - destruct Hcfg as [[_ ->]|[_ ->]]; reflexivity.
  - intros Hin. destruct Hcfg as [[_ ->]|[Hn _]]; [reflexivity|contradiction].
  - intros Hn. destruct Hcfg as [[Hin _]|[_ ->]]; [contradiction|reflexivity].
  - intros k. unfold MODEL_CONFIGS, MODEL_FALLBACK_CHAIN. cbn [map fst In]. tauto.
Qed.

(** ** The response normaliser *)

(** X9: what the normaliser and the validation do with a text is settled
    by the decoder, which ends in one of three ways.  It raises a
    [JSONDecodeError], the one exception the normaliser catches: the result
    is the parse-failure result, whose analysis ends with the message of
    the decoder.  It returns a value: the outcome is that of the body of
    the [try] block on the value, and the parse-failure result is not
    taken.  It raises the [RecursionError] or the [ValueError] of a limit
    of the interpreter: the normaliser lets it through to its caller.  The
    validation, which catches everything, rejects the text in the first
    and in the last case. *)
Theorem decode_failure_gives_parse_failure (answer : string) :
  (exists message,
      json_loads answer = Raises (JSONDecodeError message)
      /\ parse_ai_response answer = Returns (parse_failure message)
      /\ error_analysis (parse_failure message)
         = "Failed to parse AI response as JSON: " ++ message
      /\ _validate_json_response answer = false)
  \/ (exists v,
         json_loads answer = Returns v
         /\ parse_ai_response answer = normalize_parsed v)
  \/ (exists e,
         json_loads answer = Raises e
         /\ ((exists message, e = RecursionError message)
             \/ (exists message, e = ValueError message))
         /\ parse_ai_response answer = Raises e
         /\ _validate_json_response answer = false).
Proof.
  destruct (json_loads answer) as [v|e] eqn:E.
  - right. left. exists v. split; [reflexivity|].
    unfold parse_ai_response, bind. rewrite E.
    destruct v; try reflexivity.
  - destruct (json_loads_raises answer e E) as [[message ->]|Hlimit].
    + left. exists message.
      unfold parse_ai_response, _validate_json_response, bind. rewrite E.
      repeat split.
    + right. right. exists e.
      unfold parse_ai_response, _validate_json_response, bind. rewrite E.
      split; [reflexivity|]. split; [exact Hlimit|].
      destruct Hlimit as [[message ->]|[message ->]]; split; reflexivity.
Qed.

(** X10: a result the normaliser returns always holds at least one rule
    and an analysis that is not empty.  Its list of fixes is empty in one
    case only: the text is an object whose [suggested_fixes] is a list, not
    empty, none of whose elements is a dict or a string. *)
Theorem normalised_result_never_blank (answer : string) (r : NormalizedResult) :
  parse_ai_response answer = Returns r ->
  transformation_rules r <> []
  /\ error_analysis r <> EmptyString
  /\ (suggested_fixes r = [] ->
      exists d l,
        json_loads answer = Returns (JDict d)
        /\ dict_get "suggested_fixes" d JNull = JList l
        /\ l <> []
        /\ Forall (fun x => kept_fix x = false) l).
Proof.
  intros H.
  destruct (parse_ai_response_result answer r H) as (_ & Hrules & Hanalysis).
  split; [exact Hrules|]. split; [exact Hanalysis|].
  intros Hfixes.
  unfold parse_ai_response, bind in H.
  destruct (json_loads answer) as [v|e] eqn:E.
  - destruct v as [| | | | |l0|d]; try discriminate H.
    exists d. unfold normalize_parsed, py_get, bind in H.
    injection H as <-. cbn [suggested_fixes] in Hfixes.
    destruct (dict_get "suggested_fixes" d JNull) as [| | | | |l|];
      cbn [isinstance_list negb] in Hfixes; rewrite ?Bool.orb_true_r in Hfixes;
      try discriminate Hfixes.
    destruct l as [|x l]; [discriminate Hfixes|].
    exists (x :: l). repeat split; [discriminate|].
    cbn [truthy isinstance_list negb orb as_list] in Hfixes.
    revert Hfixes. generalize (x :: l). clear. intros l.
    induction l as [|y l IH]; [constructor|].
    cbn [validated_fixes].
    destruct y; try discriminate; intros Hv; constructor; auto.
  - destruct e; try discriminate H. injection H as <-. discriminate Hfixes.
Qed.


(** ** The cleaning of a reply *)

Lemma rev_onto_app (s acc : string) : rev_onto s acc = reverse s ++ acc.
Proof.
  unfold reverse. revert acc. induction s as [|c s IH]; intros acc; [reflexivity|].
  cbn [rev_onto]. rewrite (IH (String c acc)), (IH (String c EmptyString)).
  now rewrite append_assoc.
Qed.

Lemma reverse_cons (c : ascii) (s : string) :
  reverse (String c s) = reverse s ++ String c EmptyString.
Proof. unfold reverse at 1. cbn [rev_onto]. apply rev_onto_app. Qed.

Lemma reverse_app (a b : string) : reverse (a ++ b) = reverse b ++ reverse a.
Proof.
  induction a as [|c a IH]; cbn [append].
  - now rewrite append_nil_r.
  - now rewrite !reverse_cons, IH, append_assoc.
Qed.

Lemma reverse_involutive (s : string) : reverse (reverse s) = s.
Proof.
  induction s as [|c s IH]; [reflexivity|].
  now rewrite reverse_cons, reverse_app, IH.
Qed.

Lemma all_spaces_app (a b : string) :
  all_spaces (a ++ b) = (all_spaces a && all_spaces b)%bool.
Proof.
  induction a as [|c a IH]; cbn [append all_spaces]; [reflexivity|].
  now rewrite IH, Bool.andb_assoc.
Qed.

Lemma all_spaces_reverse (s : string) : all_spaces (reverse s) = all_spaces s.
Proof.
  induction s as [|c s IH]; [reflexivity|].
  rewrite reverse_cons, all_spaces_app, IH. cbn [all_spaces].
  now rewrite Bool.andb_true_r, Bool.andb_comm.
Qed.

Lemma lstrip_spaces (ws x : string) :
  all_spaces ws = true -> lstrip (ws ++ x) = lstrip x.
Proof.
  induction ws as [|c ws IH]; cbn [all_spaces append]; [reflexivity|].
  intros H. apply andb_prop in H. destruct H as [Hc Hws].
  cbn [lstrip]. rewrite Hc. now apply IH.
Qed.

Lemma lstrip_rev_spaces (ws x : string) :
  all_spaces ws = true -> lstrip_rev (ws ++ x) = lstrip_rev x.
Proof.
  induction ws as [|c ws IH]; cbn [all_spaces append]; [reflexivity|].
  intros H. apply andb_prop in H. destruct H as [Hc Hws].
  cbn [lstrip_rev]. rewrite Hc. now apply IH.
Qed.

Lemma solid_spec (a : ascii) :
  solid a = true -> is_space a = false /\ (code a < 128)%N.
Proof.
  unfold solid. intros H. apply andb_prop in H. destruct H as [H1 H2].
  apply Bool.negb_true_iff in H1. apply N.ltb_lt in H2. now split.
Qed.

Lemma lstripped_solid (a : ascii) (r : string) :
  solid a = true -> lstripped (String a r) = true.
Proof.
  intros H. apply solid_spec in H. destruct H as [Hs Hc].
  unfold lstripped, mid_space, wide_space. rewrite Hs.
  destruct r as [|b [|c r]]; cbn [negb andb]; try reflexivity;
    cbv zeta;
    rewrite ?(proj2 (N.eqb_neq (code a) 194)), ?(proj2 (N.eqb_neq (code a) 225)),
      ?(proj2 (N.eqb_neq (code a) 226)), ?(proj2 (N.eqb_neq (code a) 227)) by lia;
    reflexivity.
Qed.

Lemma lstripped_rev_solid (a : ascii) (r : string) :
  solid a = true -> lstripped_rev (String a r) = true.
Proof.
  intros H. apply solid_spec in H. destruct H as [Hs Hc].
  unfold lstripped_rev, mid_space, wide_space. rewrite Hs.
  destruct r as [|b [|c r]]; cbn [negb andb]; try reflexivity; cbv zeta.
  - rewrite (proj2 (N.eqb_neq (code a) 133)), (proj2 (N.eqb_neq (code a) 160)) by lia.
    now rewrite Bool.andb_false_r.
  - rewrite (proj2 (N.eqb_neq (code a) 133)), (proj2 (N.eqb_neq (code a) 160)) by lia.
    rewrite (proj2 (N.eqb_neq (code a) 128)), (proj2 (N.eqb_neq (code a) 159)),
      (proj2 (N.eqb_neq (code a) 168)), (proj2 (N.eqb_neq (code a) 169)),
      (proj2 (N.eqb_neq (code a) 175)) by lia.
    assert ((128 <=? code a)%N = false) as -> by (apply N.leb_gt; lia).
    now rewrite !Bool.andb_false_r.
Qed.

Lemma lstripped_lstrip (s : string) : lstripped s = true -> lstrip s = s.
Proof.
  unfold lstripped. destruct s as [|a [|b [|c s3]]]; cbn [lstrip]; intros H;
    try reflexivity;
    repeat (apply andb_prop in H; destruct H as [?H H]);
    repeat match goal with
           | H : negb _ = true |- _ => apply Bool.negb_true_iff in H; rewrite H
           end; reflexivity.
Qed.

Lemma lstripped_rev_lstrip_rev (s : string) : lstripped_rev s = true -> lstrip_rev s = s.
Proof.
  unfold lstripped_rev. destruct s as [|a [|b [|c s3]]]; cbn [lstrip_rev]; intros H;
    try reflexivity;
    repeat (apply andb_prop in H; destruct H as [?H H]);
    repeat match goal with
           | H : negb _ = true |- _ => apply Bool.negb_true_iff in H; rewrite H
           end; reflexivity.
Qed.

(** What [lstrip] leaves is a final part of the text from which it has
    nothing more to remove. *)
Lemma lstrip_spec (s : string) :
  lstripped (lstrip s) = true /\ exists p, s = p ++ lstrip s.
Proof.
  remember (String.length s) as n eqn:Hn.
  revert s Hn. induction n as [n IH] using lt_wf_ind. intros s Hn.
  assert (Hrec : forall (p t : string),
             s = p ++ t -> String.length t < String.length s ->
             lstripped (lstrip t) = true /\ exists q, s = q ++ lstrip t).
  { intros p t Hs Hlt. destruct (IH (String.length t) ltac:(lia) t eq_refl) as [H1 [q Hq]].
    split; [exact H1|]. exists (p ++ q). now rewrite append_assoc, <- Hq. }
  assert (Hstop : lstripped s = true ->
                  lstripped s = true /\ exists p, s = p ++ s).
  { intros H. split; [exact H|]. now exists EmptyString. }
  destruct s as [|a s1]; [apply Hstop; reflexivity|].
  cbn [lstrip]. destruct (is_space a) eqn:Ha.
  { apply (Hrec (String a EmptyString)); [reflexivity|cbn; lia]. }
  destruct s1 as [|b s2]; [apply Hstop; cbn; now rewrite Ha|].
  destruct (mid_space a b) eqn:Hab.
  { apply (Hrec (String a (String b EmptyString))); [reflexivity|cbn; lia]. }
  destruct s2 as [|c s3]; [apply Hstop; cbn; now rewrite Ha, Hab|].
  destruct (wide_space a b c) eqn:Habc.
  { apply (Hrec (String a (String b (String c EmptyString)))); [reflexivity|cbn; lia]. }
  apply Hstop. cbn. now rewrite Ha, Hab, Habc.
Qed.

Lemma lstrip_rev_spec (s : string) :
  lstripped_rev (lstrip_rev s) = true /\ exists p, s = p ++ lstrip_rev s.
Proof.
  remember (String.length s) as n eqn:Hn.
  revert s Hn. induction n as [n IH] using lt_wf_ind. intros s Hn.
  assert (Hrec : forall (p t : string),
             s = p ++ t -> String.length t < String.length s ->
             lstripped_rev (lstrip_rev t) = true /\ exists q, s = q ++ lstrip_rev t).
  { intros p t Hs Hlt. destruct (IH (String.length t) ltac:(lia) t eq_refl) as [H1 [q Hq]].
    split; [exact H1|]. exists (p ++ q). now rewrite append_assoc, <- Hq. }
  assert (Hstop : lstripped_rev s = true ->
                  lstripped_rev s = true /\ exists p, s = p ++ s).
  { intros H. split; [exact H|]. now exists EmptyString. }
  destruct s as [|a s1]; [apply Hstop; reflexivity|].
  cbn [lstrip_rev]. destruct (is_space a) eqn:Ha.
  { apply (Hrec (String a EmptyString)); [reflexivity|cbn; lia]. }
  destruct s1 as [|b s2]; [apply Hstop; cbn; now rewrite Ha|].
  destruct (mid_space b a) eqn:Hab.
  { apply (Hrec (String a (String b EmptyString))); [reflexivity|cbn; lia]. }
  destruct s2 as [|c s3]; [apply Hstop; cbn; now rewrite Ha, Hab|].
  destruct (wide_space c b a) eqn:Habc.
  { apply (Hrec (String a (String b (String c EmptyString)))); [reflexivity|cbn; lia]. }
  apply Hstop. cbn. now rewrite Ha, Hab, Habc.
Qed.

(** An initial part of a text from which [lstrip] removes nothing is such
    a text too. *)
Lemma lstripped_prefix (p q : string) : lstripped (p ++ q) = true -> lstripped p = true.
Proof.
  destruct p as [|a [|b [|c p]]]; cbn [append lstripped]; intros H; try reflexivity.
  - apply andb_prop in H. destruct H as [-> _]. reflexivity.
  - apply andb_prop in H. destruct H as [-> H]. cbn [andb].
    apply andb_prop in H. destruct H as [-> _]. reflexivity.
  - exact H.
Qed.

Lemma rstrip_prefix (s : string) : exists q, s = rstrip s ++ q.
Proof.
  unfold rstrip. destruct (lstrip_rev_spec (reverse s)) as [_ [p Hp]].
  exists (reverse p). rewrite <- reverse_app, <- Hp. now rewrite reverse_involutive.
Qed.

Lemma rstrip_idempotent (s : string) : rstrip (rstrip s) = rstrip s.
Proof.
  unfold rstrip. rewrite reverse_involutive.
  destruct (lstrip_rev_spec (reverse s)) as [H _].
  now rewrite (lstripped_rev_lstrip_rev _ H).
Qed.

Lemma lstrip_strip (s : string) : lstrip (strip s) = strip s.
Proof.
  unfold strip.
  destruct (lstrip_spec s) as [H _].
  destruct (rstrip_prefix (lstrip s)) as [q Hq].
  rewrite Hq in H. apply lstripped_prefix in H.
  now apply lstripped_lstrip.
Qed.

Lemma strip_idempotent (s : string) : strip (strip s) = strip s.
Proof.
  unfold strip at 1. rewrite lstrip_strip. unfold strip. apply rstrip_idempotent.
Qed.

(** X12: the answer of the invoker never begins or ends with white space:
    stripping a cleaned reply leaves it as it is.  So a reply of blanks
    only, or of nothing but a code fence, becomes the empty answer. *)
Theorem clean_response_is_stripped (response_content : string) :
  strip (clean_response response_content) = clean_response response_content
  /\ lstrip (clean_response response_content) = clean_response response_content
  /\ (all_spaces response_content = true -> clean_response response_content = EmptyString).
Proof.
  assert (Hstripped : strip (clean_response response_content)
                      = clean_response response_content).
  { unfold clean_response. cbv zeta.
    repeat match goal with
           | |- context [if ?b then _ else _] => destruct b
           end; apply strip_idempotent. }
  split; [exact Hstripped|]. split.
  - rewrite <- Hstripped. apply lstrip_strip.
  - intros H. unfold clean_response.
    assert (strip response_content = EmptyString) as ->; [|reflexivity].
    unfold strip. rewrite <- (append_nil_r response_content), (lstrip_spaces _ _ H).
    reflexivity.
Qed.

Lemma first_is_app (p : ascii -> bool) (a r : string) :
  first_is p a = true -> first_is p (a ++ r) = true.
Proof. destruct a; [discriminate|]. now cbn. Qed.

Lemma last_is_app (p : ascii -> bool) (a b : string) :
  last_is p b = true -> last_is p (a ++ b) = true.
Proof. unfold last_is. rewrite reverse_app. apply first_is_app. Qed.

Lemma strip_between (ws0 x ws1 : string) :
  all_spaces ws0 = true -> all_spaces ws1 = true ->
  first_is solid x = true -> last_is solid x = true ->
  strip (ws0 ++ x ++ ws1) = x.
Proof.
  intros H0 H1 Hf Hl. unfold strip. rewrite (lstrip_spaces _ _ H0).
  destruct x as [|a r]; [discriminate|]. cbn [first_is] in Hf.
  rewrite lstripped_lstrip by (cbn [append]; now apply lstripped_solid).
  unfold rstrip. rewrite reverse_app, lstrip_rev_spaces by now rewrite all_spaces_reverse.
  unfold last_is in Hl. destruct (reverse (String a r)) as [|z r'] eqn:E; [discriminate|].
  rewrite lstripped_rev_lstrip_rev by now apply lstripped_rev_solid.
  now rewrite <- E, reverse_involutive.
Qed.

Lemma strip_left (ws x : string) :
  all_spaces ws = true -> first_is solid x = true -> last_is solid x = true ->
  strip (ws ++ x) = x.
Proof.
  intros H Hf Hl. rewrite <- (append_nil_r x) at 1. now apply strip_between.
Qed.

Lemma strip_right (x ws : string) :
  all_spaces ws = true -> first_is solid x = true -> last_is solid x = true ->
  strip (x ++ ws) = x.
Proof.
  intros H Hf Hl. change (x ++ ws) with (EmptyString ++ x ++ ws). now apply strip_between.
Qed.

Lemma startswith_app (lit r : string) : startswith (lit ++ r) lit = true.
Proof. unfold startswith. now rewrite strip_prefix_app. Qed.

Lemma drop_app (lit r : string) : drop (String.length lit) (lit ++ r) = r.
Proof. induction lit as [|c lit IH]; [now destruct r|]. exact IH. Qed.

Lemma endswith_app (x lit : string) : endswith (x ++ lit) lit = true.
Proof. unfold endswith. rewrite reverse_app. apply startswith_app. Qed.

Lemma length_reverse (s : string) : String.length (reverse s) = String.length s.
Proof.
  induction s as [|c s IH]; [reflexivity|].
  rewrite reverse_cons, length_append, IH. cbn. lia.
Qed.

Lemma drop_last_app (x lit : string) : drop_last (String.length lit) (x ++ lit) = x.
Proof.
  unfold drop_last. rewrite reverse_app, <- (length_reverse lit), drop_app.
  apply reverse_involutive.
Qed.

Lemma plain_solid (c : ascii) : plain c = true -> solid c = true.
Proof. unfold plain. intros H. apply andb_prop in H. tauto. Qed.

Lemma first_is_plain_solid (s : string) : first_is plain s = true -> first_is solid s = true.
Proof. destruct s; [discriminate|]. apply plain_solid. Qed.

Lemma startswith_fence_plain (b lit : string) :
  first_is plain b = true -> startswith b (String "`" lit) = false.
Proof.
  destruct b as [|a r]; [discriminate|]. cbn [first_is]. unfold plain. intros H.
  apply andb_prop in H. destruct H as [_ H]. apply Bool.negb_true_iff in H.
  unfold startswith. cbn [strip_prefix]. now rewrite Ascii.eqb_sym, H.
Qed.

Lemma endswith_fence_plain (b : string) :
  last_is plain b = true -> endswith b "```" = false.
Proof. intros H. unfold endswith. now apply startswith_fence_plain. Qed.

Lemma drop_last_fence (x : string) : drop_last 3 (x ++ "```") = x.
Proof. exact (drop_last_app x "```"). Qed.

(** X13: what the cleaning does with the usual shapes of a reply.  Let the
    body begin and end with an ASCII character that is neither white space
    nor a backtick (an object in braces, say), and let the paddings be
    ASCII white space.  Then the body is what is left of the body in a
    [json] code fence, of the body in a bare code fence (if what follows
    the opening fence does not begin with the letter j), of the body after
    an opening fence that is never closed, and of the padded body alone. *)
Theorem clean_response_removes_fence (ws0 ws1 ws2 ws3 b : string) :
  all_spaces ws0 = true -> all_spaces ws1 = true ->
  all_spaces ws2 = true -> all_spaces ws3 = true ->
  first_is plain b = true -> last_is plain b = true ->
  clean_response (ws0 ++ "```json" ++ ws1 ++ b ++ ws2 ++ "```" ++ ws3) = b
  /\ (first_is (Ascii.eqb "j") (ws1 ++ b) = false ->
      clean_response (ws0 ++ "```" ++ ws1 ++ b ++ ws2 ++ "```" ++ ws3) = b)
  /\ clean_response (ws0 ++ "```json" ++ ws1 ++ b ++ ws3) = b
  /\ clean_response (ws0 ++ b ++ ws3) = b.
Proof.
  intros H0 H1 H2 H3 Hf Hl.
  pose proof (first_is_plain_solid b Hf) as Hfs.
  pose proof (first_is_plain_solid _ Hl) as Hls. fold (last_is solid b) in Hls.
  assert (Hplain : (if startswith b "```json" then strip (drop 7 b) else b) = b
                   /\ (if endswith b "```" then strip (drop_last 3 b) else b) = b
                   /\ (if startswith b "```" then strip (drop 3 b) else b) = b).
  { now rewrite !(startswith_fence_plain b _ Hf), (endswith_fence_plain b Hl). }
  destruct Hplain as (Hp1 & Hp2 & Hp3).
  assert (Hinner : strip (ws1 ++ b) = b) by now apply strip_left.
  split; [|split; [|split]]; unfold clean_response; cbv zeta.
  - replace (ws0 ++ "```json" ++ ws1 ++ b ++ ws2 ++ "```" ++ ws3)
      with (ws0 ++ ("```json" ++ ws1 ++ b ++ ws2 ++ "```") ++ ws3)
      by (now rewrite !append_assoc).
    rewrite strip_between; [|assumption|assumption|reflexivity|].
    2:{ do 4 apply last_is_app. reflexivity. }
    rewrite startswith_app.
    change (drop 7 ("```json" ++ ws1 ++ b ++ ws2 ++ "```"))
      with (ws1 ++ b ++ ws2 ++ "```").
    replace (ws1 ++ b ++ ws2 ++ "```") with (ws1 ++ (b ++ ws2) ++ "```")
      by (now rewrite !append_assoc).
    rewrite strip_left;
      [|assumption|rewrite append_assoc; now apply first_is_app
       |apply last_is_app; reflexivity].
    rewrite endswith_app, drop_last_fence, strip_right by assumption.
    exact Hp3.
  - intros Hj.
    replace (ws0 ++ "```" ++ ws1 ++ b ++ ws2 ++ "```" ++ ws3)
      with (ws0 ++ ("```" ++ ws1 ++ b ++ ws2 ++ "```") ++ ws3)
      by (now rewrite !append_assoc).
    rewrite strip_between; [|assumption|assumption|reflexivity|].
    2:{ do 4 apply last_is_app. reflexivity. }
    assert (startswith ("```" ++ ws1 ++ b ++ ws2 ++ "```") "```json" = false) as ->.
    { rewrite <- (append_assoc ws1 b).
      destruct (ws1 ++ b) as [|c t] eqn:E; [destruct ws1, b; discriminate|].
      cbn [first_is] in Hj. unfold startswith. cbn [append strip_prefix].
      change ("`" =? "`")%char with true. cbv iota. now rewrite Hj. }
    replace ("```" ++ ws1 ++ b ++ ws2 ++ "```")
      with ((("```" ++ ws1 ++ b) ++ ws2) ++ "```")
      by (now rewrite !append_assoc).
    rewrite endswith_app, drop_last_fence.
    rewrite strip_right;
      [|assumption|reflexivity|do 2 apply last_is_app; assumption].
    rewrite startswith_app.
    change (drop 3 ("```" ++ ws1 ++ b)) with (ws1 ++ b).
    exact Hinner.
  - replace (ws0 ++ "```json" ++ ws1 ++ b ++ ws3)
      with (ws0 ++ ("```json" ++ ws1 ++ b) ++ ws3)
      by (now rewrite !append_assoc).
    rewrite strip_between; [|assumption|assumption|reflexivity|].
    2:{ do 2 apply last_is_app. assumption. }
    rewrite startswith_app.
    change (drop 7 ("```json" ++ ws1 ++ b)) with (ws1 ++ b).
    rewrite Hinner, Hp2. exact Hp3.
  - rewrite strip_between by assumption.
    rewrite Hp1, Hp2. exact Hp3.
Qed.

(** ** The stand-alone invoker of [main.py] *)

Lemma request_content_truthy_or_empty
    (post : ChatRequest -> outcome Main.Response) (prompt : string)
    (key : option string) (m : string) (content : json) :
  Main.request_content post prompt key m = Returns content ->
  (truthy content = true \/ content = JStr EmptyString)
  /\ optional_truthy key = true
  /\ exists resp,
       post (mkRequest m "You are a helpful assistant. Respond concisely." prompt "0.1" 4096)
       = Returns resp
       /\ Main.status_code resp = 200%Z.
Proof.
  unfold Main.request_content, bind.
  destruct (optional_truthy key); [|discriminate].
  destruct (post _) as [resp|]; [|discriminate].
  destruct (Main.status_code resp =? 200)%Z eqn:Hs; [|discriminate].
  apply Z.eqb_eq in Hs.
  destruct (Main.body resp) as [data|]; [|discriminate].
  destruct (py_get data "choices" JNull) as [choices|]; [|discriminate].
  destruct (truthy (Main.or_else choices (JList []))); [|discriminate].
  destruct (Main.subscript0 _) as [first|]; [|discriminate].
  destruct (py_get first "message" JNull) as [message|]; [|discriminate].
  destruct (py_get (Main.or_else message (JDict [])) "content" JNull) as [c|];
    [|discriminate].
  intros [= <-]. split; [|split; [reflexivity|eauto]].
  unfold Main.or_else. destruct (truthy c) eqn:Hc; [now left|now right].
Qed.

(** X14: the stand-alone invoker never raises.  It returns a content and
    no error, or no content and an error, never both and never neither.  A
    content comes only from an answer with status 200 to a call made with a
    key; it is a true value or the empty string, and the call leaves the
    world as it was.  An error is the fixed prefix and the text of the
    exception.  Without a key, or with an empty one, the endpoint is not
    consulted; a status other than 200 is reported with the body. *)
Theorem main_invoker_content_xor_error
    (post : ChatRequest -> outcome Main.Response) (prompt : string)
    (key : option string) (m : string) (wid : option Z) (w : World) :
  (exists answer err w',
      Main.query_perplexity_model post prompt key m wid w = (Returns (answer, err), w')
      /\ match answer, err with
         | Some content, None =>
             w' = w
             /\ (truthy content = true \/ content = JStr EmptyString)
             /\ optional_truthy key = true
         | None, Some e =>
             exists x,
               Main.request_content post prompt key m = Raises x
               /\ e = "Perplexity API error: " ++ exn_str x
         | _, _ => False
         end)
  /\ (optional_truthy key = false ->
      fst (Main.query_perplexity_model post prompt key m wid w)
      = Returns (None, Some "Perplexity API error: Perplexity API key not provided."))
  /\ (forall resp,
         optional_truthy key = true ->
         post (mkRequest m "You are a helpful assistant. Respond concisely." prompt "0.1" 4096)
         = Returns resp ->
         Main.status_code resp <> 200%Z ->
         fst (Main.query_perplexity_model post prompt key m wid w)
         = Returns (None,
                    Some ("Perplexity API error: Perplexity API HTTP "
                          ++ int_repr (Main.status_code resp) ++ ": " ++ Main.text resp))).
Proof.
  rewrite main_invoker_step. split; [|split].
  - destruct (Main.request_content post prompt key m) as [content|x] eqn:E.
    + exists (Some content), None, w. split; [reflexivity|]. split; [reflexivity|].
      destruct (request_content_truthy_or_empty _ _ _ _ _ E) as (H1 & H2 & _).
      now split.
    + cbv zeta. do 3 eexists. split; [reflexivity|]. exists x. now split.
  - intros Hkey. unfold Main.request_content, bind. rewrite Hkey. reflexivity.
  - intros resp Hkey Hpost Hstatus. unfold Main.request_content, bind.
    rewrite Hkey, Hpost. apply Z.eqb_neq in Hstatus. rewrite Hstatus. reflexivity.
Qed.

(** ** The health check of the service *)

Lemma probe_model_status (probe : string -> outcome (list (option string))) (m : string) :
  getitem "status" (probe_model probe m)
  = Returns (JStr (if answers (probe m) then "healthy" else "unhealthy")).
Proof.
  unfold probe_model, answers, bind.
  destruct (probe m) as [[|c choices]|e]; reflexivity.
Qed.

Lemma healthy_of_probes (probe : string -> outcome (list (option string)))
    (models : list string) :
  healthy_of (map (fun m => (m, probe_model probe m)) models)
  = Returns (filter (fun m => answers (probe m)) models).
Proof.
  induction models as [|m models IH]; [reflexivity|].
  cbn [map healthy_of filter]. rewrite probe_model_status, IH. unfold bind.
  destruct (answers (probe m)); reflexivity.
Qed.

Lemma health_check_eq (probe : string -> outcome (list (option string))) :
  let probed := ["sonar-large-chat"; "sonar-large-online"] in
  let healthy := filter (fun m => answers (probe m)) probed in
  health_check probe
  = Returns (mkReport (match healthy with [] => "unhealthy" | _ => "healthy" end)
                      healthy
                      (map (fun m => (m, probe_model probe m)) probed)).
Proof.
  intros probed healthy. unfold health_check.
  change (probe_loop probe (firstn 2 MODEL_FALLBACK_CHAIN) [])
    with (map (fun m => (m, probe_model probe m)) probed).
  cbv zeta. rewrite healthy_of_probes. reflexivity.
Qed.

(** X15: the health check always returns a report, whatever the probes do.
    The report has an entry for each of the first two models of the
    catalog, in that order, and for no other model (the primary model of
    the service is not looked at).  The available models are the probed
    models whose probe was answered with a choice, in the order of the
    catalog; the overall status is healthy when there is one, unhealthy
    otherwise; an entry says healthy exactly for an available model. *)
Theorem health_check_reports_probes (probe : string -> outcome (list (option string))) :
  let probed := ["sonar-large-chat"; "sonar-large-online"] in
  exists report,
    health_check probe = Returns report
    /\ map fst (model_details report) = probed
    /\ available_models report = filter (fun m => answers (probe m)) probed
    /\ (overall_status report = "healthy"
        <-> exists m, In m probed /\ answers (probe m) = true)
    /\ (overall_status report = "unhealthy" <-> available_models report = [])
    /\ (forall m, In m probed ->
          exists entry,
            getitem m (model_details report) = Returns entry
            /\ (getitem "status" entry = Returns (JStr "healthy")
                <-> In m (available_models report))).
Proof.
  intros probed. subst probed. rewrite health_check_eq. cbv zeta.
  eexists. split; [reflexivity|].
  cbn [model_details available_models overall_status].
  split; [reflexivity|]. split; [reflexivity|].
  assert (Hin : forall m,
             In m (filter (fun m => answers (probe m))
                          ["sonar-large-chat"; "sonar-large-online"])
             <-> In m ["sonar-large-chat"; "sonar-large-online"]
                 /\ answers (probe m) = true)
    by (intros m; apply filter_In).
  revert Hin.
  generalize (filter (fun m => answers (probe m))
                     ["sonar-large-chat"; "sonar-large-online"]).
  intros healthy Hin.
  split; [|split].
  - split.
    + intros H. destruct healthy as [|m l]; [discriminate|].
      exists m. apply Hin. now left.
    + intros (m & Hm). apply Hin in Hm. destruct healthy; [destruct Hm|reflexivity].
  - destruct healthy; split; intros H; try reflexivity; discriminate.
  - intros m Hm. exists (probe_model probe m). split.
    + destruct Hm as [<-|[<-|[]]]; reflexivity.
    + rewrite probe_model_status, Hin. split.
      * intros H. split; [exact Hm|]. destruct (answers (probe m)); [reflexivity|discriminate].
      * intros [_ ->]. reflexivity.
Qed.

(** X16: the health check and the invoker read a reply differently.  When
    the probe of one of the two probed models is answered by a choice that
    has no content, the health check reports the model as healthy, with a
    null response, and the overall status is healthy; the invoker, given
    the same choices, fails with the [AttributeError] of [None.strip]. *)
Theorem healthy_without_content
    (probe : string -> outcome (list (option string))) (m : string)
    (rest : list (option string)) :
  In m ["sonar-large-chat"; "sonar-large-online"] ->
  probe m = Returns (None :: rest) ->
  exists report,
    health_check probe = Returns report
    /\ overall_status report = "healthy"
    /\ In m (available_models report)
    /\ getitem m (model_details report)
       = Returns [("status", JStr "healthy"); ("response", JNull)]
    /\ first_content (None :: rest)
       = Raises (AttributeError "'NoneType' object has no attribute 'strip'").
Proof.
  intros Hm Hprobe. rewrite health_check_eq. eexists. split; [reflexivity|].
  cbn [model_details available_models overall_status].
  assert (Hin : In m (filter (fun m => answers (probe m))
                             ["sonar-large-chat"; "sonar-large-online"])).
  { apply filter_In. split; [exact Hm|]. now rewrite Hprobe. }
  split; [|split; [exact Hin|split; [|reflexivity]]].
  - destruct (filter _ _); [destruct Hin|reflexivity].
  - assert (Hentry : probe_model probe m = [("status", JStr "healthy"); ("response", JNull)])
      by (unfold probe_model; now rewrite Hprobe).
    rewrite <- Hentry. destruct Hm as [<-|[<-|[]]]; reflexivity.
Qed.

(** ** The application of [main.py] *)

Lemma mem_In (x : string) (s : list string) : App.mem x s = true <-> In x s.
Proof.
  unfold App.mem. rewrite existsb_exists. split.
  - intros (y & Hy & E). apply String.eqb_eq in E. now subst.
  - intros H. exists x. split; [exact H|apply String.eqb_refl].
Qed.

Lemma model_selection (getenv : string -> option string) :
  In (App.PERPLEXITY_MODEL getenv) App.PERPLEXITY_ALLOWED_MODELS
  /\ forall m, In m MODEL_FALLBACK_CHAIN -> ~ In m App.PERPLEXITY_ALLOWED_MODELS.
Proof.
  split.
  - unfold App.PERPLEXITY_MODEL. cbv zeta.
    destruct (App.mem _ App.PERPLEXITY_ALLOWED_MODELS) eqn:E;
      [now apply mem_In|apply mem_In; reflexivity].
  - intros m Hm Ha. apply mem_In in Ha.
    repeat (destruct Hm as [<-|Hm]; [discriminate Ha|]). destruct Hm.
Qed.

(** X17: the model the application uses is always one of the allowed
    models: the model of the environment when that is allowed, [sonar-pro]
    when it is not or when there is none.  No model of the fallback catalog
    of the service is allowed. *)
Theorem perplexity_model_is_allowed (getenv : string -> option string) :
  In (App.PERPLEXITY_MODEL getenv) App.PERPLEXITY_ALLOWED_MODELS
  /\ (forall m, getenv "PERPLEXITY_MODEL" = Some m ->
        App.PERPLEXITY_MODEL getenv
        = if App.mem m App.PERPLEXITY_ALLOWED_MODELS then m else "sonar-pro")
  /\ (getenv "PERPLEXITY_MODEL" = None -> App.PERPLEXITY_MODEL getenv = "sonar-pro")
  /\ (forall m, In m MODEL_FALLBACK_CHAIN -> ~ In m App.PERPLEXITY_ALLOWED_MODELS)
  /\ ~ In (App.PERPLEXITY_MODEL getenv) MODEL_FALLBACK_CHAIN.
Proof.
  destruct (model_selection getenv) as (Hallowed & Hdisjoint).
  split; [exact Hallowed|]. split; [|split; [|split; [exact Hdisjoint|]]].
  - intros m E. unfold App.PERPLEXITY_MODEL. now rewrite E.
  - intros E. unfold App.PERPLEXITY_MODEL. now rewrite E.
  - intros H. exact (Hdisjoint _ H Hallowed).
Qed.

(** X18: the service and the application read the same variable
    differently.  For a service built from the environment, its primary
    model is the model of the application exactly when the environment
    names an allowed model; with no model in the environment, or with one
    of the catalog of the service, the two differ. *)
Theorem service_and_application_models
    (getenv : string -> option string) (self : LLMService) :
  create_llm_service getenv = Returns self ->
  (primary_model self = App.PERPLEXITY_MODEL getenv
   <-> exists m, getenv "PERPLEXITY_MODEL" = Some m
                 /\ In m App.PERPLEXITY_ALLOWED_MODELS)
  /\ (In (primary_model self) MODEL_FALLBACK_CHAIN ->
      primary_model self <> App.PERPLEXITY_MODEL getenv).
Proof.
  intros Hself.
  assert (Hprimary : primary_model self
                     = match getenv "PERPLEXITY_MODEL" with
                       | Some m => m
                       | None => "sonar-large-chat"
                       end).
  { unfold create_llm_service, __init__ in Hself. cbv zeta in Hself.
    destruct (getenv "PERPLEXITY_API_KEY") as [key|]; [|discriminate].
    destruct (is_empty key); [discriminate|].
    injection Hself as <-. reflexivity. }
  destruct (model_selection getenv) as (Hallowed & Hdisjoint).
  split.
  - rewrite Hprimary. unfold App.PERPLEXITY_MODEL. cbv zeta.
    destruct (getenv "PERPLEXITY_MODEL") as [m|].
    + destruct (App.mem m App.PERPLEXITY_ALLOWED_MODELS) eqn:E.
      * split; [|reflexivity]. intros _. exists m. split; [reflexivity|now apply mem_In].
      * split.
        -- intros ->. discriminate E.
        -- intros (m' & [= <-] & Hm'). apply mem_In in Hm'. congruence.
    + split; [discriminate|]. intros (m & Hm & _). discriminate Hm.
  - intros Hin E. rewrite E in Hin. exact (Hdisjoint _ Hin Hallowed).
Qed.

Lemma respond_cases (logs_list : list App.LogRow) (answer : option json)
    (error_info : option string) :
  (answer = None \/ (exists content, answer = Some content /\ truthy content = true)
   \/ answer = Some (JStr EmptyString)) ->
  (answer <> None -> error_info = None) ->
  match App.respond logs_list answer error_info with
  | App.Respond response =>
      App.logs response = logs_list
      /\ App.error_info response = None
      /\ App.has_error response = false
  | App.HTTPException status detail =>
      status = 500%Z
      /\ detail = match error_info with
                  | Some text => text
                  | None => "Internal Server Error"
                  end
  | App.Unhandled e => forall message, e <> JSONDecodeError message
  end.
Proof.
  intros Hanswer Herr. unfold App.respond, App.raise_http.
  destruct answer as [content|]; [|now split].
  rewrite (Herr ltac:(discriminate)). cbn [optional_truthy].
  destruct (truthy content); [|now split].
  unfold bind.
  destruct (App.loads content) as [v|e].
  - destruct v; cbn [py_get]; try discriminate. repeat split.
  - destruct e; try discriminate. repeat split.
Qed.

(** X19: the ways the route [POST /query] ends.  It raises an
    [HTTPException] with one of three statuses: 503 when there is no pool,
    404 when the workflow has no row (in both cases nothing was asked of
    the model and the world is as it was), 500 when the invoker came back
    without a true content.  The detail of a 500 is the error of the
    invoker, or, when the invoker returned an empty content and no error,
    the phrase [Internal Server Error] the exception puts in the place of
    a detail that is [None]; in that case nothing was sent to the error
    sink.  A response the route returns carries the fetched logs and never
    the keys [error_info] and [has_error], and nothing was sent to the
    sink for it.  Under a workflow identifier other than zero a failed
    call of the model is sent to the sink once, with the detail as its
    message. *)
Theorem query_route_outcomes
    (getenv : string -> option string) (post : ChatRequest -> outcome Main.Response)
    (db : App.Database) (user_query : App.UserQuery) (w : World) :
  exists r w',
    App.query_llm_with_workflow getenv post db user_query w = (r, w')
    /\ provider w' = provider w
    /\ match r with
       | App.HTTPException status detail =>
           (status = 503%Z /\ detail = "Database not configured"
            /\ error_logs w = None /\ w' = w)
           \/ (status = 404%Z /\ detail = "Workflow not found"
               /\ App.fetch_workflow db (App.workflow_id user_query) = Returns None
               /\ w' = w)
           \/ (status = 500%Z /\ detail = "Internal Server Error" /\ w' = w)
           \/ (status = 500%Z
               /\ (exists x, detail = "Perplexity API error: " ++ exn_str x)
               /\ logged w'
                  = (logged w
                     ++ (if (App.workflow_id user_query =? 0)%Z then []
                         else [(App.workflow_id user_query, "API_Error", detail)]))%list)
       | App.Respond response =>
           w' = w
           /\ App.fetch_logs db (App.workflow_id user_query) = Returns (App.logs response)
           /\ App.error_info response = None
           /\ App.has_error response = false
       | App.Unhandled e => w' = w
       end.
Proof.
  unfold App.query_llm_with_workflow.
  destruct (error_logs w) as [rows|] eqn:Hpool.
  2:{ do 2 eexists. split; [reflexivity|]. split; [reflexivity|]. left. now repeat split. }
  destruct (App.fetch_workflow db (App.workflow_id user_query)) as [[workflow_name|]|e].
  2:{ do 2 eexists. split; [reflexivity|]. split; [reflexivity|]. right. left.
      now repeat split. }
  2:{ do 2 eexists. split; [reflexivity|]. now split. }
  unfold bind.
  destruct (App.fetch_logs db (App.workflow_id user_query)) as [logs|e].
  2:{ do 2 eexists. split; [reflexivity|]. now split. }
  destruct (App.logs_text logs) as [logs_text|e].
  2:{ do 2 eexists. split; [reflexivity|]. now split. }
  rewrite main_invoker_step.
  destruct (Main.request_content post _ _ _) as [content|x] eqn:E.
  - do 2 eexists. split; [reflexivity|]. split; [reflexivity|].
    destruct (request_content_truthy_or_empty _ _ _ _ _ E) as (Hcontent & _).
    pose proof (respond_cases logs (Some content) None) as H.
    destruct (App.respond logs (Some content) None) as [response|status detail|e].
    + destruct H as (Hl & He & Hh);
        [destruct Hcontent as [Ht| ->]; [right; left; eauto|now right; right]
        |reflexivity|].
      rewrite Hl. now repeat split.
    + destruct H as (Hs & Hd);
        [destruct Hcontent as [Ht| ->]; [right; left; eauto|now right; right]
        |reflexivity|].
      right. right. left. subst. now repeat split.
    + reflexivity.
  - cbv zeta. do 2 eexists. split; [reflexivity|].
    cbn [App.respond App.raise_http].
    split.
    + destruct (App.workflow_id user_query =? 0)%Z; reflexivity.
    + right. right. right. split; [reflexivity|]. split; [exists x; reflexivity|].
      destruct (App.workflow_id user_query =? 0)%Z; cbn [snd log_error logged];
        [now rewrite List.app_nil_r|reflexivity].
Qed.

(** X20: what the route [POST /query] makes of a true content the invoker
    returned, when there is a pool, the workflow has a row and its logs
    were fetched.  A content that is a string on which the decoder raises
    a [JSONDecodeError] is answered, not refused: the response holds the
    fixed rules text, the analysis [Parsing error] and no fixes.  A string
    that is a JSON object gives a response with the object's own values
    under the three keys, whatever they are (a null stays a null), and the
    defaults for the keys it lacks.  Everything else ends in an exception
    the route does not catch: the [AttributeError] of a JSON text that is
    no object, the [RecursionError] or [ValueError] of a text beyond a
    limit of the interpreter (the decoder raises nothing else), the
    [TypeError] of a content that is no string. *)
Theorem query_route_reply_handling
    (getenv : string -> option string) (post : ChatRequest -> outcome Main.Response)
    (db : App.Database) (user_query : App.UserQuery) (w : World)
    (rows : list ErrorRecord) (workflow_name : option string)
    (logs : list App.LogRow) (logs_text : string) (content : json) :
  error_logs w = Some rows ->
  App.fetch_workflow db (App.workflow_id user_query) = Returns (Some workflow_name) ->
  App.fetch_logs db (App.workflow_id user_query) = Returns logs ->
  App.logs_text logs = Returns logs_text ->
  Main.request_content post
    (App.prompt workflow_name logs_text (App.query_text user_query))
    (App.PERPLEXITY_API_KEY getenv) (App.PERPLEXITY_MODEL getenv) = Returns content ->
  truthy content = true ->
  App.query_llm_with_workflow getenv post db user_query w
  = (match content with
     | JStr s =>
         match json_loads s with
         | Raises (JSONDecodeError _) =>
             App.Respond (App.mkQueryResponse (JStr "No rules generated")
                            (JStr "Parsing error") (JList []) logs None false)
         | Raises e => App.Unhandled e
         | Returns (JDict d) =>
             App.Respond
               (App.mkQueryResponse
                  (dict_get "transformation_rules" d (JStr "No rules generated"))
                  (dict_get "error_analysis" d (JStr "No analysis available"))
                  (dict_get "suggested_fixes" d (JList []))
                  logs None false)
         | Returns v =>
             App.Unhandled (AttributeError
                              ("'" ++ type_name v ++ "' object has no attribute 'get'"))
         end
     | _ =>
         App.Unhandled (TypeError ("the JSON object must be str, bytes or bytearray, not "
                                   ++ type_name content))
     end, w)
  /\ forall s e,
       content = JStr s -> json_loads s = Raises e ->
       (exists message, e = JSONDecodeError message)
       \/ (exists message, e = RecursionError message)
       \/ (exists message, e = ValueError message).
Proof.
  intros Hpool Hworkflow Hlogs Htext Hcontent Htruthy. split.
  - unfold App.query_llm_with_workflow.
    rewrite Hpool, Hworkflow, Hlogs. cbn [bind]. rewrite Htext. cbn [bind].
    rewrite main_invoker_step, Hcontent. f_equal.
    unfold App.respond. rewrite Htruthy. cbn [optional_truthy].
    destruct content as [| | | |s| |]; try reflexivity.
    cbn [App.loads bind].
    destruct (json_loads s) as [v|e] eqn:E.
    + destruct v; reflexivity.
    + destruct (json_loads_raises s e E) as [[m ->]|[[m ->]|[m ->]]]; reflexivity.
  - intros s e _ E. exact (json_loads_raises s e E).
Qed.

Lemma messages_present (logs : list App.LogRow) (texts : list string) :
  map App.log_message logs = map Some texts ->
  forall i, App.messages i logs = Returns texts.
Proof.
  revert texts. induction logs as [|log logs IH]; intros [|t texts] H i;
    try discriminate; [reflexivity|].
  cbn [map] in H. injection H as Ht Hrest.
  cbn [App.messages]. rewrite Ht, (IH texts Hrest). reflexivity.
Qed.

Lemma messages_null (before : list App.LogRow) (log : App.LogRow)
    (after : list App.LogRow) (texts : list string) :
  map App.log_message before = map Some texts ->
  App.log_message log = None ->
  forall i,
    App.messages i (before ++ log :: after)
    = Raises (TypeError ("sequence item " ++ nat_str (i + length before)
                         ++ ": expected str instance, NoneType found")).
Proof.
  revert texts. induction before as [|b before IH]; intros [|t texts] H Hnull i;
    try discriminate.
  - cbn [app App.messages length]. now rewrite Hnull, Nat.add_0_r.
  - cbn [map] in H. injection H as Ht Hrest.
    cbn [app App.messages length]. rewrite Ht, (IH texts Hrest Hnull). cbn [bind].
    now rewrite Nat.add_succ_r.
Qed.

(** X21: the text of the logs the route [POST /query] puts in the prompt.
    Without rows it is the placeholder.  With rows that all have a message
    it is the messages, in the order of the rows, joined by line feeds.
    When a row has no message the join raises: the route ends in a
    [TypeError] that names the position of the first such row and that
    nothing catches, before the model is asked and with the world as it
    was. *)
Theorem logs_text_joins_messages
    (getenv : string -> option string) (post : ChatRequest -> outcome Main.Response)
    (db : App.Database) (user_query : App.UserQuery) (w : World)
    (rows : list ErrorRecord) (workflow_name : option string)
    (before : list App.LogRow) (log : App.LogRow) (after : list App.LogRow)
    (texts : list string) :
  map App.log_message before = map Some texts ->
  App.log_message log = None ->
  error_logs w = Some rows ->
  App.fetch_workflow db (App.workflow_id user_query) = Returns (Some workflow_name) ->
  App.fetch_logs db (App.workflow_id user_query) = Returns (before ++ log :: after)%list ->
  App.logs_text [] = Returns "No recent logs available."
  /\ (before <> [] -> App.logs_text before = Returns (String.concat App.newline texts))
  /\ App.query_llm_with_workflow getenv post db user_query w
     = (App.Unhandled
          (TypeError ("sequence item " ++ nat_str (length before)
                      ++ ": expected str instance, NoneType found")), w).
Proof.
  intros Hbefore Hnull Hpool Hworkflow Hlogs.
  split; [reflexivity|]. split.
  - intros Hne. unfold App.logs_text. destruct before as [|b before]; [congruence|].
    now rewrite (messages_present _ _ Hbefore).
  - unfold App.query_llm_with_workflow. rewrite Hpool, Hworkflow, Hlogs. cbn [bind].
    assert (App.logs_text (before ++ log :: after)
            = Raises (TypeError ("sequence item " ++ nat_str (length before)
                                 ++ ": expected str instance, NoneType found"))) as ->.
    { unfold App.logs_text.
      rewrite (messages_null before log after texts Hbefore Hnull 0). cbn [bind Nat.add].
      destruct before; reflexivity. }
    reflexivity.
Qed.

End Properties.

(** * The model at work

    Runs of the model under the interpreter of the examples. *)

#[local] Existing Instance default_interpreter.

Example loads_prose :
  json_loads "not json"
  = Raises (JSONDecodeError "Expecting value: line 1 column 1 (char 0)").
Proof. vm_compute. reflexivity. Qed.

Example loads_extra_data :
  json_loads "[1, 2] x"
  = Raises (JSONDecodeError "Extra data: line 1 column 8 (char 7)").
Proof. vm_compute. reflexivity. Qed.

Example loads_second_line :
  json_loads "[1,
  2,, 3]"
  = Raises (JSONDecodeError "Expecting value: line 2 column 5 (char 8)").
Proof. vm_compute. reflexivity. Qed.

(** A key given twice keeps its place and takes the later value. *)
Example loads_object :
  json_loads ("{" ++ quoted "a" ++ ": 1, " ++ quoted "b" ++ ": -0, "
              ++ quoted "a" ++ " : [true, null, -1.5e3, " ++ quoted "x\ty" ++ "]}")
  = Returns (JDict [("a", JList [JBool true; JNull; JFloat "-1.5e3";
                                 JStr (String "x" (String "009" "y"))]);
                    ("b", JInt 0)]).
Proof. vm_compute. reflexivity. Qed.

Example dumps_object :
  json_dumps (JDict [("a", JList [JInt (-12); JStr (String "x" (String "009" "y"))])])
  = "{" ++ quoted "a" ++ ": [-12, " ++ quoted "x\ty" ++ "]}".
Proof. vm_compute. reflexivity. Qed.

Example clean_fenced_reply :
  clean_response "  ```json
{}
```  " = "{}".
Proof. vm_compute. reflexivity. Qed.

Example message_when_all_refuse :
  fst (query_with_fallback (mkService "pplx-key" "sonar-small-online") "prompt" None
         (world_of (fun m => if (m =? "sonar-small-online")%string
                             then Raises (ProviderError "timed out")
                             else Returns []))
      )
  = Returns
      (None,
       Some "All models failed. Attempts: [{'model': 'sonar-small-online', 'success': False, 'error': 'Perplexity API error with model sonar-small-online: timed out'}, {'model': 'sonar-large-chat', 'success': False, 'error': 'Perplexity API error with model sonar-large-chat: list index out of range'}, {'model': 'sonar-large-online', 'success': False, 'error': 'Perplexity API error with model sonar-large-online: list index out of range'}, {'model': 'llama-3.1-70b-versatile', 'success': False, 'error': 'Perplexity API error with model llama-3.1-70b-versatile: list index out of range'}]. Last error: None",
       None,
       [mkAttempt "sonar-small-online" false
          (Some "Perplexity API error with model sonar-small-online: timed out");
        mkAttempt "sonar-large-chat" false
          (Some "Perplexity API error with model sonar-large-chat: list index out of range");
        mkAttempt "sonar-large-online" false
          (Some "Perplexity API error with model sonar-large-online: list index out of range");
        mkAttempt "llama-3.1-70b-versatile" false
          (Some "Perplexity API error with model llama-3.1-70b-versatile: list index out of range")]).
Proof. vm_compute. reflexivity. Qed.

Lemma first_valid_reply_wins_witness :
  let self := default_service in
  let w := primary_down in
  (model_chain self
   = ["sonar-large-chat"] ++ "sonar-large-online"
       :: ["llama-3.1-70b-versatile"; "sonar-small-online"])%list
  /\ (forall m', In m' ["sonar-large-chat"] -> accepted w "prompt" m' = false)
  /\ reply w "prompt" "sonar-large-online" = Returns "{}"
  /\ exists attempts w',
       query_with_fallback self "prompt" (Some 7%Z) w
       = (Returns (Some "{}", None, Some "sonar-large-online", attempts), w')
       /\ length attempts = 2
       /\ map model attempts = ["sonar-large-chat"; "sonar-large-online"]
       /\ models_requested w w' = ["sonar-large-chat"; "sonar-large-online"]
       /\ (forall m', In m' ["llama-3.1-70b-versatile"; "sonar-small-online"] ->
             ~ In m' (models_requested w w')).
Proof.
  intros self w.
  assert (H1 : forall m', In m' ["sonar-large-chat"] -> accepted w "prompt" m' = false).
  { intros m' [<-|[]]. vm_compute. reflexivity. }
  split; [reflexivity|]. split; [exact H1|]. split; [reflexivity|].
  apply (first_valid_reply_wins self "prompt" (Some 7%Z) w
           ["sonar-large-chat"] "sonar-large-online"
           ["llama-3.1-70b-versatile"; "sonar-small-online"] "{}").
  - reflexivity.
  - exact H1.
  - reflexivity.
  - discriminate.
  - vm_compute. reflexivity.
Defined.



Lemma all_models_fail_witness :
  let self := default_service in
  let w := refusing in
  (forall m, In m (model_chain self) -> returned (reply w "prompt" m) = false)
  /\ exists attempts msg w',
       query_with_fallback self "prompt" (Some 7%Z) w
       = (Returns (None, Some msg, None, attempts), w')
       /\ length attempts = 4
       /\ map model attempts = MODEL_FALLBACK_CHAIN
       /\ Forall (fun a => success a = false) attempts
       /\ Forall (fun m => occurs_in m msg) MODEL_FALLBACK_CHAIN
       /\ occurs_in "connection refused" msg.
Proof.
  intros self w.
  assert (H1 : forall m, In m (model_chain self) -> returned (reply w "prompt" m) = false).
  { intros m _. reflexivity. }
  split; [exact H1|].
  destruct (all_models_fail self "prompt" (Some 7%Z) w H1)
    as (attempts & msg & w' & E & Ha & Hlen & _ & Hmsg & _ & Hnames & Herrs).
  exists attempts, msg, w'.
  split; [exact E|]. split; [exact Hlen|].
  assert (Hmodels : map model attempts = MODEL_FALLBACK_CHAIN).
  { rewrite Ha, map_map. reflexivity. }
  split; [exact Hmodels|]. split.
  - rewrite Ha. apply Forall_map. cbn [success]. apply Forall_forall. reflexivity.
  - split.
    + apply Forall_forall. intros m Hm.
      apply Hnames; [reflexivity|exact Hm].
    + apply occurs_in_trans
        with "Perplexity API error with model sonar-large-chat: connection refused".
      * now exists "Perplexity API error with model sonar-large-chat: ", EmptyString.
      * apply (Herrs (mkAttempt "sonar-large-chat" false
                        (Some "Perplexity API error with model sonar-large-chat: connection refused"))).
        -- rewrite Ha. now left.
        -- reflexivity.
        -- reflexivity.
Defined.

(** The last error is not in the message of C2: every request fails with a
    text that holds both kinds of quote; the message ends in
    [Last error: None], and the trail has the error of the last attempt
    with its quotes escaped only. *)
Example last_error_missing_from_message :
  let error := "Perplexity API error with model sonar-small-online: " ++ quoting_error in
  exists msg attempts w',
    query_with_fallback default_service "prompt" None quoting
    = (Returns (None, Some msg, None, attempts), w')
    /\ last attempts (mkAttempt EmptyString true None)
       = mkAttempt "sonar-small-online" false (Some error)
    /\ endswith msg ". Last error: None" = true
    /\ ~ occurs_in error msg
    /\ ~ occurs_in quoting_error msg.
Proof.
  intros error. do 3 eexists. split; [vm_compute; reflexivity|].
  split; [reflexivity|]. split; [vm_compute; reflexivity|].
  split; intros H; apply occurs_in_contains_str in H; vm_compute in H; discriminate.
Qed.

Lemma missing_api_key_fails_construction_witness :
  optional_truthy None = false
  /\ __init__ None "sonar-large-chat" = Raises (ValueError "Perplexity API key is required")
  /\ create_llm_service (fun _ => None)
     = Raises (ValueError "PERPLEXITY_API_KEY environment variable is required")
  /\ create_llm_service (fun name => if (name =? "PERPLEXITY_MODEL")%string
                                     then Some "sonar-small-online" else Some EmptyString)
     = Raises (ValueError "PERPLEXITY_API_KEY environment variable is required").
Proof.
  destruct missing_api_key_fails_construction as (Hinit & Hcreate & _).
  split; [reflexivity|]. split; [|split].
  - apply Hinit. reflexivity.
  - apply Hcreate. reflexivity.
  - apply Hcreate. reflexivity.
Defined.

Lemma normalize_idempotent_with_fixes_witness :
  let r := mkResult [JStr "fix X"] "No error analysis provided" [default_fix] in
  parse_ai_response scenario_reply = Returns r
  /\ suggested_fixes r <> []
  /\ parse_ai_response (serialize r) = Returns r.
Proof.
  intros r.
  assert (H : parse_ai_response scenario_reply = Returns r) by (vm_compute; reflexivity).
  assert (Hf : suggested_fixes r <> []) by discriminate.
  split; [exact H|]. split; [exact Hf|].
  exact (normalize_idempotent_with_fixes scenario_reply r H Hf).
Defined.

(** C8 as the spec words it fails: the number in [suggested_fixes] is
    dropped, the result holds no fix, and its serialised form is normalised
    to a result with the default fix. *)
Lemma normalize_not_idempotent_without_fixes :
  exists r r',
    parse_ai_response number_fix_reply = Returns r
    /\ suggested_fixes r = []
    /\ parse_ai_response (serialize r) = Returns r'
    /\ suggested_fixes r' = [default_fix]
    /\ r' <> r.
Proof.
  do 2 eexists. split; [vm_compute; reflexivity|].
  split; [reflexivity|]. split; [vm_compute; reflexivity|].
  split; [reflexivity|discriminate].
Qed.

(** C5 fails on the code at an integer of 4301 digits too: the decoder
    raises the [ValueError] of the limit on digits, which the normaliser
    does not catch; a text of 994 opening brackets ends in the
    [RecursionError] of the decoder. *)
Example parse_ai_response_raises_on_long_integer :
  parse_ai_response (repeat_text 4301 "1")
  = Raises (ValueError "Exceeds the limit (4300 digits) for integer string conversion: value has 4301 digits; use sys.set_int_max_str_digits() to increase the limit")
  /\ parse_ai_response (repeat_text 994 "[")
     = Raises (RecursionError "maximum recursion depth exceeded while decoding a JSON array from a unicode string")
  /\ (exists v, json_loads (repeat_text 4300 "1") = Returns v)
  /\ (exists e, parse_ai_response (repeat_text 993 "[")
                = Returns (parse_failure e)).
Proof.
  split; [vm_compute; reflexivity|]. split; [vm_compute; reflexivity|].
  split; eexists; vm_compute; reflexivity.
Qed.

Lemma returned_answer_normalises_witness :
  let w := primary_down in
  let run := query_with_fallback default_service "prompt" None w in
  run = (Returns (Some "{}", None, Some "sonar-large-online",
                  [attempt_of w "prompt" "sonar-large-chat";
                   mkAttempt "sonar-large-online" true None]), snd run)
  /\ exists d r,
       json_loads "{}" = Returns (JDict d)
       /\ parse_ai_response "{}" = Returns r
       /\ transformation_rules r <> []
       /\ error_analysis r <> EmptyString.
Proof.
  intros w run.
  assert (H : run = (Returns (Some "{}", None, Some "sonar-large-online",
                              [attempt_of w "prompt" "sonar-large-chat";
                               mkAttempt "sonar-large-online" true None]), snd run))
    by (vm_compute; reflexivity).
  split; [exact H|].
  exact (returned_answer_normalises default_service "prompt" None w (snd run)
           "{}" None (Some "sonar-large-online") _ H).
Defined.

Lemma empty_replies_exhaust_chain_witness :
  let self := default_service in
  let w := blank_replies in
  (forall m, In m (model_chain self) -> reply w "prompt" m = Returns EmptyString)
  /\ exists w',
       query_with_fallback self "prompt" (Some 7%Z) w
       = (Returns (None,
                   Some ("All models failed. Attempts: "
                         ++ repr_attempts
                              (map (fun m => mkAttempt m true None) (model_chain self))
                         ++ ". Last error: None"),
                   None, map (fun m => mkAttempt m true None) (model_chain self)), w')
       /\ logged w' = logged w
       /\ error_logs w' = error_logs w.
Proof.
  intros self w.
  assert (H : forall m, In m (model_chain self) -> reply w "prompt" m = Returns EmptyString).
  { intros m _. reflexivity. }
  split; [exact H|].
  exact (empty_replies_exhaust_chain self "prompt" (Some 7%Z) w H).
Defined.

Lemma result_depends_on_provider_only_witness :
  provider refusing = provider refusing_no_pool
  /\ fst (query_with_fallback default_service "prompt" (Some 7%Z) refusing)
     = fst (query_with_fallback default_service "prompt" None refusing_no_pool).
Proof.
  split; [reflexivity|].
  exact (result_depends_on_provider_only default_service "prompt" (Some 7%Z) None
           refusing refusing_no_pool eq_refl).
Defined.

Lemma normalised_result_never_blank_witness :
  let r := mkResult [JStr "No transformation rules generated"]
                    "No error analysis provided" [] in
  parse_ai_response number_fix_reply = Returns r
  /\ transformation_rules r <> []
  /\ error_analysis r <> EmptyString
  /\ (suggested_fixes r = [] ->
      exists d l,
        json_loads number_fix_reply = Returns (JDict d)
        /\ dict_get "suggested_fixes" d JNull = JList l
        /\ l <> []
        /\ Forall (fun x => kept_fix x = false) l).
Proof.
  intros r.
  assert (H : parse_ai_response number_fix_reply = Returns r) by (vm_compute; reflexivity).
  split; [exact H|].
  exact (normalised_result_never_blank number_fix_reply r H).
Defined.

Lemma clean_response_removes_fence_witness :
  let nl := String "010" EmptyString in
  let b := "{}" in
  all_spaces "  " = true /\ all_spaces nl = true
  /\ first_is plain b = true /\ last_is plain b = true
  /\ clean_response ("  " ++ "```json" ++ nl ++ b ++ nl ++ "```" ++ "  ") = b
  /\ (first_is (Ascii.eqb "j") (nl ++ b) = false ->
      clean_response ("  " ++ "```" ++ nl ++ b ++ nl ++ "```" ++ "  ") = b)
  /\ clean_response ("  " ++ "```json" ++ nl ++ b ++ "  ") = b
  /\ clean_response ("  " ++ b ++ "  ") = b.
Proof.
  intros nl b.
  split; [reflexivity|]. split; [reflexivity|].
  split; [reflexivity|]. split; [reflexivity|].
  exact (clean_response_removes_fence "  " nl nl "  " b
           eq_refl eq_refl eq_refl eq_refl eq_refl eq_refl).
Defined.

Example main_invoker_rate_limited :
  fst (Main.query_perplexity_model rate_limited "prompt" (Some "pplx-key") "sonar-pro"
         None refusing)
  = Returns (None, Some "Perplexity API error: Perplexity API HTTP 429: slow down").
Proof. vm_compute. reflexivity. Qed.

Lemma healthy_without_content_witness :
  let probed := ["sonar-large-chat"; "sonar-large-online"] in
  In "sonar-large-online" probed
  /\ no_content_probe "sonar-large-online" = Returns [None]
  /\ exists report,
       health_check no_content_probe = Returns report
       /\ overall_status report = "healthy"
       /\ In "sonar-large-online" (available_models report)
       /\ getitem "sonar-large-online" (model_details report)
          = Returns [("status", JStr "healthy"); ("response", JNull)]
       /\ first_content [None]
          = Raises (AttributeError "'NoneType' object has no attribute 'strip'").
Proof.
  intros probed.
  assert (H : In "sonar-large-online" probed) by (right; left; reflexivity).
  split; [exact H|]. split; [reflexivity|].
  exact (healthy_without_content no_content_probe "sonar-large-online" [] H eq_refl).
Defined.

Lemma service_and_application_models_witness :
  create_llm_service service_env = Returns default_service
  /\ (primary_model default_service = App.PERPLEXITY_MODEL service_env
      <-> exists m, service_env "PERPLEXITY_MODEL" = Some m
                    /\ In m App.PERPLEXITY_ALLOWED_MODELS)
  /\ (In (primary_model default_service) MODEL_FALLBACK_CHAIN ->
      primary_model default_service <> App.PERPLEXITY_MODEL service_env).
Proof.
  split; [reflexivity|].
  exact (service_and_application_models service_env default_service eq_refl).
Defined.

Lemma query_route_reply_handling_witness :
  let w := refusing in
  let user_query := App.mkUserQuery 7 "why does it fail?" in
  let logs := [App.mkLogRow 2 (Some "timeout") (Some "API_Error") 20;
               App.mkLogRow 1 (Some "bad row") (Some "Data_Error") 10] in
  let logs_text := "timeout" ++ App.newline ++ "bad row" in
  let content := JStr "not json" in
  error_logs w = Some []
  /\ App.fetch_workflow one_workflow 7 = Returns (Some (Some "nightly-import"))
  /\ App.fetch_logs one_workflow 7 = Returns logs
  /\ App.logs_text logs = Returns logs_text
  /\ Main.request_content (replying content)
       (App.prompt (Some "nightly-import") logs_text "why does it fail?")
       (App.PERPLEXITY_API_KEY service_env) (App.PERPLEXITY_MODEL service_env)
     = Returns content
  /\ truthy content = true
  /\ App.query_llm_with_workflow service_env (replying content) one_workflow user_query w
     = (App.Respond (App.mkQueryResponse (JStr "No rules generated")
                       (JStr "Parsing error") (JList []) logs None false), w).
Proof.
  intros w user_query logs logs_text content.
  split; [reflexivity|]. split; [reflexivity|]. split; [reflexivity|].
  split; [reflexivity|]. split; [reflexivity|]. split; [reflexivity|].
  etransitivity;
    [exact (proj1 (query_route_reply_handling service_env (replying content) one_workflow
                     user_query w [] (Some "nightly-import") logs logs_text content
                     eq_refl eq_refl eq_refl eq_refl eq_refl eq_refl))|].
  vm_compute. reflexivity.
Defined.

Lemma logs_text_joins_messages_witness :
  let first := App.mkLogRow 2 (Some "timeout") (Some "API_Error") 20 in
  let second := App.mkLogRow 1 None (Some "Data_Error") 10 in
  let user_query := App.mkUserQuery 7 "why does it fail?" in
  map App.log_message [first] = map Some ["timeout"]
  /\ App.log_message second = None
  /\ error_logs refusing = Some []
  /\ App.fetch_workflow null_message 7 = Returns (Some (Some "nightly-import"))
  /\ App.fetch_logs null_message 7 = Returns ([first] ++ second :: [])%list
  /\ App.logs_text [] = Returns "No recent logs available."
  /\ ([first] <> [] -> App.logs_text [first] = Returns (String.concat App.newline ["timeout"]))
  /\ App.query_llm_with_workflow service_env rate_limited null_message user_query refusing
     = (App.Unhandled
          (TypeError ("sequence item " ++ nat_str (length [first])
                      ++ ": expected str instance, NoneType found")), refusing).
Proof.
  intros first second user_query.
  split; [reflexivity|]. split; [reflexivity|]. split; [reflexivity|].
  split; [reflexivity|]. split; [reflexivity|].
  exact (logs_text_joins_messages service_env rate_limited null_message user_query refusing
           [] (Some "nightly-import") [first] second [] ["timeout"]
           eq_refl eq_refl eq_refl eq_refl eq_refl).
Defined.
